(** * Wordless: luminance-driven glyph placement and fly-in animation

    A shallow embedding of [main.py], [animate_depth_transition.py] and
    [generate_variations.py] (the layer presets, the variant renderer, the
    comparison strip and the selection of the styles).

    Numbers.  Python [int] is [Z].  A Python [float] is a rational number
    ([pyfloat := Q]); every float operation of the source is the exact
    rational operation followed by a rounding [rnd], kept abstract in the
    class [Rounding] (monotone, idempotent, exact on integers up to 2^53), as
    IEEE-754 round-to-nearest is.  Overflow, infinities and NaN do not
    arise for the magnitudes the program handles and are not modelled.  The
    instance [exact_rounding] (no rounding at all) is used to evaluate the
    model; module [Binary64] re-evaluates the scalar kernels on the kernel's
    binary64 numbers.

    Effects.  The module-level [random] generator, and the Pillow images
    that are mutated in place, live in a [World]: the outputs of the
    generator with a cursor, and a store of images addressed by location.
    Exceptions are the [Raise] results of the monad [M]; a [Raise] keeps the
    world in which the exception was raised, since what was drawn and what
    the generator gave before the failure stay as they are.  Pillow, the font
    backend and the GIF encoder are external; their operations are the
    fields of the classes [Imaging], [FontBackend] and [Labelling], total
    functions that raise nothing. *)

From Stdlib Require Import Floats.
From Stdlib Require Import ZArith QArith Qround Qabs Lqa Lia List Bool String.
From stdpp Require Import base tactics option list sorting.

(* A decimal float literal denotes the nearest binary64 number, as in Python. *)
#[global] Set Warnings "-inexact-float".

Local Open Scope Z_scope.

(** ** Python floats as rounded rationals *)

Definition pyfloat := Q.
Bind Scope Q_scope with pyfloat.

Class Rounding := {
  rnd : Q -> Q;
  rnd_proper : forall x y, (x == y)%Q -> (rnd x == rnd y)%Q;
  rnd_mono : forall x y, (x <= y)%Q -> (rnd x <= rnd y)%Q;
  rnd_idem : forall x, (rnd (rnd x) == rnd x)%Q;
  rnd_int : forall z : Z, Z.abs z <= 2 ^ 53 -> (rnd (inject_Z z) == inject_Z z)%Q
}.

(** Real arithmetic: the idealised instance. *)
Definition exact_rounding : Rounding :=
  {| rnd := fun x => x;
     rnd_proper := fun _ _ H => H;
     rnd_mono := fun _ _ H => H;
     rnd_idem := fun x => Qeq_refl x;
     rnd_int := fun z _ => Qeq_refl (inject_Z z) |}.

Section FloatOps.
Context {R : Rounding}.

(** [float(n)], and the implicit conversion of an int operand. *)
Definition of_int (z : Z) : pyfloat := rnd (inject_Z z).

(** A decimal literal such as [0.4]. *)
Definition lit (q : Q) : pyfloat := rnd q.

Definition fadd (x y : pyfloat) : pyfloat := rnd (x + y)%Q.

Definition fsub (x y : pyfloat) : pyfloat := rnd (x - y)%Q.

Definition fmul (x y : pyfloat) : pyfloat := rnd (x * y)%Q.

Definition fdiv (x y : pyfloat) : pyfloat := rnd (x / y)%Q.

(** [a / b] on two ints: Python's true division, correctly rounded. *)
Definition int_truediv (a b : Z) : pyfloat := rnd (inject_Z a / inject_Z b)%Q.

End FloatOps.

Declare Scope pyfloat_scope.
Delimit Scope pyfloat_scope with F.
Infix "+~" := fadd (at level 50, left associativity) : pyfloat_scope.
Infix "-~" := fsub (at level 50, left associativity) : pyfloat_scope.
Infix "*~" := fmul (at level 40, left associativity) : pyfloat_scope.
Infix "/~" := fdiv (at level 40, left associativity) : pyfloat_scope.

(** [x > y] on floats. *)
Definition fgt (x y : pyfloat) : bool := negb (Qle_bool x y).

(** [int(x)]: truncation toward zero. *)
Definition int_of (x : pyfloat) : Z :=
  if Qle_bool 0 x then Qfloor x else Qceiling x.

(** [round(x)] of Python 3: to the nearest integer, a tie to the even one.
    The source never calls it; the specification does. *)
Definition py_round (x : Q) : Z :=
  let f := Qfloor x in
  let d := (x - inject_Z f)%Q in
  if Qle_bool d (1 # 2)
  then (if Qle_bool (1 # 2) d then (if Z.even f then f else f + 1) else f)
  else f + 1.

(** ** Exceptions, the world, and the monad of effects *)

Inductive exn := IndexError | ValueError | KeyError.

(** The outcome of a computation from a world of type [W]: a value, or an
    exception together with the world in which it was raised. *)
Inductive result (W A : Type) := Ok (a : A) | Raise (e : exn) (w : W).
Arguments Ok {W A} a.
Arguments Raise {W A} e w.

(** An object reference: Pillow images are heap objects. *)
Definition loc := nat.

Record World (image : Type) := mkWorld {
  draws : nat -> pyfloat;   (* output k of the generator, read as a float of [0, 1) *)
  picks : nat -> nat;       (* output k of the generator, read as an integer *)
  cursor : nat;             (* how many outputs were consumed *)
  store : list image        (* the image objects allocated so far *)
}.
Arguments mkWorld {image}.
Arguments draws {image}.
Arguments picks {image}.
Arguments cursor {image}.
Arguments store {image}.

Definition M (image A : Type) :=
  World image -> result (World image) (A * World image).

Definition ret {image A} (a : A) : M image A := fun w => Ok (a, w).

Definition bind {image A B} (c : M image A) (k : A -> M image B) : M image B :=
  fun w => match c w with
           | Ok (a, w') => k a w'
           | Raise e w' => Raise e w'
           end.

Definition raise {image A} (e : exn) : M image A := fun w => Raise e w.

Declare Scope py_scope.
Delimit Scope py_scope with py.
Notation "'do' x <- c ;; k" := (bind c (fun x => k))
  (at level 10, x name, c at level 99, k at level 200) : py_scope.
Notation "'do' ' pat <- c ;; k" := (bind c (fun x => match x with pat => k end))
  (at level 10, pat pattern, c at level 99, k at level 200) : py_scope.

(** [for a in l: body(a)] *)
Fixpoint for_each {image A} (l : list A) (body : A -> M image unit) : M image unit :=
  match l with
  | [] => ret tt
  | a :: l' => bind (body a) (fun _ => for_each l' body)
  end.

(** A loop that grows a Python list: [acc] is the list before the loop. *)
Fixpoint for_fold {image A B} (l : list A) (acc : B) (body : B -> A -> M image B)
  : M image B :=
  match l with
  | [] => ret acc
  | a :: l' => bind (body acc a) (fun acc' => for_fold l' acc' body)
  end.

(** The elements of [range(0, stop, step)] for a non-zero step. *)
Definition range_list (stop step : Z) : list Z :=
  let n := if 0 <? step then (stop + step - 1) / step else (stop + step + 1) / step in
  map (fun k => k * step) (seqZ 0 n).

(** [range(0, stop, step)]; a zero step raises [ValueError]. *)
Definition py_range {image} (stop step : Z) : M image (list Z) :=
  if step =? 0 then raise ValueError else ret (range_list stop step).

(** [range(n)] *)
Definition py_range1 (n : Z) : list Z := seqZ 0 n.

(** *** The [random] module *)

Section Random.
Context {R : Rounding} {image : Type}.
Local Open Scope pyfloat_scope.
Local Open Scope py_scope.

(** The world after one more output of the generator was consumed. *)
Definition advance (w : World image) : World image :=
  mkWorld (draws w) (picks w) (S (cursor w)) (store w).

(** The world after [n] more outputs were consumed. *)
Definition advance_by (n : nat) (w : World image) : World image :=
  mkWorld (draws w) (picks w) (cursor w + n) (store w).

(** [random.random()]: the next output, a float of [0, 1). *)
Definition random_random : M image pyfloat :=
  fun w => Ok (draws w (cursor w), advance w).

(** [random.uniform(a, b)] is [a + (b - a) * random()]. *)
Definition random_uniform (a b : pyfloat) : M image pyfloat :=
  do r <- random_random ;; ret (a +~ (b -~ a) *~ r).

(** The same on two ints: [b - a] is an integer subtraction. *)
Definition random_uniform_int (a b : Z) : M image pyfloat :=
  do r <- random_random ;; ret (of_int a +~ of_int (b - a) *~ r).

(** [random.choice(seq)]: [IndexError] on an empty sequence, else
    [seq[_randbelow(len(seq))]], an index below [len(seq)] made from the
    next output. *)
Definition random_choice {A} (seq : list A) : M image A :=
  match seq with
  | [] => raise IndexError
  | _ =>
      fun w =>
        match seq !! (picks w (cursor w) mod length seq)%nat with
        | Some a => Ok (a, advance w)
        | None => Raise IndexError w
        end
  end.

End Random.

(** ** main.py *)

(** A word is a one-character string, kept as its Unicode code point. *)
Definition word := Z.

Definition rgb : Type := Z * Z * Z.
Definition rgba : Type := Z * Z * Z * Z.
Definition bbox : Type := Z * Z * Z * Z.

Record Font := mkFont { font_file : string; font_px : Z }.

(** [ImageFont.truetype(font_path, size=size)] *)
Definition load_font (font_path : string) (size : Z) : Font := mkFont font_path size.

(** The font backend: [font.getbbox(word)]. *)
Class FontBackend := { getbbox : Font -> word -> bbox }.

(** A grayscale (mode L) image. *)
Record GrayImage := mkGray {
  gray_width : Z;
  gray_height : Z;
  getpixel : Z -> Z -> Z
}.

(** [list(img.crop((x, y, x2, y2)).getdata())]: the pixels of the box, row by
    row.  Pillow reads a pixel of the box that lies outside the image as 0;
    a box with [x2 = x] or [y2 = y] has no pixels.  A box with [x2 < x] or
    [y2 < y], which recent Pillow releases reject, is read as empty here; it
    does not arise for a cell whose corner lies in the image. *)
Definition crop_getdata (img : GrayImage) (x y x2 y2 : Z) : list Z :=
  flat_map
    (fun j =>
       map (fun i =>
              if (0 <=? i) && (i <? gray_width img) && (0 <=? j) && (j <? gray_height img)
              then getpixel img i j else 0)
           (seqZ x (x2 - x)))
    (seqZ y (y2 - y)).

(** [sum(pixels)] *)
Definition zsum (l : list Z) : Z := fold_right Z.add 0 l.

Section Sampler.
Context {R : Rounding}.
Local Open Scope pyfloat_scope.

(** Lines 13-26: the average luminance of the [step] x [step] block with
    its top-left corner at [(x, y)], clamped to the image. *)
Definition sample_region_luminance (img_gray : GrayImage) (x y step : Z) : pyfloat :=
  let x2 := Z.min (x + step) (gray_width img_gray) in
  let y2 := Z.min (y + step) (gray_height img_gray) in
  let pixels := crop_getdata img_gray x y x2 y2 in
  match pixels with
  | [] => lit 255
  | _ => int_truediv (zsum pixels) (Z.of_nat (length pixels))
  end.

(** Lines 34-52. *)
Definition luminance_to_alpha_and_density
    (lum : pyfloat) (base_alpha alpha_boost_dark : Z) (density_scale : pyfloat)
    : Z * pyfloat :=
  let t := lum /~ lit 255 in
  let alpha := int_of (of_int base_alpha +~ (lit 1 -~ t) *~ of_int alpha_boost_dark) in
  let alpha := Z.max 0 (Z.min 255 alpha) in
  let density := (lit 1 -~ t) *~ density_scale in
  (alpha, density).

(** The alpha and the density of the grid cell at [(x, y)]: the first two
    statements of the loop bodies of [draw_layer] and
    [generate_layer_targets]. *)
Definition cell_mapping (img_gray : GrayImage) (step base_alpha alpha_boost_dark : Z)
    (density_scale : pyfloat) (x y : Z) : Z * pyfloat :=
  luminance_to_alpha_and_density (sample_region_luminance img_gray x y step)
    base_alpha alpha_boost_dark density_scale.

(** [max(6, int(font_size * size_variation))]: line 101 of [main.py] and
    line 64 of [animate_depth_transition.py]. *)
Definition resolve_font_size (font_size : Z) (size_variation : pyfloat) : Z :=
  Z.max 6 (int_of (of_int font_size *~ size_variation)).

End Sampler.

Section ChooseWord.
Context {R : Rounding} {image : Type}.

(** Lines 29-31. *)
Definition choose_word (words : list word) : M image word := random_choice words.

End ChooseWord.

(** *** Pillow: the operations the program uses

    An [image] value is the content of an RGBA (or palette) image object;
    the objects themselves live in the [store] of the world. *)

Class Imaging (image : Type) := {
  (* Image.new("RGBA", (w, h), fill) *)
  image_new : Z -> Z -> rgba -> image;
  (* ImageDraw.Draw(im).text((x, y), word, font=font, fill=fill) *)
  draw_text : image -> Z * Z -> word -> Font -> rgba -> image;
  (* the same with anchor="mm" and float coordinates *)
  draw_text_mm : image -> pyfloat * pyfloat -> word -> Font -> rgba -> image;
  (* im.rotate(angle, expand=1) *)
  image_rotate : image -> pyfloat -> image;
  (* im.getbbox(): None for a fully transparent image *)
  image_getbbox : image -> option bbox;
  (* canvas.alpha_composite(src, dest=(x, y)) *)
  alpha_composite : image -> image -> Z * Z -> image;
  (* im.filter(ImageFilter.GaussianBlur(radius=r)) *)
  gaussian_blur : image -> pyfloat -> image;
  (* Image.blend(im1, im2, alpha) *)
  image_blend : image -> image -> pyfloat -> image;
  (* im.convert("P", palette=Image.ADAPTIVE) *)
  convert_P : image -> image
}.

#[export] Instance image_inhabited `{Imaging image} : Inhabited image :=
  populate (image_new 0 0 (0, 0, 0, 0)).

Section Store.
Context `{Imaging image}.

(** The world with [store] replaced. *)
Definition with_store (sigma : list image) (w : World image) : World image :=
  mkWorld (draws w) (picks w) (cursor w) sigma.

(** A new image object with content [i]; its location is returned. *)
Definition new_object (i : image) : M image loc :=
  fun w => Ok (length (store w), mkWorld (draws w) (picks w) (cursor w) (store w ++ [i])).

(** The content of an object.  No object is ever freed, so every location
    the program holds is allocated. *)
Definition read_object (l : loc) : M image image :=
  fun w => Ok (store w !!! l, w).

(** In-place mutation of the object at [l]. *)
Definition update_object (l : loc) (f : image -> image) : M image unit :=
  fun w => Ok (tt, mkWorld (draws w) (picks w) (cursor w) (alter f l (store w))).

End Store.

(** *** draw_layer *)

Section DrawLayer.
Context {R : Rounding} {FB : FontBackend} `{Imaging image}.
Local Open Scope pyfloat_scope.
Local Open Scope py_scope.

Variables (canvas : loc) (img_gray : GrayImage) (font_path : string)
  (font_size : Z) (words : list word) (step base_alpha alpha_boost_dark : Z)
  (density_scale : pyfloat) (color : rgb) (random_jitter : pyfloat)
  (allow_rotation : bool).

(** Lines 93-136: the cell survived the thinning; place and draw its glyph. *)
Definition draw_layer_place (alpha x y : Z) : M image unit :=
  let base_font := load_font font_path font_size in
  do word <- choose_word words ;;
  do r1 <- random_random ;;
  let jitter_x := (r1 -~ lit 0.5) *~ of_int 2 *~ of_int step *~ random_jitter in
  do r2 <- random_random ;;
  let jitter_y := (r2 -~ lit 0.5) *~ of_int 2 *~ of_int step *~ random_jitter in
  let px := of_int x +~ int_truediv step 2 +~ jitter_x in
  let py := of_int y +~ int_truediv step 2 +~ jitter_y in
  do size_variation <- random_uniform (lit 0.9) (lit 1.2) ;;
  let fsize := resolve_font_size font_size size_variation in
  let font := if fsize =? font_size then base_font else load_font font_path fsize in
  let '(b0, b1, b2, b3) := getbbox font word in
  let tw := b2 - b0 in
  let th := b3 - b1 in
  let tx := int_of (px -~ int_truediv tw 2) in
  let ty := int_of (py -~ int_truediv th 2) in
  if allow_rotation then
    do angle <- random_uniform_int (-25) 25 ;;
    do tmp <- new_object (image_new (tw * 2) (th * 2) (0, 0, 0, 0)) ;;
    do _ <- update_object tmp (fun i =>
              draw_text_mm i (int_truediv tw 2, int_truediv th 2) word font (color, alpha)) ;;
    do drawn <- read_object tmp ;;
    do tmp <- new_object (image_rotate drawn angle) ;;
    do rotated <- read_object tmp ;;
    match image_getbbox rotated with
    | Some (c0, c1, c2, c3) =>
        let rw := c2 - c0 in
        let rh := c3 - c1 in
        let cx := int_of (px -~ int_truediv rw 2) in
        let cy := int_of (py -~ int_truediv rh 2) in
        update_object canvas (fun i => alpha_composite i rotated (cx, cy))
    | None => ret tt
    end
  else
    update_object canvas (fun i => draw_text i (tx, ty) word font (color, alpha)).

(** Lines 82-91: sample the cell, map its luminance, thin. *)
Definition draw_layer_cell (x y : Z) : M image unit :=
  let lum := sample_region_luminance img_gray x y step in
  let '(alpha, density) :=
    luminance_to_alpha_and_density lum base_alpha alpha_boost_dark density_scale in
  do r <- random_random ;;
  if fgt r density then ret tt   (* continue *)
  else draw_layer_place alpha x y.

Definition draw_layer : M image unit :=
  let w := gray_width img_gray in
  let h := gray_height img_gray in
  do ys <- py_range h step ;;
  for_each ys (fun y =>
    do xs <- py_range w step ;;
    for_each xs (fun x => draw_layer_cell x y)).

End DrawLayer.

(** *** Layer configurations

    A layer is a Python dict with six mandatory keys; [random_jitter] and
    [allow_rotation] are read with [dict.get] and may be absent. *)

Record Layer := mkLayer {
  font_size : Z;
  step : Z;
  base_alpha : Z;
  alpha_boost_dark : Z;
  density_scale : pyfloat;
  color : rgb;
  random_jitter : option pyfloat;
  allow_rotation : option bool
}.

(** The dict with the key [random_jitter] set to [j]. *)
Definition set_random_jitter (j : pyfloat) (layer : Layer) : Layer :=
  mkLayer (font_size layer) (step layer) (base_alpha layer) (alpha_boost_dark layer)
          (density_scale layer) (color layer) (Some j) (allow_rotation layer).

(** The 30 characters of the built-in vocabulary, [list("...")]. *)
Definition chinese_words : list word :=
  [22825; 22320; 20154; 21644; 23665; 27700; 39118; 20113; 26085; 26376;
   26143; 36784; 20809; 24433; 40657; 30333; 34394; 23454; 26790; 22659;
   25991; 23383; 37325; 21472; 23618; 27425; 28145; 27973; 21464; 21270].

Section Renderers.
Context {R : Rounding} {FB : FontBackend} `{Imaging image}.
Local Open Scope py_scope.

(** main.py, [build_word_image], from the resized grayscale image on; the
    value returned is the image handed to [canvas.save]. *)
Definition build_word_image (img_gray : GrayImage) (font_path : string)
    (background : rgb) : M image image :=
  let w := gray_width img_gray in
  let h := gray_height img_gray in
  do canvas <- new_object (image_new w h (background, 255)) ;;
  let layers :=
    [ mkLayer 50 50 10 180 (lit 0.7) (0, 0, 0) None (Some false);
      mkLayer 30 26 20 150 (lit 1.2) (0, 0, 0) None (Some true);
      mkLayer 18 14 40 160 (lit 1.6) (0, 0, 0) None (Some true);
      mkLayer 12 10 30 200 (lit 1.3) (0, 0, 0) None (Some false) ] in
  do _ <- for_each layers (fun layer =>
            draw_layer canvas img_gray font_path (font_size layer) chinese_words
              (step layer) (base_alpha layer) (alpha_boost_dark layer)
              (density_scale layer) (color layer) (lit 0.4)
              (default false (allow_rotation layer))) ;;
  read_object canvas.

(** generate_variations.py, [render_with_layers], likewise; [words] is the
    list of the characters of the string argument. *)
Definition render_with_layers (img_gray : GrayImage) (font_path : string)
    (layers : list Layer) (background : rgb) (words : list word) : M image image :=
  let w := gray_width img_gray in
  let h := gray_height img_gray in
  do canvas <- new_object (image_new w h (background, 255)) ;;
  let chinese_words := words in
  do _ <- for_each layers (fun layer =>
            draw_layer canvas img_gray font_path (font_size layer) chinese_words
              (step layer) (base_alpha layer) (alpha_boost_dark layer)
              (density_scale layer) (color layer)
              (default (lit 0.4) (random_jitter layer))
              (default false (allow_rotation layer))) ;;
  read_object canvas.

(** generate_variations.py, [get_style_presets]: a dict from style name to
    layers, in insertion order. *)
Definition get_style_presets : list (string * list Layer) :=
  [ ("subtle_soft"%string,
     [ mkLayer 52 56 20 130 (lit 0.5) (0, 0, 0) None None;
       mkLayer 30 32 30 140 (lit 0.9) (0, 0, 0) None None;
       mkLayer 18 18 40 150 (lit 1.2) (0, 0, 0) None None ]);
    ("graphic_bold"%string,
     [ mkLayer 64 60 40 200 (lit 0.8) (0, 0, 0) None None;
       mkLayer 32 30 60 190 (lit 1.6) (0, 0, 0) None None;
       mkLayer 16 14 70 190 (lit 1.8) (0, 0, 0) None None ]);
    ("deep_dense"%string,
     [ mkLayer 40 40 25 210 (lit 1.0) (0, 0, 0) None None;
       mkLayer 26 22 40 210 (lit 1.8) (0, 0, 0) None None;
       mkLayer 14 10 50 210 (lit 2.2) (0, 0, 0) None None ]);
    ("minimal_airy"%string,
     [ mkLayer 60 70 15 120 (lit 0.4) (0, 0, 0) None None;
       mkLayer 32 46 20 130 (lit 0.6) (0, 0, 0) None None;
       mkLayer 18 30 25 140 (lit 0.8) (0, 0, 0) None None ]) ].

(** The layers of the animation: [presets["subtle_soft"]] followed by
    [presets["graphic_bold"]]. *)
Definition combined_layers : list Layer :=
  flat_map (fun name =>
              flat_map (fun p => if String.eqb (fst p) name then snd p else [])
                       get_style_presets)
           ["subtle_soft"%string; "graphic_bold"%string].

(** [presets[name]] *)
Fixpoint dict_get {V} (d : list (string * V)) (name : string) : M image V :=
  match d with
  | [] => raise KeyError
  | (k, v) :: d' => if String.eqb k name then ret v else dict_get d' name
  end.

End Renderers.

(** ** animate_depth_transition.py *)

(** A glyph description: the dict built by [generate_layer_targets]. *)
Record Glyph := mkGlyph {
  glyph_word : word;
  glyph_font : Font;
  glyph_width : Z;
  glyph_height : Z;
  target_pos : pyfloat * pyfloat;
  glyph_alpha : Z;
  glyph_color : rgb
}.

Inductive Side := Left | Right | Top | Bottom.

Section Planner.
Context {R : Rounding} {FB : FontBackend} {image : Type}.
Local Open Scope pyfloat_scope.
Local Open Scope py_scope.

Variables (img_gray : GrayImage) (font_path : string) (layer : Layer)
  (words : list word) (density_multiplier : pyfloat).

(** The body of the two loops of [generate_layer_targets] (lines 45-83);
    [targets] is the list so far, the result is the list after the cell. *)
Definition generate_layer_targets_cell (targets : list Glyph) (x y : Z)
  : M image (list Glyph) :=
  let step := step layer in
  let font_size := font_size layer in
  let base_alpha := base_alpha layer in
  let alpha_boost_dark := alpha_boost_dark layer in
  let density_scale := density_scale layer *~ density_multiplier in
  let color := color layer in
  let base_font := load_font font_path font_size in
  let lum := sample_region_luminance img_gray x y step in
  let '(alpha, density) :=
    luminance_to_alpha_and_density lum base_alpha alpha_boost_dark density_scale in
  do r <- random_random ;;
  if fgt r density then ret targets   (* continue *)
  else
    do word <- choose_word words ;;
    do r1 <- random_random ;;
    let jitter_x := (r1 -~ lit 0.5) *~ of_int 2 *~ of_int step *~ lit 0.4 in
    do r2 <- random_random ;;
    let jitter_y := (r2 -~ lit 0.5) *~ of_int 2 *~ of_int step *~ lit 0.4 in
    let px := of_int x +~ int_truediv step 2 +~ jitter_x in
    let py := of_int y +~ int_truediv step 2 +~ jitter_y in
    do size_variation <- random_uniform (lit 0.9) (lit 1.2) ;;
    let fsize := resolve_font_size font_size size_variation in
    let font := if fsize =? font_size then base_font else load_font font_path fsize in
    let '(b0, b1, b2, b3) := getbbox font word in
    let tw := b2 - b0 in
    let th := b3 - b1 in
    ret (targets ++ [mkGlyph word font tw th (px, py) alpha color]).

Definition generate_layer_targets : M image (list Glyph) :=
  let w := gray_width img_gray in
  let h := gray_height img_gray in
  do ys <- py_range h (step layer) ;;
  for_fold ys [] (fun targets y =>
    do xs <- py_range w (step layer) ;;
    for_fold xs targets (fun targets x => generate_layer_targets_cell targets x y)).

End Planner.

Section Director.
Context {R : Rounding} {FB : FontBackend} `{Imaging image}.
Local Open Scope pyfloat_scope.
Local Open Scope py_scope.

Definition random_offscreen_start (w h : Z) : M image (pyfloat * pyfloat) :=
  do side <- random_choice [Left; Right; Top; Bottom] ;;
  match side with
  | Left =>
      do u <- random_uniform (lit 0.1) (lit 0.5) ;;
      do v <- random_uniform_int 0 h ;;
      ret (of_int (- w) *~ u, v)
  | Right =>
      do u <- random_uniform (lit 0.1) (lit 0.5) ;;
      do v <- random_uniform_int 0 h ;;
      ret (of_int w *~ (of_int 1 +~ u), v)
  | Top =>
      do u <- random_uniform_int 0 w ;;
      do v <- random_uniform (lit 0.1) (lit 0.5) ;;
      ret (u, of_int (- h) *~ v)
  | Bottom =>
      do u <- random_uniform_int 0 w ;;
      do v <- random_uniform (lit 0.1) (lit 0.5) ;;
      ret (u, of_int h *~ (of_int 1 +~ v))
  end.

(** A glyph in flight: the dict after [t["start_pos"] = (start_x, start_y)]. *)
Definition Flying : Type := Glyph * (pyfloat * pyfloat).

(** Lines 156 and 163-166: the progress of frame [f] and the interpolated
    centre of a glyph on it. *)
Definition flight_t_norm (frames_per_layer f : Z) : pyfloat :=
  of_int (f + 1) /~ of_int frames_per_layer.

Definition flight_center (t_norm : pyfloat) (start target : pyfloat * pyfloat)
  : pyfloat * pyfloat :=
  let '(sx, sy) := start in
  let '(tx, ty) := target in
  let cx := sx +~ (tx -~ sx) *~ t_norm in
  let cy := sy +~ (ty -~ sy) *~ t_norm in
  (cx, cy).

(** [max(a, b)] on floats. *)
Definition fmax (a b : pyfloat) : pyfloat := if fgt b a then b else a.

Variables (img_gray : GrayImage) (original : image) (font_path : string)
  (background : rgb) (frames_per_layer final_original_frames : Z).

(** Lines 150-152. *)
Definition assign_starts (targets : list Glyph) : M image (list Flying) :=
  let w := gray_width img_gray in
  let h := gray_height img_gray in
  for_fold targets [] (fun flying t =>
    do start <- random_offscreen_start w h ;;
    ret (flying ++ [(t, start)])).

(** Lines 156-189: one flight frame, appended to [frames]. *)
Definition flight_frame (settled_canvas : loc) (targets : list Flying)
    (frames : list loc) (f : Z) : M image (list loc) :=
  let t_norm := flight_t_norm frames_per_layer f in
  do settled <- read_object settled_canvas ;;
  do frame_rgba <- new_object settled ;;          (* settled_canvas.copy() *)
  do _ <- for_each targets (fun glyph =>
            let '(cx, cy) := flight_center t_norm (snd glyph) (target_pos (fst glyph)) in
            let tw := glyph_width (fst glyph) in
            let th := glyph_height (fst glyph) in
            let x := int_of (cx -~ int_truediv tw 2) in
            let y := int_of (cy -~ int_truediv th 2) in
            let a := glyph_alpha (fst glyph) in
            update_object frame_rgba (fun i =>
              draw_text i (x, y) (glyph_word (fst glyph)) (glyph_font (fst glyph))
                        (glyph_color (fst glyph), a))) ;;
  let blur_radius := lit 1.2 *~ (lit 1 -~ t_norm) in
  do frame_rgba <-
    (if fgt blur_radius (lit 0.1)
     then do drawn <- read_object frame_rgba ;;
          new_object (gaussian_blur drawn blur_radius)
     else ret frame_rgba) ;;
  do final <- read_object frame_rgba ;;
  do converted <- new_object (convert_P final) ;;
  ret (frames ++ [converted]).

(** Lines 192-206: the commit of a layer onto the settled canvas. *)
Definition commit_layer (settled_canvas : loc) (targets : list Flying)
  : M image unit :=
  for_each targets (fun glyph =>
    let '(tx, ty) := target_pos (fst glyph) in
    let tw := glyph_width (fst glyph) in
    let th := glyph_height (fst glyph) in
    let x := int_of (tx -~ int_truediv tw 2) in
    let y := int_of (ty -~ int_truediv th 2) in
    let a := glyph_alpha (fst glyph) in
    update_object settled_canvas (fun i =>
      draw_text i (x, y) (glyph_word (fst glyph)) (glyph_font (fst glyph))
                (glyph_color (fst glyph), a))).

(** Lines 137-206: the body of the loop over the layers. *)
Definition animate_layer (settled_canvas : loc) (frames : list loc) (layer : Layer)
  : M image (list loc) :=
  do targets <- generate_layer_targets img_gray font_path layer chinese_words (lit 1.0) ;;
  do targets <- assign_starts targets ;;
  do frames <- for_fold (py_range1 frames_per_layer) frames
                 (flight_frame settled_canvas targets) ;;
  do _ <- commit_layer settled_canvas targets ;;
  ret frames.

(** Lines 210-217: one frame of the fade into the original. *)
Definition fade_frame (settled_canvas original_rgba : loc) (frames : list loc) (i : Z)
  : M image (list loc) :=
  let alpha := of_int (i + 1) /~ of_int final_original_frames in
  do settled <- read_object settled_canvas ;;
  do orig <- read_object original_rgba ;;
  do blended <- new_object (image_blend settled orig alpha) ;;
  let blur_radius := fmax (lit 0.0) (lit 1.5 -~ lit 1.5 *~ alpha) in
  do blended <-
    (if fgt blur_radius (of_int 0)
     then do b <- read_object blended ;;
          new_object (gaussian_blur b blur_radius)
     else ret blended) ;;
  do final <- read_object blended ;;
  do converted <- new_object (convert_P final) ;;
  ret (frames ++ [converted]).

(** [accumulate_layers_animation], from the resized base image on
    ([img_gray] and [original] are its L and RGBA conversions).  The result
    is the list [frames] and what was handed to the GIF encoder: [None]
    when there was no frame to save. *)
Definition accumulate_layers_animation : M image (list loc * option (list image)) :=
  let w := gray_width img_gray in
  let h := gray_height img_gray in
  do settled_canvas <- new_object (image_new w h (background, 255)) ;;
  let presets := get_style_presets in
  do subtle_layers <- dict_get presets "subtle_soft" ;;
  do bold_layers <- dict_get presets "graphic_bold" ;;
  let combined_layers := subtle_layers ++ bold_layers in
  let frames := [] in
  do frames <- for_fold combined_layers frames (animate_layer settled_canvas) ;;
  do original_rgba <- new_object original ;;
  do frames <- for_fold (py_range1 final_original_frames) frames
                 (fade_frame settled_canvas original_rgba) ;;
  match frames with
  | [] => ret (frames, None)
  | _ => fun w => Ok ((frames, Some (map (fun l => store w !!! l) frames)), w)
  end.

End Director.

(** *** The images of the animation, as values

    What a flight frame, a committed canvas and a fade frame hold, computed
    from the content of the settled canvas; the theorems on the store
    relate the objects of the run to these values. *)

Section FrameImages.
Context {R : Rounding} `{Imaging image}.
Local Open Scope pyfloat_scope.

(** One [draw.text] of lines 170-180 and 197-206: the glyph with its centre
    at [center]. *)
Definition draw_glyph (i : image) (center : pyfloat * pyfloat) (g : Glyph) : image :=
  let x := int_of (fst center -~ int_truediv (glyph_width g) 2) in
  let y := int_of (snd center -~ int_truediv (glyph_height g) 2) in
  draw_text i (x, y) (glyph_word g) (glyph_font g) (glyph_color g, glyph_alpha g).

Definition flight_frame_image (frames_per_layer : Z) (settled : image)
    (targets : list Flying) (f : Z) : image :=
  let t_norm := flight_t_norm frames_per_layer f in
  let drawn :=
    fold_left (fun i glyph =>
                 draw_glyph i (flight_center t_norm (snd glyph) (target_pos (fst glyph)))
                            (fst glyph))
              targets settled in
  let blur_radius := lit 1.2 *~ (lit 1 -~ t_norm) in
  convert_P (if fgt blur_radius (lit 0.1) then gaussian_blur drawn blur_radius else drawn).

Definition committed_image (settled : image) (targets : list Flying) : image :=
  fold_left (fun i glyph => draw_glyph i (target_pos (fst glyph)) (fst glyph))
            targets settled.

Definition fade_frame_image (final_original_frames : Z) (settled original : image)
    (i : Z) : image :=
  let alpha := of_int (i + 1) /~ of_int final_original_frames in
  let blended := image_blend settled original alpha in
  let blur_radius := fmax (lit 0.0) (lit 1.5 -~ lit 1.5 *~ alpha) in
  convert_P (if fgt blur_radius (of_int 0) then gaussian_blur blended blur_radius
             else blended).

End FrameImages.

(** ** Instances for running the model *)

(** Symbolic images: a picture is the expression that made it. *)
Inductive Pic :=
| PNew (w h : Z) (fill : rgba)
| PText (p : Pic) (xy : Z * Z) (wd : word) (f : Font) (fill : rgba)
| PTextMM (p : Pic) (xy : pyfloat * pyfloat) (wd : word) (f : Font) (fill : rgba)
| PRotate (p : Pic) (angle : pyfloat)
| PComposite (p src : Pic) (xy : Z * Z)
| PBlur (p : Pic) (radius : pyfloat)
| PBlend (p q : Pic) (alpha : pyfloat)
| PPalette (p : Pic).

Fixpoint pic_size (p : Pic) : Z * Z :=
  match p with
  | PNew w h _ => (w, h)
  | PText p _ _ _ _ | PTextMM p _ _ _ _ | PRotate p _ | PComposite p _ _
  | PBlur p _ | PBlend p _ _ | PPalette p => pic_size p
  end.

Fixpoint pic_drawn (p : Pic) : bool :=
  match p with
  | PNew _ _ _ => false
  | PRotate p _ | PBlur p _ | PPalette p => pic_drawn p
  | _ => true
  end.

#[export] Instance symbolic_imaging : Imaging Pic := {|
  image_new := PNew;
  draw_text := PText;
  draw_text_mm := PTextMM;
  image_rotate := PRotate;
  image_getbbox := fun p =>
    if pic_drawn p then Some (0, 0, fst (pic_size p), snd (pic_size p)) else None;
  alpha_composite := PComposite;
  gaussian_blur := PBlur;
  image_blend := PBlend;
  convert_P := PPalette
|}.

(** A font whose every glyph is a square of its point size. *)
Definition square_font : FontBackend :=
  {| getbbox := fun f _ => (0, 0, font_px f, font_px f) |}.

(** A grayscale image with every pixel equal to [v]. *)
Definition uniform_gray (w h v : Z) : GrayImage := mkGray w h (fun _ _ => v).

(** A world whose generator returns [r] as every float and [0] as every
    integer, with nothing allocated. *)
Definition constant_world {image} (r : pyfloat) : World image :=
  mkWorld (fun _ => r) (fun _ => 0%nat) 0 [].

(** ** The scalar kernels on binary64 numbers

    The same expressions as above on the kernel's IEEE-754 doubles, for
    checking concrete values against the rounding of a real machine. *)

Module Binary64.
#[local] Set Warnings "-inexact-float".
Local Open Scope float_scope.

(** [float(z)], for [|z| < 2^63]. *)
Definition of_int (z : Z) : float :=
  if (0 <=? z)%Z then of_uint63 (Uint63.of_Z z)
  else - of_uint63 (Uint63.of_Z (- z)).

(** [int(x)]; [None] stands for the exception on an infinity or a NaN. *)
Definition int_of (x : float) : option Z :=
  match Prim2SF x with
  | S754_zero _ => Some 0%Z
  | S754_finite s m e =>
      let mag := (if (0 <=? e)%Z then Z.pos m * 2 ^ e else Z.pos m / 2 ^ (- e))%Z in
      Some (if s then (- mag)%Z else mag)
  | _ => None
  end.

(** main.py, lines 13-26: [sum(pixels) / len(pixels)], the quotient of two
    ints below 2^53. *)
Definition sample_region_luminance (img_gray : GrayImage) (x y step : Z) : float :=
  let x2 := Z.min (x + step) (gray_width img_gray) in
  let y2 := Z.min (y + step) (gray_height img_gray) in
  let pixels := crop_getdata img_gray x y x2 y2 in
  match pixels with
  | [] => 255.0
  | _ => of_int (zsum pixels) / of_int (Z.of_nat (length pixels))
  end.

Definition luminance_to_alpha_and_density
    (lum : float) (base_alpha alpha_boost_dark : Z) (density_scale : float)
    : option Z * float :=
  let t := lum / 255.0 in
  let alpha := int_of (of_int base_alpha + (1.0 - t) * of_int alpha_boost_dark) in
  let alpha := option_map (fun a => Z.max 0 (Z.min 255 a)) alpha in
  let density := (1.0 - t) * density_scale in
  (alpha, density).

Definition random_uniform (a b r : float) : float := a + (b - a) * r.

Definition resolve_font_size (font_size : Z) (size_variation : float) : option Z :=
  option_map (Z.max 6) (int_of (of_int font_size * size_variation)).

Definition flight_t_norm (frames_per_layer f : Z) : float :=
  of_int (f + 1) / of_int frames_per_layer.

Definition flight_center (t_norm : float) (start target : float * float)
  : float * float :=
  let '(sx, sy) := start in
  let '(tx, ty) := target in
  let cx := sx + (tx - sx) * t_norm in
  let cy := sy + (ty - sy) * t_norm in
  (cx, cy).



End Binary64.

(** ** Scaling to [max_width]

    [scale = max_width / float(w)] and [img.resize((max_width, int(h *
    scale)), ...)]: lines 151-152 of main.py, 24-25 of generate_variations.py
    and 15-16 of animate_depth_transition.py.  The value is the size asked of
    [resize]; [None] stands for the [ZeroDivisionError] of a zero width. *)

Section Scaling.
Context {R : Rounding}.
Local Open Scope pyfloat_scope.

Definition scaled_size (w h max_width : Z) : option (Z * Z) :=
  if w =? 0 then None
  else
    let scale := of_int max_width /~ of_int w in
    Some (max_width, int_of (of_int h *~ scale)).

End Scaling.

(** The same on binary64 numbers. *)
Definition scaled_size_binary64 (w h max_width : Z) : option (Z * Z) :=
  if w =? 0 then None
  else
    let scale := (Binary64.of_int max_width / Binary64.of_int w)%float in
    option_map (fun h' => (max_width, h'))
               (Binary64.int_of (Binary64.of_int h * scale)%float).

(** ** generate_variations.py: what [main] renders and stitches

    The run of [main] as the list of the calls it makes, in order; [None]
    stands for [SystemExit].  Paths are made by [os.path.join], kept
    abstract. *)

Inductive MainCall :=
| Render (style_name : string) (layers : list Layer) (out_path : string)
| SaveOriginal (original_path : string)
| Stitch (image_paths : list string) (output_path : string) (labels : list string).

Section VariationsMain.
Context {R : Rounding}.
Variable path_join : string -> string -> string.

(** [s in presets] *)
Definition is_preset (s : string) : bool :=
  existsb (String.eqb s) (map fst get_style_presets).

(** [presets[name]] for a name that is a key. *)
Definition preset_layers (name : string) : list Layer :=
  flat_map (fun p => if String.eqb (fst p) name then snd p else []) get_style_presets.

(** [os.path.join(args.out_dir, f"{style_name}.png")] *)
Definition variant_path (out_dir style_name : string) : string :=
  path_join out_dir (style_name ++ ".png")%string.

Definition variations_main (styles : list string) (out_dir comparison_output : string)
  : option (list MainCall) :=
  let selected_styles := List.filter is_preset styles in
  match selected_styles with
  | [] => None
  | _ =>
      let renders :=
        map (fun style_name =>
               Render style_name (preset_layers style_name)
                      (variant_path out_dir style_name)) selected_styles in
      let variant_paths := map (variant_path out_dir) selected_styles in
      let key_order := ["subtle_soft"; "graphic_bold"; "deep_dense"]%string in
      let key_styles :=
        List.filter (fun s => existsb (String.eqb s) selected_styles) key_order in
      let comparison_path := path_join out_dir comparison_output in
      match key_styles with
      | _ :: _ =>
          let original_path := path_join out_dir "original.png" in
          let eval_paths := original_path :: map (variant_path out_dir) key_styles in
          let eval_labels := "original"%string :: key_styles in
          let evaluation_path := path_join out_dir "evaluation.png" in
          let comp_paths :=
            map (variant_path out_dir) (take 3 selected_styles) ++ [evaluation_path] in
          let comp_labels := take 3 selected_styles ++ ["evaluation"%string] in
          Some (renders ++
                [SaveOriginal original_path;
                 Stitch eval_paths evaluation_path eval_labels;
                 Stitch comp_paths comparison_path comp_labels])
      | [] =>
          Some (renders ++ [Stitch variant_paths comparison_path selected_styles])
      end
  end.

End VariationsMain.

(** The styles a run renders, in order. *)
Definition rendered_styles (calls : list MainCall) : list string :=
  flat_map (fun c => match c with Render s _ _ => [s] | _ => [] end) calls.

(** The labels of the panels a run stitches, per stitched image. *)
Definition stitched_labels (calls : list MainCall) : list (list string) :=
  flat_map (fun c => match c with Stitch _ _ labels => [labels] | _ => [] end) calls.

(** ** generate_variations.py: stitch_side_by_side (lines 83-132) *)

(** What the function uses of Pillow besides [Imaging]: the size of an
    image, and the measuring and drawing of a label in the default font. *)
Class Labelling (image : Type) := {
  (* (im.width, im.height) *)
  image_size : image -> Z * Z;
  (* draw.textbbox((0, 0), label, font=font) *)
  textbbox : string -> bbox;
  (* draw.text((tx, ty), label, fill=(0, 0, 0, 255), font=font) *)
  draw_label : image -> Z * Z -> string -> image
}.

Section Stitch.
Context `{Imaging image} {L : Labelling image}.
Local Open Scope py_scope.

(** [if labels]: neither [None] nor an empty list. *)
Definition truthy {A} (labels : option (list A)) : bool :=
  match labels with
  | Some (_ :: _) => true
  | _ => false
  end.

(** [max(heights)]: [ValueError] on an empty list. *)
Definition py_max (l : list Z) : M image Z :=
  match l with
  | [] => raise ValueError
  | a :: l' => ret (fold_left Z.max l' a)
  end.

(** [enumerate(images)] *)
Definition enumerate {A} (l : list A) : list (nat * A) := combine (seq 0 (length l)) l.

(** Lines 115-129: the body of the loop over the panels; [x_offset] is the
    variable the loop carries. *)
Definition stitch_panel (canvas : loc) (labels : option (list string))
    (max_height label_height : Z) (x_offset : Z) (entry : nat * image) : M image Z :=
  let '(idx, im) := entry in
  let '(im_width, im_height) := image_size im in
  let y_offset := (max_height - im_height) / 2 in
  do _ <- update_object canvas (fun c => alpha_composite c im (x_offset, y_offset)) ;;
  do _ <-
    (if truthy labels && (idx <? length (default [] labels))%nat then
       match default [] labels !! idx with
       | Some label =>
           let '(b0, b1, b2, b3) := textbbox label in
           let tw := b2 - b0 in
           let th := b3 - b1 in
           let tx := x_offset + (im_width - tw) / 2 in
           let ty := max_height + (label_height - th) / 2 in
           update_object canvas (fun c => draw_label c (tx, ty) label)
       | None => raise IndexError
       end
     else ret tt) ;;
  ret (x_offset + im_width).

(** The images are those opened from [image_paths]; the result is the image
    saved, [None] when the function returns without saving. *)
Definition stitch_side_by_side (images : list image) (labels : option (list string))
  : M image (option image) :=
  match images with
  | [] => ret None
  | _ =>
      let heights := map (fun im => snd (image_size im)) images in
      do max_height <- py_max heights ;;
      let total_width := zsum (map (fun im => fst (image_size im)) images) in
      let label_height := if truthy labels then 40 else 0 in
      let canvas_height := max_height + label_height in
      do canvas <-
        new_object (image_new total_width canvas_height (255, 255, 255, 255)) ;;
      do _ <- for_fold (enumerate images) 0
                (stitch_panel canvas labels max_height label_height) ;;
      do saved <- read_object canvas ;;
      ret (Some saved)
  end.

(** The layout in closed form: panel [k] starts where the panels before it
    end, and is centred in the height of the tallest. *)
Definition panel_x (images : list image) (k : nat) : Z :=
  zsum (map (fun im => fst (image_size im)) (take k images)).

Definition tallest (images : list image) : Z :=
  match map (fun im => snd (image_size im)) images with
  | [] => 0
  | a :: l' => fold_left Z.max l' a
  end.

Definition panel_y (images : list image) (im : image) : Z :=
  (tallest images - snd (image_size im)) / 2.

(** Panel [k] pasted on [c], with its label when it has one. *)
Definition paste_panel (images : list image) (labels : option (list string))
    (c : image) (entry : nat * image) : image :=
  let '(k, im) := entry in
  let pasted := alpha_composite c im (panel_x images k, panel_y images im) in
  if truthy labels then
    match default [] labels !! k with
    | Some label =>
        let '(b0, b1, b2, b3) := textbbox label in
        draw_label pasted
          (panel_x images k + (fst (image_size im) - (b2 - b0)) / 2,
           tallest images + (40 - (b3 - b1)) / 2) label
    | None => pasted
    end
  else pasted.

End Stitch.

(** Symbolic sheets, for running [stitch_side_by_side]: an opened panel of a
    given size, a blank canvas, and what was pasted or written on it. *)
Inductive Sheet :=
| SPanel (w h : Z)
| SBlank (w h : Z) (fill : rgba)
| SPasted (s src : Sheet) (xy : Z * Z)
| SLabelled (s : Sheet) (xy : Z * Z) (label : string).

Fixpoint sheet_size (s : Sheet) : Z * Z :=
  match s with
  | SPanel w h | SBlank w h _ => (w, h)
  | SPasted s _ _ | SLabelled s _ _ => sheet_size s
  end.

Definition sheet_imaging : Imaging Sheet := {|
  image_new := SBlank;
  draw_text := fun s _ _ _ _ => s;
  draw_text_mm := fun s _ _ _ _ => s;
  image_rotate := fun s _ => s;
  image_getbbox := fun s => Some (0, 0, fst (sheet_size s), snd (sheet_size s));
  alpha_composite := SPasted;
  gaussian_blur := fun s _ => s;
  image_blend := fun s _ _ => s;
  convert_P := fun s => s
|}.

(** The default bitmap font: every character 6 pixels wide and 11 high. *)
Definition sheet_labelling : Labelling Sheet := {|
  image_size := sheet_size;
  textbbox := fun label => (0, 0, 6 * Z.of_nat (String.length label), 11);
  draw_label := SLabelled
|}.

(** ** Parts of the placement and of the frames, by name *)

(** One coordinate of a glyph's position (main.py, lines 95-98;
    animate_depth_transition.py, lines 58-61) from the draw [r]:
    [x + step / 2 + (r - 0.5) * 2 * step * jitter]. *)
Definition jittered {R : Rounding} (x stride : Z) (jitter r : pyfloat) : pyfloat :=
  (of_int x +~ int_truediv stride 2
   +~ (r -~ lit 0.5) *~ of_int 2 *~ of_int stride *~ jitter)%F.

(** [random.uniform(0.9, 1.2)] from the draw [r] (main.py, line 100). *)
Definition size_variation_of {R : Rounding} (r : pyfloat) : pyfloat :=
  (lit 0.9 +~ (lit 1.2 -~ lit 0.9) *~ r)%F.

(** The glyph a cell places (main.py, lines 93-108;
    animate_depth_transition.py, lines 56-83): the word [wd] that was chosen,
    centred on the cell centre moved by the jitter of the draws [r1] and
    [r2], in the font of the size of the draw [r3]. *)
Definition cell_glyph {R : Rounding} {FB : FontBackend} (font_path : string)
    (font_size step : Z) (color : rgb) (jitter : pyfloat) (alpha x y : Z)
    (wd : word) (r1 r2 r3 : pyfloat) : Glyph :=
  let font := load_font font_path (resolve_font_size font_size (size_variation_of r3)) in
  let '(b0, b1, b2, b3) := getbbox font wd in
  mkGlyph wd font (b2 - b0) (b3 - b1)
          (jittered x step jitter r1, jittered y step jitter r2) alpha color.

(** [random.uniform(-25, 25)] from the draw [r] (main.py, line 113). *)
Definition rotation_angle {R : Rounding} (r : pyfloat) : pyfloat :=
  (of_int (-25) +~ of_int (25 - -25) *~ r)%F.

Section Placement.
Context {R : Rounding} `{Imaging image}.
Local Open Scope pyfloat_scope.

(** main.py, lines 114-123: the glyph drawn in the middle of a transparent
    image of twice its size. *)
Definition glyph_on_its_own (g : Glyph) : image :=
  let tw := glyph_width g in
  let th := glyph_height g in
  draw_text_mm (image_new (tw * 2) (th * 2) (0, 0, 0, 0))
    (int_truediv tw 2, int_truediv th 2) (glyph_word g) (glyph_font g)
    (glyph_color g, glyph_alpha g).

(** Lines 125-129: the rotated glyph pasted on the canvas [i], centred on
    the glyph's position; nothing is pasted when it is fully transparent. *)
Definition paste_rotated (g : Glyph) (rotated : image) (i : image) : image :=
  match image_getbbox rotated with
  | Some (c0, c1, c2, c3) =>
      let cx := int_of (fst (target_pos g) -~ int_truediv (c2 - c0) 2) in
      let cy := int_of (snd (target_pos g) -~ int_truediv (c3 - c1) 2) in
      alpha_composite i rotated (cx, cy)
  | None => i
  end.

(** The store after a cell placed its glyph [g] (lines 112-136): with
    rotation, two images are added, the glyph on its own and the glyph
    turned by [angle], and the latter is pasted on the canvas; without, the
    glyph is drawn on the canvas. *)
Definition store_after_placement (canvas : loc) (allow_rotation : bool) (g : Glyph)
    (angle : pyfloat) (sigma : list image) : list image :=
  if allow_rotation then
    let drawn := glyph_on_its_own g in
    let rotated := image_rotate drawn angle in
    alter (paste_rotated g rotated) canvas (sigma ++ [drawn; rotated])
  else alter (fun i => draw_glyph i (target_pos g) g) canvas sigma.

End Placement.

(** The blur radius of a flight frame (animate_depth_transition.py, line
    184) and of a fade frame (line 214). *)
Definition flight_blur_radius {R : Rounding} (t_norm : pyfloat) : pyfloat :=
  (lit 1.2 *~ (lit 1 -~ t_norm))%F.

Definition fade_blur_radius {R : Rounding} (alpha : pyfloat) : pyfloat :=
  fmax (lit 0.0) (lit 1.5 -~ lit 1.5 *~ alpha)%F.

(** ** What the specification states

    These follow the words of the specification, not the source; the
    theorems below compare them with the embedding. *)

(** [clamp(round(base_alpha + (1 - lum/255) * alpha_boost_dark), 0, 255)] *)
Definition claimed_alpha (lum : Q) (base_alpha alpha_boost_dark : Z) : Z :=
  Z.max 0 (Z.min 255
    (py_round (inject_Z base_alpha + (1 - lum / 255) * inject_Z alpha_boost_dark)%Q)).

(** [max(6, round(font_size * factor))] *)
Definition claimed_font_size (font_size : Z) (factor : Q) : Z :=
  Z.max 6 (py_round (inject_Z font_size * factor)%Q).

(** The pixels of the cell [(x, y, step)] that lie inside the image, row by
    row, and their arithmetic mean. *)
Definition clipped_cell (img : GrayImage) (x y step : Z) : list (Z * Z) :=
  let x1 := Z.max 0 x in
  let y1 := Z.max 0 y in
  let x2 := Z.min (x + step) (gray_width img) in
  let y2 := Z.min (y + step) (gray_height img) in
  flat_map (fun j => map (fun i => (i, j)) (seqZ x1 (x2 - x1))) (seqZ y1 (y2 - y1)).

Definition cell_mean (img : GrayImage) (cell : list (Z * Z)) : Q :=
  (inject_Z (zsum (map (fun p => getpixel img (fst p) (snd p)) cell))
   / inject_Z (Z.of_nat (length cell)))%Q.

(** The grid cells of a [w] x [h] image in scan order (rows top to bottom,
    each row left to right), by their top-left corners. *)
Definition grid_cells (w h step : Z) : list (Z * Z) :=
  flat_map (fun y => map (fun x => (x, y)) (range_list w step)) (range_list h step).

(** The cells, by their densities in the order of the scan, are tested one
    after the other: cell number [i] against output [k + i] of the
    generator, thinned out when the output exceeds its density.  The result
    is the number of the first cell that survives the thinning, [None] when
    every cell is thinned out. *)
Fixpoint first_survivor (draws : nat -> pyfloat) (k : nat) (densities : list pyfloat)
  : option nat :=
  match densities with
  | [] => None
  | d :: ds =>
      if fgt (draws k) d then option_map S (first_survivor draws (S k) ds)
      else Some 0%nat
  end.

(** The densities of the grid cells of a layer pass, in the order of the
    scan. *)
Definition scan_densities {R : Rounding} (img_gray : GrayImage)
    (step base_alpha alpha_boost_dark : Z) (density_scale : pyfloat) : list pyfloat :=
  map (fun c => snd (cell_mapping img_gray step base_alpha alpha_boost_dark
                       density_scale (fst c) (snd c)))
      (grid_cells (gray_width img_gray) (gray_height img_gray) step).

(** A computation that cannot fail and does nothing but consume outputs of
    the generator. *)
Definition generator_only {image A} (c : M image A) : Prop :=
  forall w, exists a n, c w = Ok (a, advance_by n w).

(** Scan order of cell corners: an earlier row, or the same row and further
    left. *)
Definition scan_before (c1 c2 : Z * Z) : Prop :=
  snd c1 < snd c2 \/ (snd c1 = snd c2 /\ fst c1 < fst c2).

(** What every glyph description made by [generate_layer_targets] for
    [layer] satisfies. *)
Definition well_formed_glyph {FB : FontBackend} (font_path : string) (layer : Layer)
    (words : list word) (g : Glyph) : Prop :=
  In (glyph_word g) words /\
  font_file (glyph_font g) = font_path /\
  6 <= font_px (glyph_font g) /\
  0 <= glyph_alpha g <= 255 /\
  glyph_color g = color layer /\
  (let '(b0, b1, b2, b3) := getbbox (glyph_font g) (glyph_word g) in
   glyph_width g = b2 - b0 /\ glyph_height g = b3 - b1).

Section Accumulation.
Context {R : Rounding} `{Imaging image}.

(** The settled canvas through the layers: layer [k] flies over the canvas
    that holds the committed glyphs of the layers before it. *)
Fixpoint layer_runs (settled : image) (plans : list (list Flying))
  : list (image * list Flying) :=
  match plans with
  | [] => []
  | targets :: plans' =>
      (settled, targets) :: layer_runs (committed_image settled targets) plans'
  end.

End Accumulation.

(** * Properties *)

(** ** Truncation and rounding *)

Lemma Qle_bool_false (x y : Q) : Qle_bool x y = false -> (y < x)%Q.
Proof.
  intros E. apply Qnot_le_lt. intros L.
  apply Qle_bool_iff in L. congruence.
Qed.

Lemma fgt_true (x y : Q) : fgt x y = true <-> (y < x)%Q.
Proof.
  unfold fgt. split.
  - intros E. apply negb_true_iff in E. now apply Qle_bool_false.
  - intros L. apply negb_true_iff. destruct (Qle_bool x y) eqn:E; [|reflexivity].
    apply Qle_bool_iff in E. exfalso. apply (Qlt_irrefl y). eapply Qlt_le_trans; eauto.
Qed.

Lemma fgt_false (x y : Q) : fgt x y = false <-> (x <= y)%Q.
Proof.
  unfold fgt. rewrite negb_false_iff. apply Qle_bool_iff.
Qed.

Lemma int_of_nonneg (x : Q) : (0 <= x)%Q -> int_of x = Qfloor x.
Proof.
  intros L. unfold int_of. apply Qle_bool_iff in L. now rewrite L.
Qed.

Lemma int_of_neg (x : Q) : (x < 0)%Q -> int_of x = Qceiling x.
Proof.
  intros L. unfold int_of. destruct (Qle_bool 0 x) eqn:E; [|reflexivity].
  apply Qle_bool_iff in E. exfalso. apply (Qlt_irrefl x). eapply Qlt_le_trans; eauto.
Qed.

Lemma Qfloor_nonneg (x : Q) : (0 <= x)%Q -> 0 <= Qfloor x.
Proof.
  intros L. change 0 with (Qfloor (inject_Z 0)). now apply Qfloor_resp_le.
Qed.

Lemma Qceiling_nonpos (x : Q) : (x <= 0)%Q -> Qceiling x <= 0.
Proof.
  intros L. change 0 with (Qceiling (inject_Z 0)). now apply Qceiling_resp_le.
Qed.

(** [int] is monotone. *)
Lemma int_of_mono (x y : Q) : (x <= y)%Q -> int_of x <= int_of y.
Proof.
  intros L. unfold int_of.
  destruct (Qle_bool 0 x) eqn:Ex; destruct (Qle_bool 0 y) eqn:Ey.
  - now apply Qfloor_resp_le.
  - apply Qle_bool_iff in Ex. apply Qle_bool_false in Ey.
    exfalso. apply (Qlt_irrefl y). eapply Qlt_le_trans; [exact Ey|].
    eapply Qle_trans; eauto.
  - apply Qle_bool_false in Ex. apply Qle_bool_iff in Ey.
    transitivity 0; [apply Qceiling_nonpos, Qlt_le_weak, Ex | now apply Qfloor_nonneg].
  - now apply Qceiling_resp_le.
Qed.

(** On a non-negative number [int] is the integer part: nothing is rounded up. *)
Lemma int_of_integer_part (x : Q) :
  (0 <= x)%Q -> (inject_Z (int_of x) <= x < inject_Z (int_of x) + 1)%Q.
Proof.
  intros L. rewrite (int_of_nonneg x L). split.
  - apply Qfloor_le.
  - pose proof (Qlt_floor x) as F. rewrite inject_Z_plus in F. exact F.
Qed.

Lemma clamp_range (a : Z) : 0 <= Z.max 0 (Z.min 255 a) <= 255.
Proof. lia. Qed.

Lemma clamp_mono (a b : Z) : a <= b -> Z.max 0 (Z.min 255 a) <= Z.max 0 (Z.min 255 b).
Proof. lia. Qed.

Section RoundingFacts.
Context {R : Rounding}.
Local Open Scope pyfloat_scope.

Lemma rnd_nonneg (x : Q) : (0 <= x)%Q -> (0 <= rnd x)%Q.
Proof.
  intros L. rewrite <- (rnd_int 0) by (simpl; lia). now apply rnd_mono.
Qed.

Lemma of_int_nonneg (z : Z) : 0 <= z -> (0 <= of_int z)%Q.
Proof.
  intros L. apply rnd_nonneg. change 0%Q with (inject_Z 0). now rewrite <- Zle_Qle.
Qed.

Lemma of_int_exact (z : Z) : Z.abs z <= 2 ^ 53 -> (of_int z == inject_Z z)%Q.
Proof. apply rnd_int. Qed.

Lemma lit_int (z : Z) : Z.abs z <= 2 ^ 53 -> (lit (inject_Z z) == inject_Z z)%Q.
Proof. apply rnd_int. Qed.

Lemma fadd_mono (a b c d : Q) : (a <= b)%Q -> (c <= d)%Q -> (a +~ c <= b +~ d)%Q.
Proof. intros. apply rnd_mono. lra. Qed.

Lemma fsub_mono (a b c d : Q) : (a <= b)%Q -> (d <= c)%Q -> (a -~ c <= b -~ d)%Q.
Proof. intros. apply rnd_mono. lra. Qed.

Lemma fmul_mono_l (a b c : Q) : (0 <= c)%Q -> (a <= b)%Q -> (a *~ c <= b *~ c)%Q.
Proof. intros. apply rnd_mono. now apply Qmult_le_compat_r. Qed.

Lemma fdiv_mono_l (a b c : Q) : (0 < c)%Q -> (a <= b)%Q -> (a /~ c <= b /~ c)%Q.
Proof.
  intros Hc L. apply rnd_mono. unfold Qdiv.
  apply Qmult_le_compat_r; [exact L|]. apply Qlt_le_weak, Qinv_lt_0_compat, Hc.
Qed.

Lemma lit_255_pos : (0 < lit 255)%Q.
Proof.
  change 255%Q with (inject_Z 255). rewrite lit_int by (simpl; lia). reflexivity.
Qed.

(** The brightness term [1.0 - lum / 255.0] falls as the luminance rises. *)
Lemma darkness_antitone (l1 l2 : Q) :
  (l1 <= l2)%Q -> (lit 1 -~ l2 /~ lit 255 <= lit 1 -~ l1 /~ lit 255)%Q.
Proof.
  intros L. apply fsub_mono; [apply Qle_refl|].
  apply fdiv_mono_l; [apply lit_255_pos | exact L].
Qed.

End RoundingFacts.

(** ** The luminance mapping (main.py, lines 34-52) *)

Section MappingFacts.
Context {R : Rounding}.
Local Open Scope pyfloat_scope.

(** C1, as the code has it: the alpha is the float expression
    [base_alpha + (1 - lum/255) * alpha_boost_dark] truncated toward zero by
    [int], then clamped to [0, 255].  When the expression lies in [0, 256)
    the alpha is its integer part: the fraction is dropped, never rounded
    up to the nearest integer. *)
Theorem alpha_is_truncated_then_clamped
    (lum : pyfloat) (base_alpha alpha_boost_dark : Z) (density_scale : pyfloat) :
  let v := of_int base_alpha +~ (lit 1 -~ lum /~ lit 255) *~ of_int alpha_boost_dark in
  let alpha :=
    fst (luminance_to_alpha_and_density lum base_alpha alpha_boost_dark density_scale) in
  alpha = Z.max 0 (Z.min 255 (int_of v)) /\
  0 <= alpha <= 255 /\
  ((0 <= v)%Q -> (v < 256)%Q -> (inject_Z alpha <= v < inject_Z alpha + 1)%Q).
Proof.
  cbv zeta. unfold luminance_to_alpha_and_density. simpl fst.
  split; [reflexivity|]. split; [apply clamp_range|].
  intros L U.
  pose proof (int_of_integer_part _ L) as [Lo Hi].
  assert (0 <= int_of
            (of_int base_alpha +~ (lit 1 -~ lum /~ lit 255) *~ of_int alpha_boost_dark))
    as N by (rewrite (int_of_nonneg _ L); now apply Qfloor_nonneg).
  assert (int_of
            (of_int base_alpha +~ (lit 1 -~ lum /~ lit 255) *~ of_int alpha_boost_dark)
          <= 255) as B.
  { apply Z.lt_succ_r. rewrite Zlt_Qlt. eapply Qle_lt_trans; [exact Lo|exact U]. }
  rewrite Z.min_r by exact B. rewrite Z.max_r by exact N. split; assumption.
Qed.

(** C5: for non-negative [alpha_boost_dark] and [density_scale], a darker
    cell is at least as opaque and at least as dense. *)
Theorem darker_is_more_opaque_and_denser
    (l1 l2 : pyfloat) (base_alpha alpha_boost_dark : Z) (density_scale : pyfloat) :
  0 <= alpha_boost_dark -> (0 <= density_scale)%Q -> (l1 <= l2)%Q ->
  fst (luminance_to_alpha_and_density l2 base_alpha alpha_boost_dark density_scale)
    <= fst (luminance_to_alpha_and_density l1 base_alpha alpha_boost_dark density_scale)
  /\ (snd (luminance_to_alpha_and_density l2 base_alpha alpha_boost_dark density_scale)
      <= snd (luminance_to_alpha_and_density l1 base_alpha alpha_boost_dark density_scale))%Q.
Proof.
  intros Hb Hd L. unfold luminance_to_alpha_and_density. simpl fst. simpl snd.
  pose proof (darkness_antitone l1 l2 L) as D.
  split.
  - apply clamp_mono, int_of_mono, fadd_mono; [apply Qle_refl|].
    apply fmul_mono_l; [now apply of_int_nonneg | exact D].
  - apply fmul_mono_l; assumption.
Qed.

(** C7, as the code has it: the resolved size is the float product
    [font_size * size_variation] truncated by [int] and floored at 6: it is 6
    when the product is below 6, and the integer part of the product
    otherwise. *)
Theorem font_size_is_truncated_then_floored (font_size : Z) (size_variation : pyfloat) :
  let p := of_int font_size *~ size_variation in
  let fsize := resolve_font_size font_size size_variation in
  fsize = Z.max 6 (int_of p) /\
  6 <= fsize /\
  ((p < 6)%Q -> fsize = 6) /\
  ((6 <= p)%Q -> (inject_Z fsize <= p < inject_Z fsize + 1)%Q).
Proof.
  cbv zeta. unfold resolve_font_size.
  set (p := of_int font_size *~ size_variation).
  split; [reflexivity|]. split; [lia|]. split.
  - intros U. apply Z.max_l.
    assert (int_of p <= int_of 6%Q) as M by (apply int_of_mono, Qlt_le_weak, U).
    exact M.
  - intros L.
    assert (0 <= p)%Q as N by (eapply Qle_trans; [|exact L]; discriminate).
    pose proof (int_of_integer_part p N) as I.
    assert (int_of 6%Q <= int_of p) as M by (apply int_of_mono, L).
    change (int_of 6%Q) with 6 in M. rewrite Z.max_r by exact M. exact I.
Qed.

End MappingFacts.

(** C5 at a black and a white cell of the first layer of [build_word_image]. *)
Lemma darker_is_more_opaque_and_denser_witness :
  fst (luminance_to_alpha_and_density (R := exact_rounding) 255 10 180 0.7)
    <= fst (luminance_to_alpha_and_density (R := exact_rounding) 0 10 180 0.7)
  /\ (snd (luminance_to_alpha_and_density (R := exact_rounding) 255 10 180 0.7)
      <= snd (luminance_to_alpha_and_density (R := exact_rounding) 0 10 180 0.7))%Q.
Proof.
  apply (darker_is_more_opaque_and_denser (R := exact_rounding) 0 255 10 180 0.7).
  - lia.
  - apply Qle_bool_iff. reflexivity.
  - apply Qle_bool_iff. reflexivity.
Defined.

(** C1 fails as stated: at luminance 2 with [base_alpha = 10] and
    [alpha_boost_dark = 180] the expression is 188.588...; the code returns
    188 (also on binary64), rounding to nearest gives 189. *)
Lemma alpha_is_not_rounded_to_nearest :
  (0 <= 2 <= 255)%Q /\
  fst (luminance_to_alpha_and_density (R := exact_rounding) 2 10 180 0.7) = 188 /\
  fst (Binary64.luminance_to_alpha_and_density 2 10 180 0.7) = Some 188 /\
  claimed_alpha 2 10 180 = 189 /\
  fst (luminance_to_alpha_and_density (R := exact_rounding) 2 10 180 0.7)
    <> claimed_alpha 2 10 180.
Proof.
  repeat split; try discriminate; vm_compute; congruence.
Qed.

(** C7 fails as stated: with [font_size = 30] and the factor 1.125 (the draw
    0.75 of [random.uniform(0.9, 1.2)]) the product is 33.75; the code
    resolves 33 (also on binary64), rounding to nearest gives 34. *)
Lemma font_size_is_not_rounded_to_nearest :
  (0.9 <= 0.9 + (1.2 - 0.9) * 0.75 <= 1.2)%Q /\
  resolve_font_size (R := exact_rounding) 30 (0.9 + (1.2 - 0.9) * 0.75) = 33 /\
  Binary64.resolve_font_size 30 (Binary64.random_uniform 0.9 1.2 0.75) = Some 33 /\
  claimed_font_size 30 (0.9 + (1.2 - 0.9) * 0.75) = 34 /\
  resolve_font_size (R := exact_rounding) 30 (0.9 + (1.2 - 0.9) * 0.75)
    <> claimed_font_size 30 (0.9 + (1.2 - 0.9) * 0.75).
Proof.
  repeat split; try discriminate; vm_compute; congruence.
Qed.

(** ** The luminance sampler (main.py, lines 13-26) *)

Lemma flat_map_ext_In {A B} (f g : A -> list B) (l : list A) :
  (forall a, In a l -> f a = g a) -> flat_map f l = flat_map g l.
Proof.
  induction l as [|a l IH]; intros E; [reflexivity|].
  simpl. rewrite (E a) by now left. f_equal. apply IH. intros b Hb. apply E. now right.
Qed.

Lemma map_of_flat_map {A B C} (h : B -> C) (f : A -> list B) (l : list A) :
  map h (flat_map f l) = flat_map (fun a => map h (f a)) l.
Proof.
  induction l as [|a l IH]; [reflexivity|]. simpl. now rewrite map_app, IH.
Qed.

Lemma In_seqZ (m n i : Z) : In i (seqZ m n) <-> m <= i < m + n.
Proof. rewrite <- list_elem_of_In. apply elem_of_seqZ. Qed.

(** A box inside the image is read as it is: no pixel is padded. *)
Lemma crop_getdata_inside (img : GrayImage) (x y x2 y2 : Z) :
  0 <= x -> 0 <= y -> x2 <= gray_width img -> y2 <= gray_height img ->
  crop_getdata img x y x2 y2 =
  map (fun p => getpixel img (fst p) (snd p))
      (flat_map (fun j => map (fun i => (i, j)) (seqZ x (x2 - x))) (seqZ y (y2 - y))).
Proof.
  intros Hx Hy Hw Hh. unfold crop_getdata. rewrite map_of_flat_map.
  apply flat_map_ext_In. intros j Hj. apply In_seqZ in Hj.
  rewrite map_map. apply map_ext_in. intros i Hi. apply In_seqZ in Hi. simpl.
  replace (0 <=? i) with true by (symmetry; apply Z.leb_le; lia).
  replace (i <? gray_width img) with true by (symmetry; apply Z.ltb_lt; lia).
  replace (0 <=? j) with true by (symmetry; apply Z.leb_le; lia).
  replace (j <? gray_height img) with true by (symmetry; apply Z.ltb_lt; lia).
  reflexivity.
Qed.

Lemma zsum_constant {A} (f : A -> Z) (v : Z) (l : list A) :
  (forall a, In a l -> f a = v) -> zsum (map f l) = v * Z.of_nat (length l).
Proof.
  induction l as [|a l IH]; intros E; [simpl; lia|].
  cbn [map zsum fold_right length]. fold (zsum (map f l)).
  rewrite IH by (intros b Hb; apply E; now right).
  rewrite (E a) by now left. lia.
Qed.

Section SamplerFacts.
Context {R : Rounding}.

(** C4, as the code has it: on a cell whose corner is a grid position of the
    image ([0 <= x <= width], [0 <= y <= height], [step >= 0]) the sampler
    returns 255 when no pixel of the cell lies inside the image, and
    otherwise the arithmetic mean of the pixels of the clipped cell (as a
    float: the quotient of the integer sum by the count, rounded once); on
    pixels that all equal [v] it returns exactly [v].  The box is clamped at
    the right and the bottom edge only, so this does not extend to the cells
    with a negative corner. *)
Theorem sample_region_luminance_is_clipped_mean
    (img : GrayImage) (x y step : Z) :
  0 <= x <= gray_width img -> 0 <= y <= gray_height img -> 0 <= step ->
  let cell := clipped_cell img x y step in
  (cell = [] -> (sample_region_luminance img x y step == 255)%Q) /\
  (cell <> [] -> (sample_region_luminance img x y step == rnd (cell_mean img cell))%Q) /\
  (forall v, 0 <= v <= 255 -> cell <> [] ->
     (forall i j, In (i, j) cell -> getpixel img i j = v) ->
     (sample_region_luminance img x y step == inject_Z v)%Q).
Proof.
  intros Hx Hy Hs cell.
  assert (sample_region_luminance img x y step =
          match cell with
          | [] => lit 255
          | _ => int_truediv (zsum (map (fun p => getpixel img (fst p) (snd p)) cell))
                             (Z.of_nat (length cell))
          end) as E.
  { unfold sample_region_luminance.
    rewrite crop_getdata_inside by lia.
    subst cell. unfold clipped_cell.
    rewrite (Z.max_r 0 x), (Z.max_r 0 y) by lia.
    destruct (flat_map _ _) as [|c cs]; [reflexivity|].
    cbn [map length]. now rewrite length_map. }
  rewrite E. clear E. split; [|split].
  - intros ->. change 255%Q with (inject_Z 255). apply lit_int. simpl. lia.
  - intros N. destruct cell as [|c cs]; [congruence|]. reflexivity.
  - intros v Hv N U. destruct cell as [|c cs] eqn:Ec; [congruence|].
    rewrite (zsum_constant _ v) by (intros [i j] Hin; now apply U).
    unfold int_truediv.
    rewrite <- (rnd_int v) by lia. apply rnd_proper.
    rewrite inject_Z_mult. field.
    change 0%Q with (inject_Z 0). rewrite inject_Z_injective. cbn [length]. lia.
Qed.

End SamplerFacts.

(** C4 on the lower right cell of a 3x3 image of value 7 sampled with step
    2: the cell is clipped to one pixel. *)
Lemma sample_region_luminance_is_clipped_mean_witness :
  let img := uniform_gray 3 3 7 in
  let cell := clipped_cell img 2 2 2 in
  (cell = [] -> (sample_region_luminance (R := exact_rounding) img 2 2 2 == 255)%Q) /\
  (cell <> [] ->
   (sample_region_luminance (R := exact_rounding) img 2 2 2 == cell_mean img cell)%Q) /\
  (forall v, 0 <= v <= 255 -> cell <> [] ->
     (forall i j, In (i, j) cell -> getpixel img i j = v) ->
     (sample_region_luminance (R := exact_rounding) img 2 2 2 == inject_Z v)%Q).
Proof.
  apply (sample_region_luminance_is_clipped_mean (R := exact_rounding)
           (uniform_gray 3 3 7) 2 2 2); simpl; lia.
Defined.

(** C4 fails as stated for a cell with a negative corner: the box is not
    clamped at the left and the top edge, and the pixels of the box that lie
    outside the image are read as 0.  On a 3x3 image of value 200, the cell
    [(-5, -5, 2)] lies outside the image, its clipped region is empty, and
    the sampler returns 0, not 255; the cell [(-1, 2, 5)] has the three
    pixels of the last row in the image, of mean 200, and the sampler
    returns 600 / 4 = 150.  Both also on binary64 numbers. *)
Lemma sample_region_luminance_reads_zero_outside :
  let img := uniform_gray 3 3 200 in
  ((clipped_cell img (-5) (-5) 2 = []) /\
   (sample_region_luminance (R := exact_rounding) img (-5) (-5) 2 == 0)%Q /\
   (Binary64.sample_region_luminance img (-5) (-5) 2 = 0%float) /\
   (~ (sample_region_luminance (R := exact_rounding) img (-5) (-5) 2 == 255)%Q)) /\
  ((clipped_cell img (-1) 2 5 = [(0, 2); (1, 2); (2, 2)]) /\
   (cell_mean img (clipped_cell img (-1) 2 5) == 200)%Q /\
   (sample_region_luminance (R := exact_rounding) img (-1) 2 5 == 150)%Q /\
   (Binary64.sample_region_luminance img (-1) 2 5 = 150%float) /\
   (~ (sample_region_luminance (R := exact_rounding) img (-1) 2 5
       == cell_mean img (clipped_cell img (-1) 2 5))%Q)).
Proof.
  cbv zeta. repeat split; try reflexivity; vm_compute; discriminate.
Qed.

(** ** The monad, the loops and the generator *)

Section MonadFacts.
Context {image : Type}.

Lemma advance_by_0 (w : World image) : advance_by 0 w = w.
Proof. destruct w. unfold advance_by. simpl. now rewrite Nat.add_0_r. Qed.

Lemma advance_by_S (n : nat) (w : World image) :
  advance_by n (advance w) = advance_by (S n) w.
Proof. unfold advance_by, advance. simpl. f_equal. lia. Qed.

Lemma advance_by_1 (w : World image) : advance w = advance_by 1 w.
Proof. unfold advance_by, advance. f_equal. lia. Qed.

Lemma advance_by_add (n m : nat) (w : World image) :
  advance_by n (advance_by m w) = advance_by (m + n) w.
Proof. unfold advance_by. simpl. f_equal. lia. Qed.

Lemma bind_ok {A B} (c : M image A) (k : A -> M image B) (w w' : World image) (a : A) :
  c w = Ok (a, w') -> bind c k w = k a w'.
Proof. intros E. unfold bind. now rewrite E. Qed.

Lemma for_each_app {A} (l1 l2 : list A) (body : A -> M image unit) (w : World image) :
  for_each (l1 ++ l2) body w = bind (for_each l1 body) (fun _ => for_each l2 body) w.
Proof.
  revert w. induction l1 as [|a l1 IH]; intros w; [reflexivity|].
  simpl. unfold bind. destruct (body a w) as [[[] w']|e we]; [|reflexivity].
  rewrite IH. reflexivity.
Qed.

Lemma for_each_map {A B} (g : A -> B) (l : list A) (body : B -> M image unit)
    (w : World image) :
  for_each (map g l) body w = for_each l (fun a => body (g a)) w.
Proof.
  revert w. induction l as [|a l IH]; intros w; [reflexivity|].
  simpl. unfold bind. destruct (body (g a) w) as [[[] w']|e we]; [apply IH|reflexivity].
Qed.

Lemma for_each_flat_map {A B} (f : A -> list B) (l : list A) (body : B -> M image unit)
    (w : World image) :
  for_each (flat_map f l) body w = for_each l (fun a => for_each (f a) body) w.
Proof.
  revert w. induction l as [|a l IH]; intros w; [reflexivity|].
  simpl. rewrite for_each_app. unfold bind.
  destruct (for_each (f a) body w) as [[[] w']|e we]; [apply IH|reflexivity].
Qed.

Lemma for_each_ext {A} (l : list A) (body1 body2 : A -> M image unit) (w : World image) :
  (forall a w', body1 a w' = body2 a w') -> for_each l body1 w = for_each l body2 w.
Proof.
  intros E. revert w. induction l as [|a l IH]; intros w; [reflexivity|].
  simpl. unfold bind. rewrite E. destruct (body2 a w) as [[[] w']|e we]; [apply IH|reflexivity].
Qed.

Lemma for_fold_app {A B} (l1 l2 : list A) (acc : B) (body : B -> A -> M image B)
    (w : World image) :
  for_fold (l1 ++ l2) acc body w
  = bind (for_fold l1 acc body) (fun acc' => for_fold l2 acc' body) w.
Proof.
  revert acc w. induction l1 as [|a l1 IH]; intros acc w; [reflexivity|].
  simpl. unfold bind. destruct (body acc a w) as [[acc' w']|e we]; [|reflexivity].
  rewrite IH. reflexivity.
Qed.

Lemma for_fold_map {A B C} (g : A -> C) (l : list A) (acc : B)
    (body : B -> C -> M image B) (w : World image) :
  for_fold (map g l) acc body w = for_fold l acc (fun b a => body b (g a)) w.
Proof.
  revert acc w. induction l as [|a l IH]; intros acc w; [reflexivity|].
  simpl. unfold bind. destruct (body acc (g a) w) as [[acc' w']|e we]; [apply IH|reflexivity].
Qed.

Lemma for_fold_flat_map {A B C} (f : A -> list C) (l : list A) (acc : B)
    (body : B -> C -> M image B) (w : World image) :
  for_fold (flat_map f l) acc body w
  = for_fold l acc (fun b a => for_fold (f a) b body) w.
Proof.
  revert acc w. induction l as [|a l IH]; intros acc w; [reflexivity|].
  simpl. rewrite for_fold_app. unfold bind.
  destruct (for_fold (f a) acc body w) as [[acc' w']|e we]; [apply IH|reflexivity].
Qed.

Lemma for_fold_ext {A B} (l : list A) (acc : B) (body1 body2 : B -> A -> M image B)
    (w : World image) :
  (forall b a w', body1 b a w' = body2 b a w') ->
  for_fold l acc body1 w = for_fold l acc body2 w.
Proof.
  intros E. revert acc w. induction l as [|a l IH]; intros acc w; [reflexivity|].
  simpl. unfold bind. rewrite E.
  destruct (body2 acc a w) as [[acc' w']|e we]; [apply IH|reflexivity].
Qed.

(** [random.choice] fails on the empty list only. *)
Lemma random_choice_empty {A} (w : World image) :
  random_choice (A := A) [] w = Raise IndexError w.
Proof. reflexivity. Qed.

Lemma random_choice_nonempty {A} (seq : list A) (w : World image) :
  seq <> [] -> exists a, random_choice seq w = Ok (a, advance w) /\ In a seq.
Proof.
  intros N. destruct seq as [|a0 seq]; [congruence|].
  unfold random_choice.
  assert (picks w (cursor w) mod length (a0 :: seq) < length (a0 :: seq))%nat as B
    by (apply Nat.mod_upper_bound; simpl; lia).
  destruct (lookup_lt_is_Some_2 _ _ B) as [a Ea].
  exists a. rewrite Ea. split; [reflexivity|].
  apply list_elem_of_In. eapply list_elem_of_lookup_2. exact Ea.
Qed.

End MonadFacts.

(** ** The planner (animate_depth_transition.py, lines 20-85) *)

Section PlannerFacts.
Context {R : Rounding} {FB : FontBackend} {image : Type}.
Local Open Scope pyfloat_scope.

Variables (img_gray : GrayImage) (font_path : string) (layer : Layer)
  (words : list word) (density_multiplier : pyfloat).

(** The alpha and the density the planner computes for the cell at [(x, y)]. *)
Abbreviation planner_mapping x y :=
  (cell_mapping img_gray (step layer) (base_alpha layer) (alpha_boost_dark layer)
     (density_scale layer *~ density_multiplier) x y).

(** A thinned cell leaves the list as it is and consumes one output. *)
Lemma generate_layer_targets_cell_skipped (targets : list Glyph) (x y : Z)
    (w : World image) :
  fgt (draws w (cursor w)) (snd (planner_mapping x y)) = true ->
  generate_layer_targets_cell img_gray font_path layer words density_multiplier
    targets x y w = Ok (targets, advance w).
Proof.
  unfold cell_mapping, generate_layer_targets_cell. intros T.
  destruct (luminance_to_alpha_and_density _ _ _ _) as [alpha density].
  simpl in T. unfold bind, random_random. rewrite T. reflexivity.
Qed.

(** A cell that survives with an empty vocabulary raises [IndexError], its
    draw consumed. *)
Lemma generate_layer_targets_cell_empty (targets : list Glyph) (x y : Z)
    (w : World image) :
  words = [] ->
  fgt (draws w (cursor w)) (snd (planner_mapping x y)) = false ->
  generate_layer_targets_cell img_gray font_path layer words density_multiplier
    targets x y w = Raise IndexError (advance w).
Proof.
  unfold cell_mapping, generate_layer_targets_cell. intros -> T.
  destruct (luminance_to_alpha_and_density _ _ _ _) as [alpha density].
  simpl in T. unfold bind, random_random. rewrite T. reflexivity.
Qed.

(** A cell that survives with a vocabulary appends one glyph, made from the
    next four outputs. *)
Lemma generate_layer_targets_cell_placed (targets : list Glyph) (x y : Z)
    (w : World image) :
  words <> [] ->
  fgt (draws w (cursor w)) (snd (planner_mapping x y)) = false ->
  exists g,
    generate_layer_targets_cell img_gray font_path layer words density_multiplier
      targets x y w = Ok (targets ++ [g], advance_by 5 w) /\
    In (glyph_word g) words /\
    target_pos g =
      (of_int x +~ int_truediv (step layer) 2
         +~ (draws w (cursor w + 2)%nat -~ lit 0.5) *~ of_int 2 *~ of_int (step layer) *~ lit 0.4,
       of_int y +~ int_truediv (step layer) 2
         +~ (draws w (cursor w + 3)%nat -~ lit 0.5) *~ of_int 2 *~ of_int (step layer) *~ lit 0.4) /\
    font_px (glyph_font g) =
      resolve_font_size (font_size layer)
        (lit 0.9 +~ (lit 1.2 -~ lit 0.9) *~ draws w (cursor w + 4)%nat) /\
    glyph_alpha g = fst (planner_mapping x y) /\
    glyph_color g = color layer.
Proof.
  unfold cell_mapping, generate_layer_targets_cell. intros N T.
  destruct (luminance_to_alpha_and_density _ _ _ _) as [alpha density].
  simpl in T. unfold bind at 1. unfold random_random at 1. rewrite T.
  unfold choose_word. unfold bind at 1.
  destruct (random_choice_nonempty words (advance w) N) as (wd & Ew & Hin).
  rewrite Ew.
  unfold bind, random_random, random_uniform, bind, random_random, ret. simpl.
  replace (cursor w + 2)%nat with (S (S (cursor w))) by lia.
  replace (cursor w + 3)%nat with (S (S (S (cursor w)))) by lia.
  replace (cursor w + 4)%nat with (S (S (S (S (cursor w))))) by lia.
  set (fsize := resolve_font_size (font_size layer) _).
  set (font := if fsize =? font_size layer then _ else _).
  destruct (getbbox font wd) as [[[b0 b1] b2] b3] eqn:Eb.
  eexists. split; [|split; [|split; [|split; [|split]]]].
  - unfold advance_by, advance. simpl. repeat f_equal. lia.
  - exact Hin.
  - reflexivity.
  - simpl. subst font. destruct (fsize =? font_size layer) eqn:Ef.
    + apply Z.eqb_eq in Ef. simpl. now symmetry.
    + reflexivity.
  - reflexivity.
  - reflexivity.
Qed.

End PlannerFacts.

(** ** draw_layer (main.py, lines 55-136) *)

Section DrawLayerFacts.
Context {R : Rounding} {FB : FontBackend} `{Imaging image}.
Local Open Scope pyfloat_scope.

Variables (canvas : loc) (img_gray : GrayImage) (font_path : string)
  (font_size : Z) (words : list word) (step base_alpha alpha_boost_dark : Z)
  (density_scale : pyfloat) (color : rgb) (random_jitter : pyfloat)
  (allow_rotation : bool).

Abbreviation layer_mapping x y :=
  (cell_mapping img_gray step base_alpha alpha_boost_dark density_scale x y).

Lemma draw_layer_cell_skipped (x y : Z) (w : World image) :
  fgt (draws w (cursor w)) (snd (layer_mapping x y)) = true ->
  draw_layer_cell canvas img_gray font_path font_size words step base_alpha
    alpha_boost_dark density_scale color random_jitter allow_rotation x y w
  = Ok (tt, advance w).
Proof.
  unfold cell_mapping, draw_layer_cell. intros T.
  destruct (luminance_to_alpha_and_density _ _ _ _) as [alpha density].
  simpl in T. unfold bind, random_random. rewrite T. reflexivity.
Qed.

Lemma draw_layer_cell_survives (x y : Z) (w : World image) :
  fgt (draws w (cursor w)) (snd (layer_mapping x y)) = false ->
  draw_layer_cell canvas img_gray font_path font_size words step base_alpha
    alpha_boost_dark density_scale color random_jitter allow_rotation x y w
  = draw_layer_place canvas font_path font_size words step color random_jitter
      allow_rotation (fst (layer_mapping x y)) x y (advance w).
Proof.
  unfold cell_mapping, draw_layer_cell. intros T.
  destruct (luminance_to_alpha_and_density _ _ _ _) as [alpha density].
  simpl in T. unfold bind at 1. unfold random_random at 1. rewrite T. reflexivity.
Qed.

Lemma draw_layer_place_empty (alpha x y : Z) (w : World image) :
  words = [] ->
  draw_layer_place canvas font_path font_size words step color random_jitter
    allow_rotation alpha x y w = Raise IndexError w.
Proof. intros ->. reflexivity. Qed.

End DrawLayerFacts.

(** A draw of [0, 1) never exceeds a density of 1 or more. *)
Lemma unit_draw_never_exceeds (r density : Q) :
  (r < 1)%Q -> (1 <= density)%Q -> fgt r density = false.
Proof.
  intros Hr Hd. apply fgt_false. apply Qlt_le_weak. eapply Qlt_le_trans; eauto.
Qed.

Section ThinningFacts.
Context {R : Rounding} {FB : FontBackend} `{Imaging image}.
Local Open Scope pyfloat_scope.

Lemma draw_layer_as_scan (canvas : loc) (img_gray : GrayImage) (font_path : string)
    (font_size : Z) (words : list word) (step base_alpha alpha_boost_dark : Z)
    (density_scale : pyfloat) (color : rgb) (random_jitter : pyfloat)
    (allow_rotation : bool) (w : World image) :
  step <> 0 ->
  draw_layer canvas img_gray font_path font_size words step base_alpha
    alpha_boost_dark density_scale color random_jitter allow_rotation w
  = for_each (grid_cells (gray_width img_gray) (gray_height img_gray) step)
      (fun c => draw_layer_cell canvas img_gray font_path font_size words step
                  base_alpha alpha_boost_dark density_scale color random_jitter
                  allow_rotation (fst c) (snd c)) w.
Proof.
  intros N. unfold draw_layer, py_range, grid_cells.
  apply Z.eqb_neq in N. rewrite N. unfold bind at 1. unfold ret at 1.
  rewrite for_each_flat_map. apply for_each_ext. intros y w'.
  unfold bind, ret. now rewrite for_each_map.
Qed.

Lemma generate_layer_targets_as_scan (img_gray : GrayImage) (font_path : string)
    (layer : Layer) (words : list word) (dm : pyfloat) (w : World image) :
  step layer <> 0 ->
  generate_layer_targets img_gray font_path layer words dm w
  = for_fold (grid_cells (gray_width img_gray) (gray_height img_gray) (step layer)) []
      (fun targets c =>
         generate_layer_targets_cell img_gray font_path layer words dm targets
           (fst c) (snd c)) w.
Proof.
  intros N. unfold generate_layer_targets, py_range, grid_cells.
  apply Z.eqb_neq in N. rewrite N. unfold bind at 1. unfold ret at 1.
  rewrite for_fold_flat_map. apply for_fold_ext. intros targets y w'.
  unfold bind, ret. now rewrite for_fold_map.
Qed.

Lemma random_choice_picks {A} (seq : list A) (a : A) (w : World image) :
  seq !! (picks w (cursor w) mod length seq)%nat = Some a ->
  random_choice seq w = Ok (a, advance w).
Proof.
  intros E. destruct seq as [|a0 seq]; [discriminate|].
  unfold random_choice. now rewrite E.
Qed.

Lemma picked_word {A} (seq : list A) (n : nat) :
  seq <> [] -> exists a, seq !! (n mod length seq)%nat = Some a.
Proof.
  intros N. apply lookup_lt_is_Some_2, Nat.mod_upper_bound.
  destruct seq; [congruence|]. simpl. lia.
Qed.

Lemma draw_layer_place_emits (canvas : loc) (font_path : string) (font_size : Z)
    (words : list word) (step : Z) (color : rgb) (random_jitter : pyfloat)
    (allow_rotation : bool) (alpha x y : Z) (wd : word) (w : World image) :
  words !! (picks w (cursor w) mod length words)%nat = Some wd ->
  let k := cursor w in
  let g := cell_glyph font_path font_size step color random_jitter alpha x y wd
             (draws w (k + 1)%nat) (draws w (k + 2)%nat) (draws w (k + 3)%nat) in
  draw_layer_place canvas font_path font_size words step color random_jitter
    allow_rotation alpha x y w
  = Ok (tt, with_store
              (store_after_placement canvas allow_rotation g
                 (rotation_angle (draws w (k + 4)%nat)) (store w))
              (advance_by (if allow_rotation then 5 else 4) w)).
Proof.
  intros E k g. unfold draw_layer_place, choose_word.
  rewrite (bind_ok _ _ _ _ _ (random_choice_picks words wd w E)).
  unfold bind at 1. unfold random_random at 1.
  unfold bind at 1. unfold random_random at 1.
  unfold random_uniform at 1. unfold bind at 1. unfold bind at 1. unfold random_random at 1.
  unfold ret at 1. cbn [draws cursor advance].
  subst g. unfold cell_glyph, store_after_placement, size_variation_of.
  replace (k + 1)%nat with (S (cursor w)) by (subst k; lia).
  replace (k + 2)%nat with (S (S (cursor w))) by (subst k; lia).
  replace (k + 3)%nat with (S (S (S (cursor w)))) by (subst k; lia).
  replace (k + 4)%nat with (S (S (S (S (cursor w))))) by (subst k; lia).
  set (fsize := resolve_font_size font_size _).
  assert ((if fsize =? font_size then load_font font_path font_size
           else load_font font_path fsize) = load_font font_path fsize) as Ef.
  { destruct (fsize =? font_size) eqn:Eq; [|reflexivity].
    apply Z.eqb_eq in Eq. now rewrite Eq. }
  rewrite Ef.
  destruct (getbbox (load_font font_path fsize) wd) as [[[b0 b1] b2] b3] eqn:Eb.
  destruct allow_rotation.
  - erewrite bind_ok by reflexivity.
    erewrite bind_ok by reflexivity.
    erewrite bind_ok by reflexivity.
    erewrite bind_ok by reflexivity.
    erewrite bind_ok by reflexivity.
    erewrite bind_ok by reflexivity.
    cbn [store draws picks cursor].
    rewrite alter_app_r_alt by lia. rewrite Nat.sub_diag. cbn [alter list_alter].
    unfold paste_rotated, glyph_on_its_own, rotation_angle.
    cbn [glyph_width glyph_height glyph_word glyph_font glyph_color glyph_alpha
         target_pos fst snd].
    rewrite <- app_assoc. cbn [app].
    unfold advance. cbn [store draws picks cursor].
    rewrite (list_lookup_total_middle (store w) [] _) by reflexivity.
    set (drawn := draw_text_mm _ _ _ _ _).
    set (rotated := image_rotate _ _).
    assert ((store w ++ [drawn; rotated]) !!! length (store w ++ [drawn]) = rotated) as Er.
    { change (store w ++ [drawn; rotated]) with (store w ++ [drawn] ++ [rotated]).
      rewrite app_assoc. now apply list_lookup_total_middle. }
    unfold loc in *. rewrite Er.
    destruct (image_getbbox rotated) as [[[[c0 c1] c2] c3]|].
    + unfold update_object, with_store, advance_by, jittered.
      cbn [draws picks cursor store].
      do 2 f_equal. f_equal; first [lia | reflexivity].
    + unfold ret, with_store, advance_by. cbn [draws picks cursor store].
      rewrite list_alter_id by reflexivity.
      do 2 f_equal. f_equal; first [lia | reflexivity].
  - unfold update_object, with_store, advance_by, advance, draw_glyph, jittered.
    cbn [draws picks cursor store glyph_width glyph_height glyph_word glyph_font
         glyph_color glyph_alpha target_pos fst snd].
    do 2 f_equal. f_equal; first [lia | reflexivity].
Qed.

Lemma generate_layer_targets_cell_emits (img_gray : GrayImage) (font_path : string)
    (layer : Layer) (words : list word) (density_multiplier : pyfloat)
    (targets : list Glyph) (x y : Z) (wd : word) (w : World image) :
  fgt (draws w (cursor w))
      (snd (cell_mapping img_gray (step layer) (base_alpha layer)
              (alpha_boost_dark layer) (density_scale layer *~ density_multiplier)
              x y)) = false ->
  words !! (picks w (S (cursor w)) mod length words)%nat = Some wd ->
  let k := cursor w in
  generate_layer_targets_cell img_gray font_path layer words density_multiplier
    targets x y w
  = Ok (targets ++
        [cell_glyph font_path (font_size layer) (step layer) (color layer) (lit 0.4)
           (fst (cell_mapping img_gray (step layer) (base_alpha layer)
                   (alpha_boost_dark layer)
                   (density_scale layer *~ density_multiplier) x y))
           x y wd (draws w (k + 2)%nat) (draws w (k + 3)%nat) (draws w (k + 4)%nat)],
        advance_by 5 w).
Proof.
  intros T E k. unfold cell_mapping in *. unfold generate_layer_targets_cell.
  destruct (luminance_to_alpha_and_density _ _ _ _) as [alpha density].
  cbn [fst snd] in *. unfold bind at 1. unfold random_random at 1. rewrite T.
  unfold choose_word.
  rewrite (bind_ok _ _ _ _ _ (random_choice_picks words wd (advance w) E)).
  unfold bind, random_random, random_uniform, bind, random_random, ret.
  cbn [draws cursor advance].
  unfold cell_glyph, size_variation_of, jittered.
  replace (k + 2)%nat with (S (S (cursor w))) by (subst k; lia).
  replace (k + 3)%nat with (S (S (S (cursor w)))) by (subst k; lia).
  replace (k + 4)%nat with (S (S (S (S (cursor w))))) by (subst k; lia).
  set (fsize := resolve_font_size (font_size layer) _).
  assert ((if fsize =? font_size layer then load_font font_path (font_size layer)
           else load_font font_path fsize) = load_font font_path fsize) as Ef.
  { destruct (fsize =? font_size layer) eqn:Eq; [|reflexivity].
    apply Z.eqb_eq in Eq. now rewrite Eq. }
  rewrite Ef.
  destruct (getbbox (load_font font_path fsize) wd) as [[[b0 b1] b2] b3] eqn:Eb.
  unfold advance_by, advance. cbn [draws picks cursor store].
  do 2 f_equal. f_equal. lia.
Qed.

(** C6: a cell whose density is 1 or more is never thinned out, whatever the
    generator returns in [0, 1): the draw cannot exceed the density, and with
    a vocabulary the glyph of the cell is placed.  When the scan of
    [draw_layer] reaches such a cell, in the world [w1], having run the
    cells before it, the run goes on with the cells after it from the world
    in which the glyph is on the canvas: the word at the chosen index, at
    the jittered centre of the cell, with the alpha of the cell (with
    rotation, the glyph on its own and the glyph rotated are two new images
    and the latter is pasted on the canvas).  Likewise [generate_layer_targets]
    goes on with the glyph of the cell appended to its targets.  Five outputs
    of the generator are consumed at the cell, six with rotation. *)
Theorem dense_cell_is_always_placed
    (img_gray : GrayImage) (font_path : string) (words : list word) (x y : Z)
    (w1 : World image) :
  (draws w1 (cursor w1) < 1)%Q -> words <> [] ->
  let k := cursor w1 in
  (forall density : pyfloat,
     (1 <= density)%Q -> fgt (draws w1 (cursor w1)) density = false) /\
  exists wd,
    words !! (picks w1 (S k) mod length words)%nat = Some wd /\
    (forall canvas font_size step base_alpha alpha_boost_dark density_scale color
            random_jitter allow_rotation (pre post : list (Z * Z)) (w : World image),
       let mapping :=
         cell_mapping img_gray step base_alpha alpha_boost_dark density_scale x y in
       let cell := fun c : Z * Z =>
         draw_layer_cell canvas img_gray font_path font_size words step base_alpha
           alpha_boost_dark density_scale color random_jitter allow_rotation
           (fst c) (snd c) in
       let g :=
         cell_glyph font_path font_size step color random_jitter (fst mapping) x y wd
           (draws w1 (k + 2)%nat) (draws w1 (k + 3)%nat) (draws w1 (k + 4)%nat) in
       step <> 0 ->
       grid_cells (gray_width img_gray) (gray_height img_gray) step
       = pre ++ (x, y) :: post ->
       (1 <= snd mapping)%Q ->
       for_each pre cell w = Ok (tt, w1) ->
       draw_layer canvas img_gray font_path font_size words step base_alpha
         alpha_boost_dark density_scale color random_jitter allow_rotation w
       = for_each post cell
           (with_store
              (store_after_placement canvas allow_rotation g
                 (rotation_angle (draws w1 (k + 5)%nat)) (store w1))
              (advance_by (if allow_rotation then 6 else 5) w1))) /\
    (forall layer density_multiplier (pre post : list (Z * Z)) (targets : list Glyph)
            (w : World image),
       let mapping :=
         cell_mapping img_gray (step layer) (base_alpha layer) (alpha_boost_dark layer)
           (density_scale layer *~ density_multiplier) x y in
       let cell := fun (targets : list Glyph) (c : Z * Z) =>
         generate_layer_targets_cell img_gray font_path layer words density_multiplier
           targets (fst c) (snd c) in
       let g :=
         cell_glyph font_path (font_size layer) (step layer) (color layer) (lit 0.4)
           (fst mapping) x y wd
           (draws w1 (k + 2)%nat) (draws w1 (k + 3)%nat) (draws w1 (k + 4)%nat) in
       step layer <> 0 ->
       grid_cells (gray_width img_gray) (gray_height img_gray) (step layer)
       = pre ++ (x, y) :: post ->
       (1 <= snd mapping)%Q ->
       for_fold pre [] cell w = Ok (targets, w1) ->
       generate_layer_targets img_gray font_path layer words density_multiplier w
       = for_fold post (targets ++ [g]) cell (advance_by 5 w1)).
Proof.
  intros Hr N k.
  split; [intros density Hd; now apply unit_draw_never_exceeds|].
  destruct (picked_word words (picks w1 (S k)) N) as [wd Ewd].
  exists wd. split; [exact Ewd|]. split.
  - intros canvas font_size step base_alpha alpha_boost_dark density_scale color
      random_jitter allow_rotation pre post w mapping cell g Hs G Hd Hpre.
    rewrite draw_layer_as_scan by exact Hs. rewrite G, for_each_app.
    fold cell. rewrite (bind_ok _ _ _ _ _ Hpre). cbn [for_each].
    assert (cell (x, y) w1
            = Ok (tt, with_store
                        (store_after_placement canvas allow_rotation g
                           (rotation_angle (draws w1 (k + 5)%nat)) (store w1))
                        (advance_by (if allow_rotation then 6 else 5) w1))) as E.
    { subst cell. cbn [fst snd].
      rewrite draw_layer_cell_survives by now apply unit_draw_never_exceeds.
      rewrite (draw_layer_place_emits _ _ _ _ _ _ _ _ _ _ _ wd) by exact Ewd.
      cbn [cursor draws store advance]. subst g mapping k.
      replace (S (cursor w1) + 1)%nat with (cursor w1 + 2)%nat by lia.
      replace (S (cursor w1) + 2)%nat with (cursor w1 + 3)%nat by lia.
      replace (S (cursor w1) + 3)%nat with (cursor w1 + 4)%nat by lia.
      replace (S (cursor w1) + 4)%nat with (cursor w1 + 5)%nat by lia.
      unfold with_store, advance_by, advance. cbn [draws picks cursor store].
      do 2 f_equal. f_equal. destruct allow_rotation; lia. }
    now rewrite (bind_ok _ _ _ _ _ E).
  - intros layer dm pre post targets w mapping cell g Hs G Hd Hpre.
    rewrite generate_layer_targets_as_scan by exact Hs. rewrite G, for_fold_app.
    fold cell. rewrite (bind_ok _ _ _ _ _ Hpre). cbn [for_fold].
    assert (cell targets (x, y) w1 = Ok (targets ++ [g], advance_by 5 w1)) as E.
    { subst cell. cbn [fst snd].
      apply generate_layer_targets_cell_emits; [|exact Ewd].
      now apply unit_draw_never_exceeds. }
    now rewrite (bind_ok _ _ _ _ _ E).
Qed.


End ThinningFacts.

(** C6 on a black 36x18 image and the third layer of [subtle_soft] (step
    18, density 1.2), every draw being 0.999: the scan reaches the second
    cell with the glyph of the first on the canvas (in the planner: in the
    targets), and places the second. *)
Lemma dense_cell_is_always_placed_witness :
  let img := uniform_gray 36 18 0 in
  let blank := PNew 36 18 (255, 255, 255, 255) in
  let w := mkWorld (fun _ => 0.999%Q) (fun _ => 0%nat) 0 [blank] in
  let font := mkFont "font.ttf" 21 in
  let first := PText blank (5, 5) 22825 font (0, 0, 0, 190) in
  let g1 := mkGlyph 22825 font 21 21 (3237120 # 200000, 3237120 # 200000)%Q 190 (0, 0, 0) in
  let g2 := mkGlyph 22825 font 21 21 (6837120 # 200000, 3237120 # 200000)%Q 190 (0, 0, 0) in
  draw_layer (R := exact_rounding) (FB := square_font) 0%nat img "font.ttf" 18
    chinese_words 18 40 150 1.2 (0, 0, 0) 0.4 false w
  = Ok (tt, with_store [PText first (23, 5) 22825 font (0, 0, 0, 190)] (advance_by 10 w)) /\
  generate_layer_targets (R := exact_rounding) (FB := square_font) img "font.ttf"
    (mkLayer 18 18 40 150 1.2 (0, 0, 0) None None) chinese_words 1.0 w
  = Ok ([g1; g2], advance_by 10 w).
Proof.
  intros img blank w font first g1 g2. split.
  - destruct (dense_cell_is_always_placed (R := exact_rounding) (FB := square_font)
                img "font.ttf" chinese_words 18 0 (with_store [first] (advance_by 5 w))
                eq_refl ltac:(discriminate)) as (_ & wd & Ewd & D & _).
    injection Ewd as <-.
    rewrite (D 0%nat 18 18 40 150 1.2%Q (0, 0, 0) 0.4%Q false [(0, 0)] [] w
               ltac:(lia) eq_refl ltac:(apply Qle_bool_iff; reflexivity) eq_refl).
    reflexivity.
  - destruct (dense_cell_is_always_placed (R := exact_rounding) (FB := square_font)
                img "font.ttf" chinese_words 18 0 (advance_by 5 w)
                eq_refl ltac:(discriminate)) as (_ & wd & Ewd & _ & P).
    injection Ewd as <-.
    rewrite (P (mkLayer 18 18 40 150 1.2 (0, 0, 0) None None) 1.0%Q [(0, 0)] [] [g1] w
               ltac:(simpl; lia) eq_refl ltac:(apply Qle_bool_iff; reflexivity) eq_refl).
    reflexivity.
Defined.

(** ** An empty vocabulary *)

Lemma first_survivor_app (draws : nat -> pyfloat) (k : nat) (l1 l2 : list pyfloat) :
  first_survivor draws k (l1 ++ l2)
  = match first_survivor draws k l1 with
    | Some j => Some j
    | None => option_map (Nat.add (length l1)) (first_survivor draws (k + length l1) l2)
    end.
Proof.
  revert k. induction l1 as [|d l1 IH]; intros k.
  - cbn [app first_survivor length]. rewrite Nat.add_0_r.
    now destruct (first_survivor draws k l2).
  - cbn [app first_survivor length]. destruct (fgt (draws k) d); [|reflexivity].
    rewrite IH. destruct (first_survivor draws (S k) l1); [reflexivity|].
    replace (S k + length l1)%nat with (k + S (length l1))%nat by lia.
    now destruct (first_survivor draws (k + S (length l1)) l2).
Qed.

Section EmptyVocabulary.
Context {R : Rounding} {FB : FontBackend} `{Imaging image}.

Variables (canvas : loc) (img_gray : GrayImage) (font_path : string).

Lemma draw_cells_without_words (font_size step base_alpha alpha_boost_dark : Z)
    (density_scale : pyfloat) (color : rgb) (random_jitter : pyfloat)
    (allow_rotation : bool) (cells : list (Z * Z)) (w : World image) :
  for_each cells
    (fun c => draw_layer_cell canvas img_gray font_path font_size [] step base_alpha
                alpha_boost_dark density_scale color random_jitter allow_rotation
                (fst c) (snd c)) w
  = match
      first_survivor (draws w) (cursor w)
        (map (fun c => snd (cell_mapping img_gray step base_alpha alpha_boost_dark
                              density_scale (fst c) (snd c))) cells)
    with
    | Some k => Raise IndexError (advance_by (S k) w)
    | None => Ok (tt, advance_by (length cells) w)
    end.
Proof.
  revert w. induction cells as [|c cells IH]; intros w.
  - simpl. now rewrite advance_by_0.
  - cbn [for_each map first_survivor length]. unfold bind.
    destruct (fgt (draws w (cursor w)) _) eqn:T.
    + rewrite draw_layer_cell_skipped by exact T. rewrite IH.
      change (draws (advance w)) with (draws w).
      change (cursor (advance w)) with (S (cursor w)).
      destruct (first_survivor _ _ _); cbn [option_map]; now rewrite advance_by_S.
    + rewrite draw_layer_cell_survives by exact T.
      rewrite draw_layer_place_empty by reflexivity.
      now rewrite advance_by_1.
Qed.

Lemma draw_layer_without_words (font_size step base_alpha alpha_boost_dark : Z)
    (density_scale : pyfloat) (color : rgb) (random_jitter : pyfloat)
    (allow_rotation : bool) (w : World image) :
  step <> 0 ->
  draw_layer canvas img_gray font_path font_size [] step base_alpha
    alpha_boost_dark density_scale color random_jitter allow_rotation w
  = match
      first_survivor (draws w) (cursor w)
        (scan_densities img_gray step base_alpha alpha_boost_dark density_scale)
    with
    | Some k => Raise IndexError (advance_by (S k) w)
    | None =>
        Ok (tt, advance_by
                  (length (scan_densities img_gray step base_alpha alpha_boost_dark
                             density_scale)) w)
    end.
Proof.
  intros N. unfold scan_densities. rewrite length_map.
  rewrite <- draw_cells_without_words
    with (font_size := font_size) (color := color) (random_jitter := random_jitter)
         (allow_rotation := allow_rotation).
  unfold draw_layer, py_range, grid_cells.
  apply Z.eqb_neq in N. rewrite N. unfold bind at 1. unfold ret at 1.
  rewrite for_each_flat_map. apply for_each_ext. intros y w'.
  unfold bind, ret. now rewrite for_each_map.
Qed.

Lemma draw_layers_without_words (layers : list Layer) (w : World image) :
  Forall (fun layer => step layer <> 0) layers ->
  for_each layers
    (fun layer =>
       draw_layer canvas img_gray font_path (font_size layer) [] (step layer)
         (base_alpha layer) (alpha_boost_dark layer) (density_scale layer)
         (color layer) (default (lit 0.4) (random_jitter layer))
         (default false (allow_rotation layer))) w
  = match
      first_survivor (draws w) (cursor w)
        (flat_map (fun layer =>
                     scan_densities img_gray (step layer) (base_alpha layer)
                       (alpha_boost_dark layer) (density_scale layer)) layers)
    with
    | Some k => Raise IndexError (advance_by (S k) w)
    | None =>
        Ok (tt, advance_by
                  (length (flat_map (fun layer =>
                                       scan_densities img_gray (step layer)
                                         (base_alpha layer) (alpha_boost_dark layer)
                                         (density_scale layer)) layers)) w)
    end.
Proof.
  intros F. revert w. induction F as [|layer layers N F IH]; intros w.
  - simpl. now rewrite advance_by_0.
  - cbn [for_each flat_map]. unfold bind.
    rewrite draw_layer_without_words by exact N.
    rewrite first_survivor_app, length_app.
    destruct (first_survivor (draws w) (cursor w) _); [reflexivity|].
    rewrite IH. cbn [draws cursor advance_by].
    destruct (first_survivor _ _ _); cbn [option_map].
    + rewrite advance_by_add. f_equal. unfold advance_by. f_equal. lia.
    + now rewrite advance_by_add.
Qed.

End EmptyVocabulary.

(** C9, as the code has it: nothing checks the vocabulary.  With an empty
    vocabulary a pass of [draw_layer] walks the grid in scan order, testing
    the density of each cell against the next output of the generator.  At
    the first cell that survives, [random.choice] raises [IndexError]: the
    generator has then given one output for each cell thinned out before
    and one for the survivor, and no image was touched.  When every cell is
    thinned out the pass ends without an error, having drawn nothing.
    [render_with_layers] runs its layers one after the other on a new
    canvas: it fails in the same way at the first surviving cell of all its
    passes, returning no image to save and leaving the canvas blank, and
    when no cell of any pass survives it returns the blank canvas. *)
Theorem empty_vocabulary_fails_at_first_survivor
    {R : Rounding} {FB : FontBackend} `{Imaging image}
    (img_gray : GrayImage) (font_path : string) (w : World image) :
  (forall canvas font_size step base_alpha alpha_boost_dark density_scale color
          random_jitter allow_rotation,
     step <> 0 ->
     draw_layer canvas img_gray font_path font_size [] step base_alpha
       alpha_boost_dark density_scale color random_jitter allow_rotation w
     = match
         first_survivor (draws w) (cursor w)
           (scan_densities img_gray step base_alpha alpha_boost_dark density_scale)
       with
       | Some k => Raise IndexError (advance_by (S k) w)
       | None =>
           Ok (tt, advance_by
                     (length (scan_densities img_gray step base_alpha
                                alpha_boost_dark density_scale)) w)
       end) /\
  (forall layers background,
     Forall (fun layer => step layer <> 0) layers ->
     let blank :=
       image_new (gray_width img_gray) (gray_height img_gray) (background, 255) in
     let densities :=
       flat_map (fun layer =>
                   scan_densities img_gray (step layer) (base_alpha layer)
                     (alpha_boost_dark layer) (density_scale layer)) layers in
     render_with_layers img_gray font_path layers background [] w
     = match first_survivor (draws w) (cursor w) densities with
       | Some k =>
           Raise IndexError (with_store (store w ++ [blank]) (advance_by (S k) w))
       | None =>
           Ok (blank, with_store (store w ++ [blank])
                        (advance_by (length densities) w))
       end).
Proof.
  split.
  - intros. now apply draw_layer_without_words.
  - intros layers background F blank densities.
    unfold render_with_layers, new_object. unfold bind at 1. unfold bind at 1.
    rewrite draw_layers_without_words by exact F.
    cbn [draws cursor]. fold blank. fold densities.
    destruct (first_survivor (draws w) (cursor w) densities) as [k|].
    + reflexivity.
    + unfold read_object. cbn [store advance_by].
      rewrite lookup_total_app_r by reflexivity.
      now rewrite Nat.sub_diag.
Qed.

(** C9 on a 4x2 image whose left half is white and whose right half is
    black, with the first layer of [subtle_soft] at step 2 and every draw
    0.3: the white cell (density 0) is thinned out, the black cell (density
    0.5) survives, and the choice of a word raises after these two outputs;
    [render_with_layers] returns no image and its canvas is still blank. *)
Lemma empty_vocabulary_fails_at_first_survivor_witness :
  let img := mkGray 4 2 (fun x _ => if x <? 2 then 255 else 0) in
  let w := constant_world (image := Pic) 0.3 in
  draw_layer (R := exact_rounding) (FB := square_font) (image := Pic)
    0%nat img "font.ttf" 52 [] 2 20 130 0.5 (0, 0, 0) 0.4 false w
  = Raise IndexError (advance_by 2 w) /\
  render_with_layers (R := exact_rounding) (FB := square_font)
    img "font.ttf" [mkLayer 52 2 20 130 0.5 (0, 0, 0) None None] (255, 255, 255) [] w
  = Raise IndexError
      (with_store (store w ++ [PNew 4 2 (255, 255, 255, 255)]) (advance_by 2 w)).
Proof.
  intros img w.
  pose proof (empty_vocabulary_fails_at_first_survivor (R := exact_rounding)
                (FB := square_font) img "font.ttf" w) as [D Rn].
  split.
  - rewrite D by lia. reflexivity.
  - rewrite Rn by (repeat constructor; simpl; lia). reflexivity.
Defined.

(** C9 fails as stated: [render_with_layers] with an empty vocabulary on a
    white 2x2 image and the first layer of [subtle_soft] raises nothing: the
    only cell is sampled (density 0) and thinned out by the draw 0.5, and the
    blank canvas is saved. *)
Lemma empty_vocabulary_can_render :
  match
    render_with_layers (R := exact_rounding) (FB := square_font)
      (uniform_gray 2 2 255) "font.ttf"
      [mkLayer 52 56 20 130 0.5 (0, 0, 0) None None] (255, 255, 255) []
      (constant_world 0.5)
  with
  | Ok (saved, w') => saved = PNew 2 2 (255, 255, 255, 255) /\ cursor w' = 1%nat
  | Raise _ _ => False
  end.
Proof. vm_compute. split; reflexivity. Qed.

(** ** The flight of a glyph (animate_depth_transition.py, lines 155-180) *)

Section FlightFacts.
Context {R : Rounding}.
Local Open Scope pyfloat_scope.

#[local] Instance rnd_Proper : Proper (Qeq ==> Qeq) rnd.
Proof. intros x y E. now apply rnd_proper. Qed.

(** On the last flight frame the progress is exactly 1. *)
Lemma last_t_norm_is_one (frames_per_layer : Z) :
  1 <= frames_per_layer <= 2 ^ 53 ->
  (flight_t_norm frames_per_layer (frames_per_layer - 1) == 1)%Q.
Proof.
  intros B. unfold flight_t_norm, fdiv.
  replace (frames_per_layer - 1 + 1) with frames_per_layer by lia.
  rewrite of_int_exact by lia.
  assert (inject_Z frames_per_layer / inject_Z frames_per_layer == inject_Z 1)%Q as E.
  { field. change 0%Q with (inject_Z 0). rewrite inject_Z_injective. lia. }
  rewrite E. apply rnd_int. simpl. lia.
Qed.




End FlightFacts.



(** ** The store: copies, mutation and the settled canvas *)

Section StoreFacts.
Context {R : Rounding} `{Imaging image}.
Local Open Scope pyfloat_scope.

Lemma with_store_same (w : World image) : with_store (store w) w = w.
Proof. now destruct w. Qed.

(** A loop of in-place updates of one object is one update by the fold. *)
Lemma for_each_update {A} (l : loc) (g : A -> image -> image) (targets : list A)
    (w : World image) :
  for_each targets (fun a => update_object l (g a)) w
  = Ok (tt, with_store
              (alter (fun i => fold_left (fun i a => g a i) targets i) l (store w)) w).
Proof.
  revert w. induction targets as [|a targets IH]; intros w.
  - simpl. unfold ret. rewrite list_alter_id by reflexivity.
    now rewrite with_store_same.
  - cbn [for_each]. erewrite bind_ok by reflexivity. rewrite IH.
    cbn [store with_store]. rewrite list_alter_alter_eq. reflexivity.
Qed.

(** One flight frame: the objects it makes are appended to the store; no
    object that existed before is touched; the frame appended to [frames]
    is new and holds the rendering of the settled canvas' content. *)
Lemma flight_frame_spec (frames_per_layer : Z) (settled : loc)
    (targets : list Flying) (frames : list loc) (f : Z) (w : World image) :
  (settled < length (store w))%nat ->
  exists extra l,
    flight_frame frames_per_layer settled targets frames f w
    = Ok (frames ++ [l], with_store (store w ++ extra) w) /\
    (length (store w) <= l)%nat /\
    (store w ++ extra) !! l
    = Some (flight_frame_image frames_per_layer (store w !!! settled) targets f).
Proof.
  intros V. unfold flight_frame, flight_frame_image.
  set (t_norm := flight_t_norm frames_per_layer f).
  set (blur_radius := lit 1.2 *~ (lit 1 -~ t_norm)).
  erewrite bind_ok by reflexivity.
  erewrite bind_ok by reflexivity.
  erewrite bind_ok.
  2:{ rewrite (for_each_ext _ _
                 (fun glyph : Flying =>
                    update_object (length (store w))
                      (fun i => draw_glyph i
                                  (flight_center t_norm (snd glyph) (target_pos (fst glyph)))
                                  (fst glyph)))).
      - apply (for_each_update (length (store w))
                 (fun (glyph : Flying) i =>
                    draw_glyph i (flight_center t_norm (snd glyph) (target_pos (fst glyph)))
                               (fst glyph))).
      - intros glyph w'. now destruct (flight_center _ _ _). }
  cbn [store with_store].
  rewrite alter_app_r_alt by lia. rewrite Nat.sub_diag. cbn [alter list_alter].
  set (drawn := fold_left _ targets (store w !!! settled)).
  destruct (fgt blur_radius (lit 0.1)) eqn:E.
  - exists [drawn; gaussian_blur drawn blur_radius;
            convert_P (gaussian_blur drawn blur_radius)], (length (store w) + 2)%nat.
    unfold bind, read_object, new_object, ret. cbn [store].
    rewrite (list_lookup_total_middle (store w) [] drawn) by reflexivity.
    rewrite (list_lookup_total_middle (store w ++ [drawn]) []) by reflexivity.
    split; [|split].
    + unfold with_store. cbn. rewrite !length_app. cbn [length].
      rewrite <- !app_assoc. cbn [app].
      replace (length (store w) + 1 + 1)%nat with (length (store w) + 2)%nat by lia.
      reflexivity.
    + lia.
    + rewrite lookup_app_r by lia.
      replace (length (store w) + 2 - length (store w))%nat with 2%nat by lia.
      reflexivity.
  - exists [drawn; convert_P drawn], (length (store w) + 1)%nat.
    unfold bind, read_object, new_object, ret. cbn [store].
    rewrite (list_lookup_total_middle (store w) [] drawn) by reflexivity.
    split; [|split].
    + unfold with_store. cbn. rewrite !length_app. cbn [length].
      rewrite <- !app_assoc. cbn [app]. reflexivity.
    + lia.
    + rewrite lookup_app_r by lia.
      replace (length (store w) + 1 - length (store w))%nat with 1%nat by lia.
      reflexivity.
Qed.

End StoreFacts.

(** ** Planning never touches the store *)

Section GeneratorOnly.
Context {R : Rounding} {FB : FontBackend} {image : Type}.

Lemma generator_only_ret {A} (a : A) : generator_only (image := image) (ret a).
Proof. intros w. exists a, 0%nat. unfold ret. now rewrite advance_by_0. Qed.

Lemma generator_only_bind {A B} (c : M image A) (k : A -> M image B) :
  generator_only c -> (forall a, generator_only (k a)) -> generator_only (bind c k).
Proof.
  intros Hc Hk w. destruct (Hc w) as (a & n & E).
  destruct (Hk a (advance_by n w)) as (b & m & E').
  exists b, (n + m)%nat. unfold bind. rewrite E, E'. now rewrite advance_by_add.
Qed.

Lemma generator_only_random : generator_only (image := image) random_random.
Proof.
  intros w. exists (draws w (cursor w)), 1%nat. unfold random_random.
  now rewrite advance_by_1.
Qed.

Lemma generator_only_uniform (a b : pyfloat) :
  generator_only (image := image) (random_uniform a b).
Proof.
  apply generator_only_bind; [apply generator_only_random|].
  intros r. apply generator_only_ret.
Qed.

Lemma generator_only_choice {A} (seq : list A) :
  seq <> [] -> generator_only (image := image) (random_choice seq).
Proof.
  intros N w. destruct (random_choice_nonempty seq w N) as (a & E & _).
  exists a, 1%nat. now rewrite E, advance_by_1.
Qed.

Lemma generator_only_for_fold {A B} (l : list A) (acc : B) (body : B -> A -> M image B) :
  (forall b a, generator_only (body b a)) -> generator_only (for_fold l acc body).
Proof.
  intros Hb. revert acc. induction l as [|a l IH]; intros acc.
  - apply generator_only_ret.
  - simpl. apply generator_only_bind; [apply Hb | intros b; apply IH].
Qed.

Lemma generator_only_range (stop step : Z) :
  step <> 0 -> generator_only (image := image) (py_range stop step).
Proof.
  intros N. unfold py_range. apply Z.eqb_neq in N. rewrite N.
  apply generator_only_ret.
Qed.

Lemma generator_only_cell (img_gray : GrayImage) (font_path : string) (layer : Layer)
    (words : list word) (dm : pyfloat) (targets : list Glyph) (x y : Z) :
  words <> [] ->
  generator_only (image := image)
    (generate_layer_targets_cell img_gray font_path layer words dm targets x y).
Proof.
  intros N w.
  destruct (fgt (draws w (cursor w))
              (snd (cell_mapping img_gray (step layer) (base_alpha layer)
                      (alpha_boost_dark layer) (density_scale layer *~ dm)%F x y)))
    eqn:T.
  - exists targets, 1%nat. rewrite generate_layer_targets_cell_skipped by exact T.
    now rewrite advance_by_1.
  - destruct (generate_layer_targets_cell_placed img_gray font_path layer words dm
                targets x y w N T) as (g & E & _).
    now exists (targets ++ [g]), 5%nat.
Qed.

Lemma generator_only_planner (img_gray : GrayImage) (font_path : string) (layer : Layer)
    (words : list word) (dm : pyfloat) :
  step layer <> 0 -> words <> [] ->
  generator_only (image := image)
    (generate_layer_targets img_gray font_path layer words dm).
Proof.
  intros S N. unfold generate_layer_targets.
  apply generator_only_bind; [now apply generator_only_range|]. intros ys.
  apply generator_only_for_fold. intros targets y.
  apply generator_only_bind; [now apply generator_only_range|]. intros xs.
  apply generator_only_for_fold. intros targets' x.
  now apply generator_only_cell.
Qed.

Lemma generator_only_uniform_int (a b : Z) :
  generator_only (image := image) (random_uniform_int a b).
Proof.
  apply generator_only_bind; [apply generator_only_random|].
  intros r. apply generator_only_ret.
Qed.

Lemma generator_only_start (w h : Z) :
  generator_only (image := image) (random_offscreen_start w h).
Proof.
  unfold random_offscreen_start.
  apply generator_only_bind; [now apply generator_only_choice|].
  intros [| | |];
    (apply generator_only_bind;
     [apply generator_only_uniform || apply generator_only_uniform_int|]; intros u;
     apply generator_only_bind;
     [apply generator_only_uniform || apply generator_only_uniform_int|]; intros v;
     apply generator_only_ret).
Qed.

Lemma generator_only_assign_starts (img_gray : GrayImage) (targets : list Glyph) :
  generator_only (image := image) (assign_starts img_gray targets).
Proof.
  unfold assign_starts. apply generator_only_for_fold. intros flying t.
  apply generator_only_bind; [apply generator_only_start|].
  intros start. apply generator_only_ret.
Qed.

End GeneratorOnly.

(** ** The frames of the animation *)

Section AnimationFacts.
Context {R : Rounding} {FB : FontBackend} `{Imaging image}.
Local Open Scope pyfloat_scope.

(** A loop whose body makes one new frame object per round: the frames come
    out in the order of the rounds, and nothing allocated before is touched. *)
Lemma frame_loop_spec (body : list loc -> Z -> M image (list loc))
    (Q : list image -> Prop) (val : Z -> image) :
  (forall sigma e, Q sigma -> Q (sigma ++ e)) ->
  (forall frames f w, Q (store w) ->
     exists extra l,
       body frames f w = Ok (frames ++ [l], with_store (store w ++ extra) w) /\
       (length (store w) <= l)%nat /\
       (store w ++ extra) !! l = Some (val f)) ->
  forall fs frames w, Q (store w) ->
    exists extra new,
      for_fold fs frames body w = Ok (frames ++ new, with_store (store w ++ extra) w) /\
      Forall2 (fun l f => (length (store w) <= l)%nat /\
                          (store w ++ extra) !! l = Some (val f)) new fs.
Proof.
  intros Qapp Hbody fs. induction fs as [|f fs IH]; intros frames w HQ.
  - exists [], []. split; [|constructor].
    simpl. unfold ret. now rewrite !app_nil_r, with_store_same.
  - destruct (Hbody frames f w HQ) as (e1 & l & E1 & Ll & Vl).
    destruct (IH (frames ++ [l]) (with_store (store w ++ e1) w)) as (e2 & new & E2 & F2).
    { cbn [store with_store]. now apply Qapp. }
    cbn [store with_store] in E2, F2.
    exists (e1 ++ e2), (l :: new). split.
    + cbn [for_fold]. rewrite (bind_ok _ _ _ _ _ E1). rewrite E2.
      rewrite <- !app_assoc. reflexivity.
    + constructor.
      * split; [exact Ll|]. rewrite app_assoc. now apply lookup_app_l_Some.
      * eapply Forall2_impl; [exact F2|]. intros l' f' [L' V'].
        rewrite length_app in L'. split; [lia|]. now rewrite app_assoc.
Qed.

(** The flight of a layer, lines 155-189. *)
Lemma flight_loop_spec (frames_per_layer : Z) (settled : loc) (targets : list Flying)
    (fs : list Z) (frames : list loc) (w : World image) :
  (settled < length (store w))%nat ->
  exists extra new,
    for_fold fs frames (flight_frame frames_per_layer settled targets) w
    = Ok (frames ++ new, with_store (store w ++ extra) w) /\
    Forall2 (fun l f =>
               (length (store w) <= l)%nat /\
               (store w ++ extra) !! l
               = Some (flight_frame_image frames_per_layer (store w !!! settled)
                         targets f)) new fs.
Proof.
  intros V.
  apply (frame_loop_spec (flight_frame frames_per_layer settled targets)
           (fun sigma => (settled < length sigma)%nat /\
                         sigma !!! settled = store w !!! settled)
           (flight_frame_image frames_per_layer (store w !!! settled) targets)).
  - intros sigma e [L E]. split; [rewrite length_app; lia|].
    now rewrite lookup_total_app_l.
  - intros frames' f w' [L E].
    destruct (flight_frame_spec frames_per_layer settled targets frames' f w' L)
      as (extra & l & E1 & Ll & Vl).
    exists extra, l. now rewrite <- E.
  - now split.
Qed.

(** The commit of a layer, lines 192-206: one in-place update of the settled
    canvas, by the glyphs at their targets. *)
Lemma commit_layer_spec (settled : loc) (targets : list Flying) (w : World image) :
  commit_layer settled targets w
  = Ok (tt, with_store
              (alter (fun i => committed_image i targets) settled (store w)) w).
Proof.
  unfold commit_layer, committed_image.
  rewrite (for_each_ext _ _
             (fun glyph : Flying =>
                update_object settled
                  (fun i => draw_glyph i (target_pos (fst glyph)) (fst glyph)))).
  - apply (for_each_update settled
             (fun (glyph : Flying) i => draw_glyph i (target_pos (fst glyph)) (fst glyph))).
  - intros glyph w'. now destruct (target_pos (fst glyph)).
Qed.

(** The run of one layer (lines 137-206): planning and the choice of the
    starts only consume outputs of the generator; the flight appends its
    objects to the store; the commit then updates the settled canvas in
    place. *)
Lemma animate_layer_run
    (img_gray : GrayImage) (font_path : string) (frames_per_layer : Z)
    (settled : loc) (frames : list loc) (layer : Layer) (w : World image) :
  (settled < length (store w))%nat -> step layer <> 0 ->
  exists (targets : list Flying) (extra : list image) (new : list loc) (n : nat),
    animate_layer img_gray font_path frames_per_layer settled frames layer w
    = Ok (frames ++ new,
          with_store (alter (fun i => committed_image i targets) settled
                            (store w ++ extra))
                     (advance_by n w)) /\
    Forall2 (fun l f =>
               (length (store w) <= l)%nat /\
               (store w ++ extra) !! l
               = Some (flight_frame_image frames_per_layer (store w !!! settled)
                         targets f))
            new (py_range1 frames_per_layer).
Proof.
  intros V S. unfold animate_layer.
  destruct (generator_only_planner (image := image) img_gray font_path layer
              chinese_words (lit 1.0) S ltac:(discriminate) w) as (ts & n & E1).
  destruct (generator_only_assign_starts (image := image) img_gray ts (advance_by n w))
    as (targets & m & E2).
  rewrite (bind_ok _ _ _ _ _ E1), (bind_ok _ _ _ _ _ E2).
  rewrite advance_by_add.
  set (w1 := advance_by (n + m) w).
  destruct (flight_loop_spec frames_per_layer settled targets
              (py_range1 frames_per_layer) frames w1 V) as (extra & new & E3 & F).
  change (store w1) with (store w) in E3, F.
  rewrite (bind_ok _ _ _ _ _ E3). erewrite bind_ok by apply commit_layer_spec.
  exists targets, extra, new, (n + m)%nat. split; [reflexivity | exact F].
Qed.

(** C8: one layer of the animation.  Every flight frame is a new object,
    made from a copy of the settled canvas: it holds the rendering of the
    content the settled canvas had when the layer began, also after the
    commit.  The settled canvas itself is changed once, after the flight, by
    the layer's glyphs drawn at their targets; no other object that existed
    before the layer is changed. *)
Theorem frames_are_independent_copies
    (img_gray : GrayImage) (font_path : string) (frames_per_layer : Z)
    (settled : loc) (frames : list loc) (layer : Layer) (w : World image) :
  (settled < length (store w))%nat -> step layer <> 0 ->
  exists (targets : list Flying) (new : list loc) (w' : World image),
    animate_layer img_gray font_path frames_per_layer settled frames layer w
    = Ok (frames ++ new, w') /\
    store w' !! settled = Some (committed_image (store w !!! settled) targets) /\
    (forall l, l <> settled -> (l < length (store w))%nat ->
               store w' !! l = store w !! l) /\
    Forall2 (fun l f =>
               (length (store w) <= l)%nat /\
               store w' !! l
               = Some (flight_frame_image frames_per_layer (store w !!! settled)
                         targets f))
            new (py_range1 frames_per_layer).
Proof.
  intros V S.
  destruct (animate_layer_run img_gray font_path frames_per_layer settled frames
              layer w V S) as (targets & extra & new & n & E & F).
  exists targets, new. eexists. split; [exact E|]. cbn [store with_store].
  split; [|split].
  - rewrite list_lookup_alter_eq, lookup_app_l by exact V.
    rewrite (list_lookup_lookup_total_lt (store w) settled V). reflexivity.
  - intros l Nl Ll. rewrite list_lookup_alter_ne by congruence.
    now rewrite lookup_app_l.
  - eapply Forall2_impl; [exact F|]. intros l f [Ll Vl]. split; [exact Ll|].
    rewrite list_lookup_alter_ne by lia. exact Vl.
Qed.

End AnimationFacts.

(** C8 on a black 2x2 image, the first layer of [subtle_soft], two frames
    per layer, from a store that holds the blank settled canvas: the only
    cell has density 0.5 and survives the draw 0.5, so one glyph is planned,
    flies in on both frames and is committed on the settled canvas, which is
    blank when the first frame is drawn and holds the glyph in the end. *)
Lemma frames_are_independent_copies_witness :
  let blank := PNew 2 2 (255, 255, 255, 255) in
  let w := mkWorld (fun _ => 0.5%Q) (fun _ => 0%nat) 0 [blank] in
  exists (targets : list Flying) (new : list loc) (w' : World Pic),
    animate_layer (R := exact_rounding) (FB := square_font) (uniform_gray 2 2 0)
      "font.ttf" 2 0%nat [] (mkLayer 52 56 20 130 0.5 (0, 0, 0) None None) w
    = Ok ([] ++ new, w') /\
    targets <> [] /\
    store w !! 0%nat = Some blank /\
    store w' !! 0%nat
    = Some (PText blank (1, 1) 22825 (mkFont "font.ttf" 54) (0, 0, 0, 150)) /\
    store w' !! 0%nat
    = Some (committed_image (R := exact_rounding) (store w !!! 0%nat) targets) /\
    (forall l, l <> 0%nat -> (l < length (store w))%nat -> store w' !! l = store w !! l) /\
    Forall2 (fun l f =>
               (length (store w) <= l)%nat /\
               store w' !! l
               = Some (flight_frame_image (R := exact_rounding) 2 (store w !!! 0%nat)
                         targets f))
            new (py_range1 2).
Proof.
  intros blank w.
  destruct (frames_are_independent_copies (R := exact_rounding) (FB := square_font)
              (uniform_gray 2 2 0) "font.ttf" 2 0%nat []
              (mkLayer 52 56 20 130 0.5 (0, 0, 0) None None) w
              ltac:(simpl; lia) ltac:(simpl; lia))
    as (targets & new & w' & E & Se & Keep & Fr).
  exists targets, new, w'.
  split; [exact E|]. vm_compute in E. injection E as <- <-.
  split; [|split; [reflexivity|split; [reflexivity|split; [exact Se|split; [exact Keep|exact Fr]]]]].
  intros ->. discriminate Se.
Defined.

Section SequenceFacts.
Context {R : Rounding} {FB : FontBackend} `{Imaging image}.
Local Open Scope pyfloat_scope.

Lemma contents_of_frames (sigma : list image) (val : Z -> image)
    (P : loc -> Prop) (new : list loc) (fs : list Z) :
  Forall2 (fun l f => P l /\ sigma !! l = Some (val f)) new fs ->
  map (fun l => sigma !!! l) new = map val fs.
Proof.
  induction 1 as [|l f new fs [_ E] _ IH]; [reflexivity|].
  cbn [map]. rewrite IH. now rewrite (list_lookup_total_correct _ _ _ E).
Qed.

Lemma contents_of_layers (sigma : list image) (val : image * list Flying -> Z -> image)
    (P : loc -> Prop) (news : list (list loc)) (runs : list (image * list Flying))
    (fs : list Z) :
  Forall2 (fun new run =>
             Forall2 (fun l f => P l /\ sigma !! l = Some (val run f)) new fs) news runs ->
  map (fun l => sigma !!! l) (concat news) = flat_map (fun run => map (val run) fs) runs.
Proof.
  induction 1 as [|new run news runs F _ IH]; [reflexivity|].
  cbn [concat flat_map]. rewrite map_app, IH.
  now rewrite (contents_of_frames sigma (val run) P new fs F).
Qed.

Lemma length_flat_map_constant {A B} (f : A -> list B) (n : nat) (l : list A) :
  (forall a, length (f a) = n) -> length (flat_map f l) = (length l * n)%nat.
Proof.
  intros E. induction l as [|a l IH]; [reflexivity|].
  cbn [flat_map length]. rewrite length_app, IH, E. lia.
Qed.

Lemma length_py_range1 (n : Z) : length (py_range1 n) = Z.to_nat n.
Proof. apply length_seqZ. Qed.

(** The loop over the layers, lines 137-206: each layer appends its flight
    frames; a frame, once appended, keeps its content to the end. *)
Lemma layers_loop_spec (img_gray : GrayImage) (font_path : string)
    (frames_per_layer : Z) (settled : loc) (layers : list Layer) :
  Forall (fun layer => step layer <> 0) layers ->
  forall (frames : list loc) (w : World image),
    (settled < length (store w))%nat ->
    exists (runs : list (image * list Flying)) (news : list (list loc)) (w' : World image),
      for_fold layers frames (animate_layer img_gray font_path frames_per_layer settled) w
      = Ok (frames ++ concat news, w') /\
      (length (store w) <= length (store w'))%nat /\
      (forall l, l <> settled -> (l < length (store w))%nat ->
                 store w' !! l = store w !! l) /\
      Forall2 (fun new run =>
                 Forall2 (fun l f =>
                            l <> settled /\
                            store w' !! l
                            = Some (flight_frame_image frames_per_layer (fst run)
                                      (snd run) f))
                         new (py_range1 frames_per_layer))
              news runs /\
      length runs = length layers.
Proof.
  induction 1 as [|layer layers S _ IH]; intros frames w V.
  - exists [], [], w. cbn [for_fold concat]. unfold ret. rewrite app_nil_r.
    repeat split; auto.
  - destruct (animate_layer_run img_gray font_path frames_per_layer settled frames
                layer w V S) as (targets & extra & new & n & E1 & F1).
    set (w1 := with_store _ (advance_by n w)) in E1.
    assert (store w1
            = alter (fun i => committed_image i targets) settled (store w ++ extra)) as St
      by reflexivity.
    assert (length (store w1) = (length (store w) + length extra)%nat) as L1
      by (rewrite St, length_alter; apply length_app).
    destruct (IH (frames ++ new) w1 ltac:(lia))
      as (runs & news & w' & E2 & L2 & Keep2 & F2 & Len).
    exists ((store w !!! settled, targets) :: runs), (new :: news), w'.
    split; [|split; [|split; [|split]]].
    + cbn [for_fold concat]. rewrite (bind_ok _ _ _ _ _ E1), E2.
      now rewrite <- app_assoc.
    + lia.
    + intros l Nl Ll. rewrite Keep2 by (auto; lia).
      rewrite St, list_lookup_alter_ne by congruence. now rewrite lookup_app_l.
    + constructor; [|exact F2].
      eapply Forall2_impl; [exact F1|]. cbn [fst snd]. intros l f [Ll Vl].
      assert (l <> settled) as Nl by lia. split; [exact Nl|].
      assert (store w1 !! l
              = Some (flight_frame_image frames_per_layer (store w !!! settled)
                        targets f)) as V1
        by (rewrite St, list_lookup_alter_ne by congruence; exact Vl).
      rewrite Keep2; [exact V1 | exact Nl |].
      eapply lookup_lt_Some. exact V1.
    + cbn [length]. now rewrite Len.
Qed.

(** One frame of the fade, lines 211-217. *)
Lemma fade_frame_spec (final_original_frames : Z) (settled orig : loc)
    (frames : list loc) (i : Z) (w : World image) :
  exists extra l,
    fade_frame final_original_frames settled orig frames i w
    = Ok (frames ++ [l], with_store (store w ++ extra) w) /\
    (length (store w) <= l)%nat /\
    (store w ++ extra) !! l
    = Some (fade_frame_image final_original_frames (store w !!! settled)
              (store w !!! orig) i).
Proof.
  unfold fade_frame, fade_frame_image.
  set (alpha := of_int (i + 1) /~ of_int final_original_frames).
  set (blur_radius := fmax (lit 0.0) (lit 1.5 -~ lit 1.5 *~ alpha)).
  set (blended := image_blend (store w !!! settled) (store w !!! orig) alpha).
  erewrite bind_ok by reflexivity.
  erewrite bind_ok by reflexivity.
  erewrite bind_ok by reflexivity.
  fold blended.
  destruct (fgt blur_radius (of_int 0)) eqn:E.
  - exists [blended; gaussian_blur blended blur_radius;
            convert_P (gaussian_blur blended blur_radius)], (length (store w) + 2)%nat.
    unfold bind, read_object, new_object, ret. cbn [store with_store].
    rewrite (list_lookup_total_middle (store w) [] blended) by reflexivity.
    rewrite (list_lookup_total_middle (store w ++ [blended]) []) by reflexivity.
    split; [|split].
    + unfold with_store. cbn. rewrite !length_app. cbn [length].
      rewrite <- !app_assoc. cbn [app].
      replace (length (store w) + 1 + 1)%nat with (length (store w) + 2)%nat by lia.
      reflexivity.
    + lia.
    + rewrite lookup_app_r by lia.
      replace (length (store w) + 2 - length (store w))%nat with 2%nat by lia.
      reflexivity.
  - exists [blended; convert_P blended], (length (store w) + 1)%nat.
    unfold bind, read_object, new_object, ret. cbn [store with_store].
    rewrite (list_lookup_total_middle (store w) [] blended) by reflexivity.
    split; [|split].
    + unfold with_store. cbn. rewrite !length_app. cbn [length].
      rewrite <- !app_assoc. cbn [app]. reflexivity.
    + lia.
    + rewrite lookup_app_r by lia.
      replace (length (store w) + 1 - length (store w))%nat with 1%nat by lia.
      reflexivity.
Qed.

Lemma fade_loop_spec (final_original_frames : Z) (settled orig : loc)
    (fs : list Z) (frames : list loc) (w : World image) :
  (settled < length (store w))%nat -> (orig < length (store w))%nat ->
  exists extra new,
    for_fold fs frames (fade_frame final_original_frames settled orig) w
    = Ok (frames ++ new, with_store (store w ++ extra) w) /\
    Forall2 (fun l f =>
               (length (store w) <= l)%nat /\
               (store w ++ extra) !! l
               = Some (fade_frame_image final_original_frames (store w !!! settled)
                         (store w !!! orig) f)) new fs.
Proof.
  intros Vs Vo.
  apply (frame_loop_spec (fade_frame final_original_frames settled orig)
           (fun sigma => ((settled < length sigma)%nat /\
                          sigma !!! settled = store w !!! settled) /\
                         ((orig < length sigma)%nat /\
                          sigma !!! orig = store w !!! orig))
           (fade_frame_image final_original_frames (store w !!! settled)
              (store w !!! orig))).
  - intros sigma e [[L1 E1] [L2 E2]].
    repeat split; try (rewrite length_app; lia); now rewrite lookup_total_app_l.
  - intros frames' f w' [[L1 E1] [L2 E2]].
    destruct (fade_frame_spec final_original_frames settled orig frames' f w')
      as (extra & l & E & Ll & Vl).
    exists extra, l. now rewrite <- E1, <- E2.
  - repeat split; assumption.
Qed.

End SequenceFacts.

Section AccumulateFacts.
Context {R : Rounding} {FB : FontBackend} `{Imaging image}.

Lemma save_frames (frames : list loc) (w : World image) :
  match frames with
  | [] => ret (frames, None)
  | _ => fun w => Ok ((frames, Some (map (fun l => store w !!! l) frames)), w)
  end w
  = Ok ((frames,
         match frames with
         | [] => None
         | _ => Some (map (fun l => store w !!! l) frames)
         end), w).
Proof. now destruct frames. Qed.

(** C2: the animation never fails, and its frame sequence is, in this
    order, the flight frames of the six layers ([subtle_soft] followed by
    [graphic_bold]; for each layer, one frame per [f] of
    [range(frames_per_layer)], made from the settled canvas and the targets
    of that layer), then one fade frame per [i] of
    [range(final_original_frames)]: [frames_per_layer * 6 +
    final_original_frames] frames when both counts are non-negative. *)
Theorem animation_frame_sequence
    (img_gray : GrayImage) (original : image) (font_path : string) (background : rgb)
    (frames_per_layer final_original_frames : Z) (w : World image) :
  exists (runs : list (image * list Flying)) (last_settled : image)
         (frames : list loc) (out : option (list image)) (w' : World image),
    accumulate_layers_animation img_gray original font_path background
      frames_per_layer final_original_frames w = Ok ((frames, out), w') /\
    length runs = length combined_layers /\
    length combined_layers = 6%nat /\
    map (fun l => store w' !!! l) frames
    = flat_map (fun run =>
                  map (flight_frame_image frames_per_layer (fst run) (snd run))
                      (py_range1 frames_per_layer)) runs
      ++ map (fade_frame_image final_original_frames last_settled original)
             (py_range1 final_original_frames) /\
    out = match frames with
          | [] => None
          | _ => Some (map (fun l => store w' !!! l) frames)
          end /\
    length frames
    = (Z.to_nat frames_per_layer * 6 + Z.to_nat final_original_frames)%nat /\
    (0 <= frames_per_layer -> 0 <= final_original_frames ->
     Z.of_nat (length frames) = frames_per_layer * 6 + final_original_frames).
Proof.
  unfold accumulate_layers_animation.
  erewrite bind_ok by reflexivity.
  erewrite bind_ok by reflexivity.
  erewrite bind_ok by reflexivity.
  set (settled := length (store w)).
  set (w0 := mkWorld _ _ _ _).
  match goal with
  | |- context [for_fold ?ls [] (animate_layer _ _ _ _)] => set (layers := ls)
  end.
  assert (Forall (fun layer => step layer <> 0) layers) as S
    by (subst layers; cbn [app]; repeat constructor; discriminate).
  assert (settled < length (store w0))%nat as V
    by (subst w0 settled; cbn [store]; rewrite length_app; cbn [length]; lia).
  destruct (layers_loop_spec img_gray font_path frames_per_layer settled layers S [] w0 V)
    as (runs & news & w1 & E1 & L1 & _ & F1 & Len).
  rewrite (bind_ok _ _ _ _ _ E1). cbn [app].
  erewrite bind_ok by reflexivity.
  set (orig := length (store w1)).
  set (w2 := mkWorld _ _ _ _).
  assert (store w2 = store w1 ++ [original]) as St2 by reflexivity.
  assert (settled < length (store w2))%nat as Vs
    by (rewrite St2, length_app; lia).
  assert (orig < length (store w2))%nat as Vo
    by (rewrite St2, length_app; cbn [length]; subst orig; lia).
  destruct (fade_loop_spec final_original_frames settled orig
              (py_range1 final_original_frames) (concat news) w2 Vs Vo)
    as (extra & new & E2 & F2).
  rewrite (bind_ok _ _ _ _ _ E2). rewrite save_frames.
  set (w3 := with_store (store w2 ++ extra) w2).
  assert (store w3 = (store w1 ++ [original]) ++ extra) as St3 by reflexivity.
  assert (store w2 !!! orig = original) as Eo
    by (rewrite St2; now apply list_lookup_total_middle).
  unfold loc in F2. rewrite Eo in F2.
  assert (map (fun l => store w3 !!! l) (concat news ++ new)
          = flat_map (fun run =>
                        map (flight_frame_image frames_per_layer (fst run) (snd run))
                            (py_range1 frames_per_layer)) runs
            ++ map (fade_frame_image final_original_frames (store w2 !!! settled)
                      original) (py_range1 final_original_frames)) as C.
  { rewrite map_app. f_equal.
    - apply (contents_of_layers (store w3)
               (fun run => flight_frame_image frames_per_layer (fst run) (snd run))
               (fun l => l <> settled)).
      eapply Forall2_impl; [exact F1|]. intros fr run Ffr.
      eapply Forall2_impl; [exact Ffr|]. intros l f [Nl Vl]. split; [exact Nl|].
      rewrite St3. now apply lookup_app_l_Some, lookup_app_l_Some.
    - apply (contents_of_frames (store w3) _ (fun l => (length (store w2) <= l)%nat)).
      exact F2. }
  assert (length (concat news ++ new)
          = (Z.to_nat frames_per_layer * 6 + Z.to_nat final_original_frames)%nat) as Count.
  { rewrite <- (length_map (fun l => store w3 !!! l)), C.
    rewrite length_app, length_map, length_py_range1.
    rewrite (length_flat_map_constant _ (Z.to_nat frames_per_layer))
      by (intros run; now rewrite length_map, length_py_range1).
    rewrite Len. subst layers. cbn [app length]. lia. }
  exists runs, (store w2 !!! settled), (concat news ++ new).
  eexists. exists w3. split; [reflexivity|].
  split; [rewrite Len; reflexivity|]. split; [reflexivity|].
  split; [exact C|]. split; [reflexivity|].
  split; [exact Count|]. intros. rewrite Count. lia.
Qed.

End AccumulateFacts.

(** ** Runs of the model *)

(** The planner on the one cell of a black 32x32 image with the second layer
    of [subtle_soft] (font size 30, step 32), its [random_jitter] set to 0,
    every output of the generator being 0.75: the glyph is jittered all the
    same, from the centre 16 to 22.4, and its font size is 33. *)
Example planner_run_on_one_cell :
  match
    generate_layer_targets_cell (R := exact_rounding) (FB := square_font) (image := Pic)
      (uniform_gray 32 32 0) "font.ttf"
      (set_random_jitter 0 (mkLayer 30 32 30 140 0.9 (0, 0, 0) None None))
      chinese_words 1 [] 0 0 (constant_world 0.75)
  with
  | Ok ([g], _) =>
      (fst (target_pos g) == 22.4)%Q /\ (snd (target_pos g) == 22.4)%Q /\
      font_px (glyph_font g) = 33 /\ glyph_alpha g = 170
  | _ => False
  end.
Proof. vm_compute. repeat split. Qed.

(** The animation of a black 2x2 image with 2 frames per layer and 3 fade
    frames: 2 * 6 + 3 = 15 frames are handed to the encoder. *)
Example animation_run_on_a_small_image :
  match
    accumulate_layers_animation (R := exact_rounding) (FB := square_font)
      (uniform_gray 2 2 0) (PNew 2 2 (0, 0, 0, 255)) "font.ttf" (255, 255, 255) 2 3
      (constant_world 0.75)
  with
  | Ok ((frames, Some images), _) =>
      length frames = 15%nat /\ length images = 15%nat
  | _ => False
  end.
Proof. vm_compute. split; reflexivity. Qed.

(** * More properties of the code *)

(** ** The sampling grid (main.py, lines 80-81; the same loops at lines
    43-44 of animate_depth_transition.py) *)

Lemma In_range_list (stop step z : Z) :
  0 < step -> (In z (range_list stop step) <-> 0 <= z < stop /\ (step | z)).
Proof.
  intros S. unfold range_list. apply Z.ltb_lt in S as S'. rewrite S'.
  rewrite in_map_iff. split.
  - intros (k & <- & Hk). apply In_seqZ in Hk.
    assert (k < (stop + step - 1) / step) as B by lia.
    assert (k * step < stop).
    { destruct (Z_lt_le_dec (k * step) stop) as [|C]; [assumption|].
      exfalso. assert ((stop + step - 1) / step < k + 1); [|lia].
      apply Z.div_lt_upper_bound; lia. }
    split; [nia|]. now exists k.
  - intros ([L U] & k & ->). exists k. split; [reflexivity|].
    apply In_seqZ. split; [nia|].
    assert (k + 1 <= (stop + step - 1) / step); [|lia].
    apply Z.div_le_lower_bound; nia.
Qed.


Lemma In_grid_cells (w h step x y : Z) :
  In (x, y) (grid_cells w h step)
  <-> In x (range_list w step) /\ In y (range_list h step).
Proof.
  unfold grid_cells. rewrite in_flat_map. split.
  - intros (y' & Hy & Hin). apply in_map_iff in Hin as (x' & E & Hx).
    injection E as -> ->. now split.
  - intros [Hx Hy]. exists y. split; [exact Hy|]. apply in_map_iff. now exists x.
Qed.




Lemma StronglySorted_seq (a n : nat) : StronglySorted lt (seq a n).
Proof.
  revert a. induction n as [|n IH]; intros a; [constructor|].
  cbn [seq]. constructor; [apply IH|].
  apply Forall_forall. intros b Hb. apply list_elem_of_In, in_seq in Hb. lia.
Qed.

Lemma StronglySorted_range_list (stop step : Z) :
  0 < step -> StronglySorted Z.lt (range_list stop step).
Proof.
  intros S. unfold range_list, seqZ.
  change (map ?f ?l) with (f <$> l). rewrite <- list_fmap_compose.
  apply (StronglySorted_fmap _ lt); [|apply StronglySorted_seq].
  intros a b L. unfold compose. nia.
Qed.

Lemma StronglySorted_grid_rows (xs ys : list Z) :
  StronglySorted Z.lt xs -> StronglySorted Z.lt ys ->
  StronglySorted scan_before (flat_map (fun y => map (fun x => (x, y)) xs) ys).
Proof.
  intros Sx Sy. induction Sy as [|y ys Sy IH Fy]; [constructor|].
  cbn [flat_map]. apply StronglySorted_app_2.
  - intros [a b] [c d] Ha Hc. apply list_elem_of_In in Ha, Hc.
    apply in_map_iff in Ha as (x' & E & _). injection E as <- <-.
    apply in_flat_map in Hc as (y' & Hy' & Hin).
    apply in_map_iff in Hin as (x'' & E & _). injection E as <- <-.
    left. cbn. rewrite Forall_forall in Fy. apply Fy. now apply list_elem_of_In.
  - change (map ?f ?l) with (f <$> l).
    apply (StronglySorted_fmap _ Z.lt); [|exact Sx].
    intros a b L. right. now split.
  - exact IH.
Qed.

Section ScanFacts.
Context {R : Rounding} {FB : FontBackend} `{Imaging image}.

(** X2: with a positive step, [draw_layer] and [generate_layer_targets] run
    their loop body once per grid cell, in scan order: rows from the top,
    each row from the left.  (Glyphs are therefore drawn, and targets
    listed, in that order.) *)
Theorem layers_scan_row_by_row (img_gray : GrayImage) (font_path : string)
    (stride : Z) :
  0 < stride ->
  let cells := grid_cells (gray_width img_gray) (gray_height img_gray) stride in
  StronglySorted scan_before cells /\
  (forall canvas font_size words base_alpha alpha_boost_dark density_scale color
          random_jitter allow_rotation (w : World image),
     draw_layer canvas img_gray font_path font_size words stride base_alpha
       alpha_boost_dark density_scale color random_jitter allow_rotation w
     = for_each cells
         (fun c => draw_layer_cell canvas img_gray font_path font_size words stride
                     base_alpha alpha_boost_dark density_scale color random_jitter
                     allow_rotation (fst c) (snd c)) w) /\
  (forall layer words dm (w : World image),
     step layer = stride ->
     generate_layer_targets img_gray font_path layer words dm w
     = for_fold cells []
         (fun targets c =>
            generate_layer_targets_cell img_gray font_path layer words dm targets
              (fst c) (snd c)) w).
Proof.
  intros S cells. split; [|split].
  - apply StronglySorted_grid_rows; now apply StronglySorted_range_list.
  - intros. apply draw_layer_as_scan. lia.
  - intros layer words dm w <-. apply generate_layer_targets_as_scan. lia.
Qed.

End ScanFacts.

(** X2 on a 3x3 image with step 2: the four cells in scan order. *)
Lemma layers_scan_row_by_row_witness :
  StronglySorted scan_before (grid_cells 3 3 2) /\
  grid_cells 3 3 2 = [(0, 0); (2, 0); (0, 2); (2, 2)].
Proof.
  split; [|reflexivity].
  apply (layers_scan_row_by_row (R := exact_rounding) (FB := square_font) (image := Pic)
           (uniform_gray 3 3 0) "font.ttf" 2 ltac:(lia)).
Defined.

(** ** Degenerate steps *)

Lemma range_list_negative_step (stop step : Z) :
  step < 0 -> 0 <= stop -> range_list stop step = [].
Proof.
  intros S H. unfold range_list.
  replace (0 <? step) with false by (symmetry; apply Z.ltb_ge; lia).
  assert ((stop + step + 1) / step <= 0) as B.
  { rewrite <- Z.div_opp_opp by lia.
    assert (- (stop + step + 1) / - step < 1); [|lia].
    apply Z.div_lt_upper_bound; lia. }
  unfold seqZ. replace (Z.to_nat ((stop + step + 1) / step)) with 0%nat by lia.
  reflexivity.
Qed.

Section DegenerateSteps.
Context {R : Rounding} {FB : FontBackend} `{Imaging image}.

(** X3: a zero step makes [draw_layer] and [generate_layer_targets] raise
    [ValueError] (from [range]) in the very world of the call: no output of
    the generator was consumed and no image touched before the exception.
    A negative step is no error: the loops are empty, nothing is drawn or
    planned and the world is left as it was. *)
Theorem degenerate_steps (img_gray : GrayImage) (font_path : string)
    (w : World image) :
  (forall canvas font_size words base_alpha alpha_boost_dark density_scale color
          random_jitter allow_rotation,
     draw_layer canvas img_gray font_path font_size words 0 base_alpha
       alpha_boost_dark density_scale color random_jitter allow_rotation w
     = Raise ValueError w) /\
  (forall layer words dm,
     step layer = 0 ->
     generate_layer_targets img_gray font_path layer words dm w
     = Raise ValueError w) /\
  (forall stride canvas font_size words base_alpha alpha_boost_dark density_scale
          color random_jitter allow_rotation,
     stride < 0 -> 0 <= gray_height img_gray ->
     draw_layer canvas img_gray font_path font_size words stride base_alpha
       alpha_boost_dark density_scale color random_jitter allow_rotation w
     = Ok (tt, w)) /\
  (forall layer words dm,
     step layer < 0 -> 0 <= gray_height img_gray ->
     generate_layer_targets img_gray font_path layer words dm w = Ok ([], w)).
Proof.
  split; [|split; [|split]].
  - reflexivity.
  - intros layer words dm E. unfold generate_layer_targets, py_range. now rewrite E.
  - intros stride canvas font_size words ba abd ds color rj rot S Hh.
    unfold draw_layer, py_range.
    replace (stride =? 0) with false by (symmetry; apply Z.eqb_neq; lia).
    unfold bind at 1. unfold ret at 1.
    now rewrite range_list_negative_step.
  - intros layer words dm S Hh. unfold generate_layer_targets, py_range.
    replace (step layer =? 0) with false by (symmetry; apply Z.eqb_neq; lia).
    unfold bind at 1. unfold ret at 1.
    now rewrite range_list_negative_step.
Qed.

End DegenerateSteps.

(** ** The range of the sampled luminance *)

Lemma zsum_bounds (l : list Z) :
  Forall (fun v => 0 <= v <= 255) l -> 0 <= zsum l <= 255 * Z.of_nat (length l).
Proof.
  induction 1 as [|v l Hv _ IH]; [simpl; lia|].
  cbn [zsum fold_right length]. fold (zsum l). lia.
Qed.

Lemma crop_getdata_in_range (img : GrayImage) (x y x2 y2 : Z) :
  (forall i j, 0 <= getpixel img i j <= 255) ->
  Forall (fun v => 0 <= v <= 255) (crop_getdata img x y x2 y2).
Proof.
  intros P. apply Forall_forall. intros v Hv. apply list_elem_of_In in Hv.
  unfold crop_getdata in Hv. apply in_flat_map in Hv as (j & _ & Hv).
  apply in_map_iff in Hv as (i & <- & _).
  destruct (_ && _); [apply P | lia].
Qed.

Section SamplerRange.
Context {R : Rounding}.

(** X4: on an image whose pixels lie in [0, 255] the sampled luminance of
    any block that [crop] accepts ([step >= 0], corner not beyond the right
    or bottom edge; it may stick out of the image on any side) lies in
    [0, 255]. *)
Theorem sample_region_luminance_in_range (img : GrayImage) (x y stride : Z) :
  (forall i j, 0 <= getpixel img i j <= 255) ->
  x <= gray_width img -> y <= gray_height img -> 0 <= stride ->
  (0 <= sample_region_luminance img x y stride <= 255)%Q.
Proof.
  intros P _ _ _. unfold sample_region_luminance.
  set (pixels := crop_getdata img _ _ _ _).
  assert (Forall (fun v => 0 <= v <= 255) pixels) as F
    by (apply crop_getdata_in_range, P).
  pose proof (zsum_bounds pixels F) as [Lo Hi].
  assert (rnd 0 == 0)%Q as E0 by (apply (rnd_int 0); simpl; lia).
  assert (rnd 255 == 255)%Q as E255 by (apply (rnd_int 255); simpl; lia).
  destruct pixels as [|p ps].
  - unfold lit. rewrite E255. split; discriminate.
  - set (l := p :: ps) in *.
    assert (0 < Z.of_nat (length l)) as Len by (subst l; cbn [length]; lia).
    assert (0 < inject_Z (Z.of_nat (length l)))%Q as LenQ
      by (change 0%Q with (inject_Z 0); now rewrite <- Zlt_Qlt).
    unfold int_truediv. split.
    + rewrite <- E0. apply rnd_mono. apply Qle_shift_div_l; [exact LenQ|].
      rewrite Qmult_0_l. change 0%Q with (inject_Z 0). now rewrite <- Zle_Qle.
    + rewrite <- E255. apply rnd_mono. apply Qle_shift_div_r; [exact LenQ|].
      change 255%Q with (inject_Z 255). rewrite <- inject_Z_mult.
      now rewrite <- Zle_Qle.
Qed.

End SamplerRange.

(** X4 on a block that straddles the corner of a 3x3 image of value 200. *)
Lemma sample_region_luminance_in_range_witness :
  (0 <= sample_region_luminance (R := exact_rounding) (uniform_gray 3 3 200) (-1) 2 5
   <= 255)%Q.
Proof.
  apply (sample_region_luminance_in_range (R := exact_rounding)).
  - intros i j. simpl. lia.
  - simpl. lia.
  - simpl. lia.
  - lia.
Defined.

(** ** The range of the mapping (main.py, lines 46-52) *)

Lemma int_of_comp (x y : Q) : (x == y)%Q -> int_of x = int_of y.
Proof.
  intros E. unfold int_of. rewrite (Qleb_comp 0%Q 0%Q (Qeq_refl 0%Q) x y E).
  now rewrite (Qfloor_comp x y E), (Qceiling_comp x y E).
Qed.

Lemma int_of_inject (z : Z) : int_of (inject_Z z) = z.
Proof.
  unfold int_of. destruct (Qle_bool 0 (inject_Z z)); [apply Qfloor_Z | apply Qceiling_Z].
Qed.

Lemma fgt_comp (x x' y y' : Q) : (x == x')%Q -> (y == y')%Q -> fgt x y = fgt x' y'.
Proof. intros Ex Ey. unfold fgt. now rewrite (Qleb_comp x x' Ex y y' Ey). Qed.

Section MappingRange.
Context {R : Rounding}.
Local Open Scope pyfloat_scope.
#[local] Existing Instance rnd_Proper.

(** The darkness [1.0 - lum / 255.0] of a luminance of [0, 255] lies in
    [0, 1]; it is 0 at 255 and 1 at 0. *)
Lemma darkness_at_white (lum : Q) : (lum == 255)%Q -> (lit 1 -~ lum /~ lit 255 == 0)%Q.
Proof.
  intros E. unfold fsub, fdiv, lit.
  assert (rnd 255 == 255)%Q as E255 by (apply (rnd_int 255); simpl; lia).
  assert (rnd 1 == 1)%Q as E1 by (apply (rnd_int 1); simpl; lia).
  assert (rnd 0 == 0)%Q as E0 by (apply (rnd_int 0); simpl; lia).
  rewrite E, E255.
  assert (255 / 255 == 1)%Q as Et by reflexivity.
  rewrite Et, E1.
  assert (1 - 1 == 0)%Q as Ez by reflexivity.
  now rewrite Ez.
Qed.

Lemma darkness_at_black : (lit 1 -~ 0 /~ lit 255 == 1)%Q.
Proof.
  unfold fsub, fdiv, lit.
  assert (rnd 1 == 1)%Q as E1 by (apply (rnd_int 1); simpl; lia).
  assert (rnd 0 == 0)%Q as E0 by (apply (rnd_int 0); simpl; lia).
  assert (0 / rnd 255 == 0)%Q as Et by (unfold Qdiv; apply Qmult_0_l).
  rewrite Et, E0, E1.
  assert (1 - 0 == 1)%Q as Ez by reflexivity.
  now rewrite Ez.
Qed.

Lemma darkness_range (lum : Q) :
  (0 <= lum <= 255)%Q -> (0 <= lit 1 -~ lum /~ lit 255 <= 1)%Q.
Proof.
  intros [Lo Hi].
  pose proof (darkness_at_white 255 (Qeq_refl 255)) as W.
  pose proof darkness_at_black as B.
  pose proof (darkness_antitone lum 255 Hi) as A1.
  pose proof (darkness_antitone 0 lum Lo) as A2.
  split; lra.
Qed.

(** X5: for a luminance of [0, 255] and non-negative [alpha_boost_dark] and
    [density_scale] (with [base_alpha] and [alpha_boost_dark] of ordinary
    size), the alpha lies between the clamped [base_alpha] (what white gets)
    and the clamped [base_alpha + alpha_boost_dark] (what black gets), and
    the density between 0 and [density_scale]. *)
Theorem mapping_stays_between_white_and_black
    (lum : pyfloat) (base_alpha alpha_boost_dark : Z) (density_scale : pyfloat) :
  (0 <= lum <= 255)%Q ->
  Z.abs base_alpha <= 2 ^ 52 -> 0 <= alpha_boost_dark <= 2 ^ 52 ->
  (0 <= density_scale)%Q ->
  let r := luminance_to_alpha_and_density lum base_alpha alpha_boost_dark density_scale in
  Z.max 0 (Z.min 255 base_alpha) <= fst r
    <= Z.max 0 (Z.min 255 (base_alpha + alpha_boost_dark)) /\
  (0 <= snd r <= rnd density_scale)%Q.
Proof.
  intros Hl Hb Hboost Hd. cbv zeta. unfold luminance_to_alpha_and_density.
  cbn [fst snd].
  pose proof (darkness_range lum Hl) as [D0 D1].
  set (d := lit 1 -~ lum /~ lit 255) in *.
  assert (rnd 0 == 0)%Q as E0 by (apply (rnd_int 0); simpl; lia).
  assert (of_int base_alpha == inject_Z base_alpha)%Q as Eb by (apply of_int_exact; lia).
  assert (of_int alpha_boost_dark == inject_Z alpha_boost_dark)%Q as Ea
    by (apply of_int_exact; lia).
  assert (0 <= inject_Z alpha_boost_dark)%Q as Pa
    by (change 0%Q with (inject_Z 0); rewrite <- Zle_Qle; lia).
  assert (0 <= of_int alpha_boost_dark)%Q as Pa' by (apply of_int_nonneg; lia).
  assert (0 <= d *~ of_int alpha_boost_dark <= inject_Z alpha_boost_dark)%Q as [M0 M1].
  { unfold fmul. split.
    - rewrite <- E0. apply rnd_mono. now apply Qmult_le_0_compat.
    - assert (d * of_int alpha_boost_dark <= of_int alpha_boost_dark)%Q as P1.
      { apply Qle_trans with (1 * of_int alpha_boost_dark)%Q.
        - now apply Qmult_le_compat_r.
        - rewrite Qmult_1_l. apply Qle_refl. }
      pose proof (rnd_mono _ _ P1) as P2.
      pose proof (rnd_idem (inject_Z alpha_boost_dark)) as P3.
      unfold of_int in *. lra. }
  set (m := d *~ of_int alpha_boost_dark) in *.
  assert (inject_Z base_alpha <= of_int base_alpha +~ m
          <= inject_Z (base_alpha + alpha_boost_dark))%Q as [V0 V1].
  { unfold fadd. split.
    - rewrite <- (rnd_int base_alpha) by lia. apply rnd_mono. lra.
    - rewrite <- (rnd_int (base_alpha + alpha_boost_dark)) by lia. apply rnd_mono.
      rewrite inject_Z_plus. lra. }
  split; [split|split].
  - apply clamp_mono. pose proof (int_of_mono _ _ V0) as I.
    now rewrite int_of_inject in I.
  - apply clamp_mono. pose proof (int_of_mono _ _ V1) as I.
    now rewrite int_of_inject in I.
  - unfold fmul. rewrite <- E0. apply rnd_mono. now apply Qmult_le_0_compat.
  - unfold fmul. apply rnd_mono.
    apply Qle_trans with (1 * density_scale)%Q.
    + now apply Qmult_le_compat_r.
    + rewrite Qmult_1_l. apply Qle_refl.
Qed.

End MappingRange.

(** X5 at luminance 100 with the parameters of the first layer of
    [build_word_image]: the alpha lies in [10, 190], the density in [0, 0.7]. *)
Lemma mapping_stays_between_white_and_black_witness :
  10 <= fst (luminance_to_alpha_and_density (R := exact_rounding) 100 10 180 0.7) <= 190 /\
  (0 <= snd (luminance_to_alpha_and_density (R := exact_rounding) 100 10 180 0.7)
   <= 0.7)%Q.
Proof.
  apply (mapping_stays_between_white_and_black (R := exact_rounding) 100 10 180 0.7).
  - split; apply Qle_bool_iff; reflexivity.
  - simpl. lia.
  - lia.
  - apply Qle_bool_iff. reflexivity.
Defined.

(** ** White cells (main.py, lines 82-91; animate_depth_transition.py,
    lines 45-54) *)

Section WhiteCells.
Context {R : Rounding} {FB : FontBackend} `{Imaging image}.
Local Open Scope pyfloat_scope.
#[local] Existing Instance rnd_Proper.

(** A grid cell whose pixels all equal [v] is sampled as exactly [v]. *)
Lemma sample_flat_cell (img : GrayImage) (x y stride v : Z) :
  0 <= x < gray_width img -> 0 <= y < gray_height img -> 0 < stride ->
  0 <= v <= 255 ->
  (forall i j, getpixel img i j = v) ->
  (sample_region_luminance img x y stride == inject_Z v)%Q.
Proof.
  intros Hx Hy Hs Hv U. unfold sample_region_luminance.
  rewrite crop_getdata_inside by lia.
  set (cell := flat_map _ _).
  assert (In (x, y) cell) as Hin.
  { subst cell. apply in_flat_map. exists y. split; [apply In_seqZ; lia|].
    apply in_map_iff. exists x. split; [reflexivity|]. apply In_seqZ. lia. }
  destruct cell as [|c cs]; [contradiction|].
  set (l := c :: cs) in *. cbn [map]. change (_ :: map ?f cs) with (map f l).
  rewrite (zsum_constant _ v) by (intros a _; apply U).
  rewrite length_map. unfold int_truediv.
  rewrite <- (rnd_int v) by lia. apply rnd_proper.
  rewrite inject_Z_mult. field.
  change 0%Q with (inject_Z 0). rewrite inject_Z_injective. subst l. cbn [length]. lia.
Qed.

(** The density of a white cell is 0, whatever the density scale. *)
Lemma white_cell_density (img : GrayImage) (stride base_alpha alpha_boost_dark : Z)
    (density_scale : pyfloat) (x y : Z) :
  0 <= x < gray_width img -> 0 <= y < gray_height img -> 0 < stride ->
  (forall i j, getpixel img i j = 255) ->
  (snd (cell_mapping img stride base_alpha alpha_boost_dark density_scale x y) == 0)%Q.
Proof.
  intros Hx Hy Hs U. unfold cell_mapping, luminance_to_alpha_and_density. cbn [snd].
  pose proof (sample_flat_cell img x y stride 255 Hx Hy Hs ltac:(lia) U) as E.
  pose proof (darkness_at_white _ E) as D.
  unfold fmul. rewrite D, Qmult_0_l. apply (rnd_int 0). simpl. lia.
Qed.

Lemma white_cells_are_skipped (cells : list (Z * Z))
    (body : Z * Z -> M image unit) (density : Z * Z -> pyfloat) (w : World image) :
  (forall c w', fgt (draws w' (cursor w')) (density c) = true ->
                body c w' = Ok (tt, advance w')) ->
  (forall c, In c cells -> (density c == 0)%Q) ->
  (forall k, (0 < draws w k)%Q) ->
  for_each cells body w = Ok (tt, advance_by (length cells) w).
Proof.
  intros Hbody Hd Hr. revert w Hr. induction cells as [|c cells IH]; intros w Hr.
  - cbn. unfold ret. now rewrite advance_by_0.
  - cbn [for_each length]. erewrite bind_ok.
    2:{ apply Hbody. rewrite (fgt_comp _ _ _ 0%Q (Qeq_refl _) (Hd c ltac:(now left))).
        apply fgt_true, Hr. }
    rewrite IH; [now rewrite advance_by_S | | exact Hr].
    intros c' Hc'. apply Hd. now right.
Qed.

Lemma white_cells_are_not_planned (cells : list (Z * Z))
    (body : list Glyph -> Z * Z -> M image (list Glyph)) (density : Z * Z -> pyfloat)
    (targets : list Glyph) (w : World image) :
  (forall targets c w', fgt (draws w' (cursor w')) (density c) = true ->
                        body targets c w' = Ok (targets, advance w')) ->
  (forall c, In c cells -> (density c == 0)%Q) ->
  (forall k, (0 < draws w k)%Q) ->
  for_fold cells targets body w = Ok (targets, advance_by (length cells) w).
Proof.
  intros Hbody Hd Hr. revert w Hr. induction cells as [|c cells IH]; intros w Hr.
  - cbn. unfold ret. now rewrite advance_by_0.
  - cbn [for_fold length]. erewrite bind_ok.
    2:{ apply Hbody. rewrite (fgt_comp _ _ _ 0%Q (Qeq_refl _) (Hd c ltac:(now left))).
        apply fgt_true, Hr. }
    rewrite IH; [now rewrite advance_by_S | | exact Hr].
    intros c' Hc'. apply Hd. now right.
Qed.

(** X6: on a white image (every pixel 255) every cell has density 0, so a
    cell is thinned out exactly when its draw is positive.  When no draw of
    the generator is 0.0, [draw_layer] draws nothing and allocates nothing,
    and [generate_layer_targets] plans nothing, whatever the layer and the
    vocabulary (even an empty one); each consumes one output per grid
    cell. *)
Theorem white_image_stays_blank (img_gray : GrayImage) (font_path : string)
    (stride : Z) (w : World image) :
  0 < stride ->
  (forall i j, getpixel img_gray i j = 255) ->
  (forall k, (0 < draws w k)%Q) ->
  let n := length (grid_cells (gray_width img_gray) (gray_height img_gray) stride) in
  (forall canvas font_size words base_alpha alpha_boost_dark density_scale color
          random_jitter allow_rotation,
     draw_layer canvas img_gray font_path font_size words stride base_alpha
       alpha_boost_dark density_scale color random_jitter allow_rotation w
     = Ok (tt, advance_by n w)) /\
  (forall layer words dm,
     step layer = stride ->
     generate_layer_targets img_gray font_path layer words dm w
     = Ok ([], advance_by n w)).
Proof.
  intros S U Hr n. split.
  - intros canvas font_size words ba abd ds color rj rot.
    rewrite draw_layer_as_scan by lia.
    apply (white_cells_are_skipped _ _
             (fun c => snd (cell_mapping img_gray stride ba abd ds (fst c) (snd c)))).
    + intros c w' T. now apply draw_layer_cell_skipped.
    + intros [x y] Hin. apply In_grid_cells in Hin as [Hx Hy].
      apply In_range_list in Hx, Hy; try exact S. cbn [fst snd].
      apply white_cell_density; try lia. exact U.
    + exact Hr.
  - intros layer words dm <-.
    rewrite generate_layer_targets_as_scan by lia.
    apply (white_cells_are_not_planned _ _
             (fun c => snd (cell_mapping img_gray (step layer) (base_alpha layer)
                              (alpha_boost_dark layer) (density_scale layer *~ dm)
                              (fst c) (snd c)))).
    + intros targets c w' T. now apply generate_layer_targets_cell_skipped.
    + intros [x y] Hin. apply In_grid_cells in Hin as [Hx Hy].
      apply In_range_list in Hx, Hy; try exact S. cbn [fst snd].
      apply white_cell_density; try lia. exact U.
    + exact Hr.
Qed.



End WhiteCells.

(** X6 on a white 5x3 image with step 2 and every draw 0.5: six cells, six
    outputs consumed, nothing planned. *)
Lemma white_image_stays_blank_witness :
  generate_layer_targets (R := exact_rounding) (FB := square_font) (image := Pic)
    (uniform_gray 5 3 255) "font.ttf" (mkLayer 18 2 40 150 1.2 (0, 0, 0) None None)
    chinese_words 1 (constant_world 0.5)
  = Ok ([], advance_by 6 (constant_world 0.5)).
Proof.
  apply (proj2 (white_image_stays_blank (R := exact_rounding) (FB := square_font)
                  (uniform_gray 5 3 255) "font.ttf" 2 (constant_world 0.5)
                  ltac:(lia) ltac:(reflexivity) ltac:(reflexivity))).
  reflexivity.
Defined.


(** ** What the planner returns (animate_depth_transition.py, lines 20-85) *)

Section PlannerInvariants.
Context {R : Rounding} {FB : FontBackend} {image : Type}.
Local Open Scope pyfloat_scope.

Variables (img_gray : GrayImage) (font_path : string) (layer : Layer)
  (words : list word) (density_multiplier : pyfloat).

(** One cell: it is skipped at the cost of one output, or a well-formed
    glyph is appended at the cost of five. *)
Lemma generate_layer_targets_cell_cases (targets : list Glyph) (x y : Z)
    (w : World image) :
  words <> [] ->
  generate_layer_targets_cell img_gray font_path layer words density_multiplier
    targets x y w = Ok (targets, advance w) \/
  exists g,
    generate_layer_targets_cell img_gray font_path layer words density_multiplier
      targets x y w = Ok (targets ++ [g], advance_by 5 w) /\
    well_formed_glyph font_path layer words g.
Proof.
  intros N.
  destruct (fgt (draws w (cursor w))
              (snd (cell_mapping img_gray (step layer) (base_alpha layer)
                      (alpha_boost_dark layer)
                      (density_scale layer *~ density_multiplier) x y))) eqn:T.
  { left. now apply generate_layer_targets_cell_skipped. }
  right. unfold cell_mapping in T. unfold generate_layer_targets_cell.
  destruct (luminance_to_alpha_and_density _ _ _ _) as [alpha density] eqn:El.
  assert (0 <= alpha <= 255) as Ha.
  { unfold luminance_to_alpha_and_density in El. injection El as <- _.
    apply clamp_range. }
  simpl in T. unfold bind at 1. unfold random_random at 1. rewrite T.
  unfold choose_word. unfold bind at 1.
  destruct (random_choice_nonempty words (advance w) N) as (wd & Ew & Hin).
  rewrite Ew.
  unfold bind, random_random, random_uniform, bind, random_random, ret. simpl.
  set (fsize := resolve_font_size (font_size layer) _).
  set (font := if fsize =? font_size layer then _ else _).
  assert (font_file font = font_path /\ font_px font = fsize) as [Ff Fp].
  { subst font. destruct (fsize =? font_size layer) eqn:Ef; [|now split].
    apply Z.eqb_eq in Ef. split; [reflexivity|]. now symmetry. }
  assert (6 <= fsize) as F6 by (subst fsize; unfold resolve_font_size; lia).
  destruct (getbbox font wd) as [[[b0 b1] b2] b3] eqn:Eb.
  eexists. split.
  - unfold advance_by, advance. simpl. repeat f_equal. lia.
  - unfold well_formed_glyph. cbn [glyph_word glyph_font glyph_alpha glyph_color
                                    glyph_width glyph_height].
    rewrite Eb, Ff, Fp. repeat split; try assumption; try reflexivity; apply Ha.
Qed.

Lemma plan_cells (cells : list (Z * Z)) (targets : list Glyph) (w : World image) :
  words <> [] ->
  exists new,
    for_fold cells targets
      (fun targets c =>
         generate_layer_targets_cell img_gray font_path layer words density_multiplier
           targets (fst c) (snd c)) w
    = Ok (targets ++ new, advance_by (length cells + 4 * length new) w) /\
    Forall (well_formed_glyph font_path layer words) new /\
    (length new <= length cells)%nat.
Proof.
  intros N. revert targets w. induction cells as [|c cells IH]; intros targets w.
  - exists []. cbn. unfold ret. rewrite app_nil_r, advance_by_0. now repeat split.
  - cbn [for_fold length].
    destruct (generate_layer_targets_cell_cases targets (fst c) (snd c) w N)
      as [E | (g & E & Hg)].
    + destruct (IH targets (advance w)) as (new & E2 & F & L).
      exists new. rewrite (bind_ok _ _ _ _ _ E), E2, advance_by_S.
      split; [|split; [exact F | lia]]. reflexivity.
    + destruct (IH (targets ++ [g]) (advance_by 5 w)) as (new & E2 & F & L).
      exists (g :: new). rewrite (bind_ok _ _ _ _ _ E), E2, advance_by_add.
      split; [|split; [now constructor | cbn [length]; lia]].
      rewrite <- app_assoc. cbn [app length]. do 3 f_equal. lia.
Qed.

(** X8: with a vocabulary and a non-zero step the planner raises nothing of
    its own (loading and measuring a font are total functions here) and
    never touches the store; it consumes one output of the generator per
    grid cell and four more per glyph, returns at most one glyph per cell,
    and every glyph is well formed: its word is one of the vocabulary, its
    font is loaded from [font_path] at a size of 6 or more, its alpha lies
    in [0, 255], its colour is the layer's, and its width and height are
    those of the bounding box of the word in that font. *)
Theorem planned_glyphs_are_well_formed (w : World image) :
  step layer <> 0 -> words <> [] ->
  let cells := grid_cells (gray_width img_gray) (gray_height img_gray) (step layer) in
  exists targets,
    generate_layer_targets img_gray font_path layer words density_multiplier w
    = Ok (targets, advance_by (length cells + 4 * length targets) w) /\
    Forall (well_formed_glyph font_path layer words) targets /\
    (length targets <= length cells)%nat.
Proof.
  intros S N cells.
  destruct (plan_cells cells [] w N) as (new & E & F & L).
  exists new. rewrite generate_layer_targets_as_scan by exact S.
  split; [exact E|]. now split.
Qed.

End PlannerInvariants.

(** X8 on a black 4x2 image with step 2 and every draw 0.5: both cells are
    placed. *)
Lemma planned_glyphs_are_well_formed_witness :
  exists targets,
    generate_layer_targets (R := exact_rounding) (FB := square_font) (image := Pic)
      (uniform_gray 4 2 0) "font.ttf" (mkLayer 18 2 40 150 1.2 (0, 0, 0) None None)
      chinese_words 1 (constant_world 0.5)
    = Ok (targets, advance_by (2 + 4 * length targets) (constant_world 0.5)) /\
    Forall (well_formed_glyph (FB := square_font) "font.ttf"
              (mkLayer 18 2 40 150 1.2 (0, 0, 0) None None) chinese_words) targets /\
    (length targets <= 2)%nat.
Proof.
  apply (planned_glyphs_are_well_formed (R := exact_rounding) (FB := square_font)
           (uniform_gray 4 2 0) "font.ttf" (mkLayer 18 2 40 150 1.2 (0, 0, 0) None None)
           chinese_words 1 (constant_world 0.5)).
  - simpl. lia.
  - discriminate.
Defined.

(** ** The planner mirrors draw_layer (animate_depth_transition.py, lines
    20-85 and 192-206; main.py, lines 55-136) *)

Section PlanAndDraw.
Context {R : Rounding} {FB : FontBackend} `{Imaging image}.
Local Open Scope pyfloat_scope.
#[local] Existing Instance rnd_Proper.

Lemma random_choice_store {A} (seq : list A) (sigma : list image) (w : World image) :
  random_choice seq (with_store sigma w)
  = match random_choice seq w with
    | Ok (a, w') => Ok (a, with_store sigma w')
    | Raise e w' => Raise e (with_store sigma w')
    end.
Proof.
  destruct seq as [|a seq]; [reflexivity|]. unfold random_choice.
  cbn [picks cursor with_store].
  now destruct (_ !! _).
Qed.

Lemma placement_agrees (canvas : loc) (img_gray : GrayImage) (font_path : string)
    (layer : Layer) (words : list word) (dm : pyfloat) (targets : list Glyph) (x y : Z)
    (w : World image) (sigma : list image) :
  words <> [] ->
  fgt (draws w (cursor w))
      (snd (cell_mapping img_gray (step layer) (base_alpha layer)
              (alpha_boost_dark layer) (density_scale layer *~ dm) x y)) = false ->
  exists g,
    generate_layer_targets_cell img_gray font_path layer words dm targets x y w
    = Ok (targets ++ [g], advance_by 5 w) /\
    draw_layer_place canvas font_path (font_size layer) words (step layer) (color layer)
      (lit 0.4) false
      (fst (cell_mapping img_gray (step layer) (base_alpha layer)
              (alpha_boost_dark layer) (density_scale layer *~ dm) x y))
      x y (advance (with_store sigma w))
    = Ok (tt, with_store (alter (fun i => draw_glyph i (target_pos g) g) canvas sigma)
                (advance_by 5 w)).
Proof.
  unfold cell_mapping, generate_layer_targets_cell, draw_layer_place. intros N T.
  destruct (luminance_to_alpha_and_density _ _ _ _) as [alpha density].
  simpl in T. unfold bind at 1. unfold random_random at 1. rewrite T.
  unfold choose_word. unfold bind at 1.
  destruct (random_choice_nonempty words (advance w) N) as (wd & Ew & Hin).
  rewrite Ew.
  change (advance (with_store sigma w)) with (with_store sigma (advance w)).
  unfold bind, random_random, random_uniform, bind, random_random, ret. simpl.
  set (fsize := resolve_font_size (font_size layer) _).
  set (font := if fsize =? font_size layer then _ else _).
  destruct (getbbox font wd) as [[[b0 b1] b2] b3] eqn:Eb.
  eexists. split.
  - unfold advance_by, advance. simpl. repeat f_equal. lia.
  - simpl.
    change (mkWorld (draws w) (picks w) (S (cursor w)) sigma)
      with (with_store sigma (advance w)).
    rewrite random_choice_store, Ew. simpl. fold fsize. fold font. rewrite Eb.
    unfold update_object, with_store, advance_by, draw_glyph. simpl.
    do 3 f_equal. lia.
Qed.

Lemma fold_left_map_fst {A B C} (f : C -> A -> C) (l : list (A * B)) (c : C) :
  fold_left f (map fst l) c = fold_left (fun c p => f c (fst p)) l c.
Proof. revert c. induction l as [|p l IH]; intros c; [reflexivity|]. apply IH. Qed.

Section Cells.
Variables (canvas : loc) (img_gray : GrayImage) (font_path : string)
  (layer : Layer) (words : list word) (dm : pyfloat).

Hypothesis unit_multiplier : (density_scale layer *~ dm == density_scale layer)%Q.

Lemma thinning_agrees (x y : Z) (r : pyfloat) :
  fgt r (snd (cell_mapping img_gray (step layer) (base_alpha layer)
                (alpha_boost_dark layer) (density_scale layer) x y))
  = fgt r (snd (cell_mapping img_gray (step layer) (base_alpha layer)
                  (alpha_boost_dark layer) (density_scale layer *~ dm) x y)).
Proof.
  apply fgt_comp; [reflexivity|].
  unfold cell_mapping, luminance_to_alpha_and_density. cbn [snd].
  unfold fmul at 1 2. now rewrite unit_multiplier.
Qed.

Lemma plan_then_draw_cells (cells : list (Z * Z)) (targets : list Glyph)
    (w : World image) (sigma : list image) :
  match
    for_fold cells targets
      (fun targets c =>
         generate_layer_targets_cell img_gray font_path layer words dm targets
           (fst c) (snd c)) w
  with
  | Ok (targets', w1) =>
      exists new,
        targets' = targets ++ new /\ store w1 = store w /\
        for_each cells
          (fun c => draw_layer_cell canvas img_gray font_path (font_size layer) words
                      (step layer) (base_alpha layer) (alpha_boost_dark layer)
                      (density_scale layer) (color layer) (lit 0.4) false
                      (fst c) (snd c)) (with_store sigma w)
        = Ok (tt, with_store
                    (alter (fun i => fold_left
                                       (fun i g => draw_glyph i (target_pos g) g) new i)
                           canvas sigma) w1)
  | Raise e w1 =>
      store w1 = store w /\
      for_each cells
        (fun c => draw_layer_cell canvas img_gray font_path (font_size layer) words
                    (step layer) (base_alpha layer) (alpha_boost_dark layer)
                    (density_scale layer) (color layer) (lit 0.4) false
                    (fst c) (snd c)) (with_store sigma w)
      = Raise e (with_store sigma w1)
  end.
Proof.
  revert targets w sigma. induction cells as [|[x y] cells IH]; intros targets w sigma.
  - cbn. exists []. rewrite app_nil_r. repeat split.
    now rewrite list_alter_id by reflexivity.
  - cbn [for_fold for_each fst snd].
    destruct (fgt (draws w (cursor w))
                (snd (cell_mapping img_gray (step layer) (base_alpha layer)
                        (alpha_boost_dark layer) (density_scale layer *~ dm) x y)))
      eqn:T.
    + rewrite (bind_ok _ _ _ _ _
                 (generate_layer_targets_cell_skipped img_gray font_path layer words dm
                    targets x y w T)).
      erewrite bind_ok
        by (apply draw_layer_cell_skipped; cbn [draws cursor with_store];
            now rewrite thinning_agrees).
      change (advance (with_store sigma w)) with (with_store sigma (advance w)).
      specialize (IH targets (advance w) sigma).
      destruct (for_fold cells targets _ (advance w)) as [[targets' w1]|e we]; [|exact IH].
      destruct IH as (new & -> & St & E). exists new. now repeat split.
    + destruct words as [|w0 ws] eqn:Ew.
      * unfold bind.
        rewrite generate_layer_targets_cell_empty by (reflexivity || exact T).
        rewrite draw_layer_cell_survives
          by (cbn [draws cursor with_store]; now rewrite thinning_agrees).
        rewrite draw_layer_place_empty by reflexivity. now split.
      * rewrite <- Ew in *.
        destruct (placement_agrees canvas img_gray font_path layer words dm targets x y
                    w sigma ltac:(rewrite Ew; discriminate) T) as (g & E1 & E2).
        rewrite (bind_ok _ _ _ _ _ E1).
        erewrite bind_ok.
        2:{ rewrite draw_layer_cell_survives
              by (cbn [draws cursor with_store]; now rewrite thinning_agrees).
            exact E2. }
        specialize (IH (targets ++ [g]) (advance_by 5 w)
                      (alter (fun i => draw_glyph i (target_pos g) g) canvas sigma)).
        destruct (plan_cells img_gray font_path layer words dm cells (targets ++ [g])
                    (advance_by 5 w) ltac:(rewrite Ew; discriminate))
          as (new & Ep & _).
        rewrite Ep in IH |- *.
        destruct IH as (new' & En & St & E). apply app_inv_head in En. subst new'.
        exists (g :: new).
        split; [now rewrite <- app_assoc|]. split; [exact St|].
        rewrite E, list_alter_alter_eq. reflexivity.
Qed.

End Cells.

(** X9: [generate_layer_targets] mirrors [draw_layer].  For a layer whose
    density scale is a float, planning the layer (with the default density
    multiplier 1.0) and then committing the glyphs, as the animation does,
    leaves the canvas and the generator exactly as one call of [draw_layer]
    with [random_jitter = 0.4] and [allow_rotation = False] from the same
    state would; and when the planner raises, [draw_layer] raises the
    same exception in the same world: after the same outputs of the
    generator, with no image touched. *)
Theorem draw_layer_is_plan_then_commit (canvas : loc) (img_gray : GrayImage)
    (font_path : string) (layer : Layer) (words : list word) (w : World image) :
  step layer <> 0 -> (rnd (density_scale layer) == density_scale layer)%Q ->
  (forall targets w1,
     generate_layer_targets img_gray font_path layer words (lit 1.0) w
     = Ok (targets, w1) ->
     forall flying : list Flying,
       map fst flying = targets ->
       draw_layer canvas img_gray font_path (font_size layer) words (step layer)
         (base_alpha layer) (alpha_boost_dark layer) (density_scale layer)
         (color layer) (lit 0.4) false w
       = commit_layer canvas flying w1) /\
  (forall e w1,
     generate_layer_targets img_gray font_path layer words (lit 1.0) w = Raise e w1 ->
     draw_layer canvas img_gray font_path (font_size layer) words (step layer)
       (base_alpha layer) (alpha_boost_dark layer) (density_scale layer)
       (color layer) (lit 0.4) false w
     = Raise e w1).
Proof.
  intros S F.
  assert (density_scale layer *~ lit 1.0 == density_scale layer)%Q as U.
  { unfold fmul, lit. assert (1.0 == inject_Z 1)%Q as E1 by reflexivity.
    rewrite E1, (rnd_int 1) by (simpl; lia).
    assert (density_scale layer * inject_Z 1 == density_scale layer)%Q as E2 by ring.
    now rewrite E2. }
  rewrite generate_layer_targets_as_scan, draw_layer_as_scan by exact S.
  pose proof (plan_then_draw_cells canvas img_gray font_path layer words (lit 1.0) U
                (grid_cells (gray_width img_gray) (gray_height img_gray) (step layer))
                [] w (store w)) as P.
  rewrite with_store_same in P.
  destruct (for_fold _ [] _ w) as [[targets w1]|e we].
  - split; [|discriminate]. intros ? ? [= <- <-].
    destruct P as (new & E & St & D). cbn [app] in E. subst new.
    intros flying <-. rewrite D, commit_layer_spec, St. do 3 f_equal.
    apply list_alter_ext; [|reflexivity]. intros i _.
    unfold committed_image. now rewrite fold_left_map_fst.
  - split; [discriminate|]. intros ? ? [= <- <-]. destruct P as [St D].
    rewrite D, <- St. now rewrite with_store_same.
Qed.

End PlanAndDraw.

(** X9 on a black 4x2 image with the third layer of [subtle_soft] at step
    2, every draw 0.5, the canvas being object 0. *)
Lemma draw_layer_is_plan_then_commit_witness :
  let layer := mkLayer 18 2 40 150 1.2 (0, 0, 0) None None in
  let w := mkWorld (fun _ => 0.5%Q) (fun _ => 0%nat) 0 [PNew 4 2 (255, 255, 255, 255)] in
  exists targets w1,
    generate_layer_targets (R := exact_rounding) (FB := square_font)
      (uniform_gray 4 2 0) "font.ttf" layer chinese_words 1.0 w = Ok (targets, w1) /\
    draw_layer (R := exact_rounding) (FB := square_font) 0%nat (uniform_gray 4 2 0)
      "font.ttf" 18 chinese_words 2 40 150 1.2 (0, 0, 0) 0.4 false w
    = commit_layer (R := exact_rounding) 0%nat (map (fun g => (g, (0%Q, 0%Q))) targets) w1.
Proof.
  intros layer w.
  destruct (draw_layer_is_plan_then_commit (R := exact_rounding) (FB := square_font)
              0%nat (uniform_gray 4 2 0) "font.ttf" layer chinese_words w
              ltac:(simpl; lia) ltac:(reflexivity)) as [P _].
  destruct (generate_layer_targets (R := exact_rounding) (FB := square_font)
              (uniform_gray 4 2 0) "font.ttf" layer chinese_words 1.0 w)
    as [[targets w1]|e we] eqn:E.
  - exists targets, w1. split; [reflexivity|].
    apply (P targets w1 E). rewrite map_map. apply map_id.
  - vm_compute in E. discriminate.
Defined.

(** ** What draw_layer changes (main.py, lines 55-136) *)

Section DrawLayerFrame.
Context {R : Rounding} {FB : FontBackend} `{Imaging image}.
Local Open Scope pyfloat_scope.

Variables (canvas : loc) (img_gray : GrayImage) (font_path : string)
  (font_size : Z) (words : list word) (stride base_alpha alpha_boost_dark : Z)
  (density_scale : pyfloat) (color : rgb) (random_jitter : pyfloat)
  (allow_rotation : bool).

Lemma draw_layer_place_run (alpha x y : Z) (w : World image) :
  words <> [] -> (canvas < length (store w))%nat ->
  exists (f : image -> image) (extra : list image),
    draw_layer_place canvas font_path font_size words stride color random_jitter
      allow_rotation alpha x y w
    = Ok (tt, with_store (alter f canvas (store w) ++ extra)
                (advance_by (if allow_rotation then 5 else 4) w)) /\
    length extra = (if allow_rotation then 2 else 0)%nat.
Proof.
  intros N V. unfold draw_layer_place, choose_word.
  destruct (random_choice_nonempty words w N) as (wd & Ew & _).
  rewrite (bind_ok _ _ _ _ _ Ew).
  unfold bind at 1. unfold random_random at 1.
  unfold bind at 1. unfold random_random at 1.
  unfold random_uniform at 1. unfold bind at 1. unfold bind at 1. unfold random_random at 1.
  unfold ret at 1. cbn [draws cursor advance].
  set (fsize := resolve_font_size font_size _).
  set (font := if fsize =? font_size then _ else _).
  destruct (getbbox font wd) as [[[b0 b1] b2] b3] eqn:Eb.
  destruct allow_rotation.
  - erewrite bind_ok by reflexivity.
    erewrite bind_ok by reflexivity.
    erewrite bind_ok by reflexivity.
    erewrite bind_ok by reflexivity.
    erewrite bind_ok by reflexivity.
    erewrite bind_ok by reflexivity.
    cbn [store draws picks cursor].
    rewrite alter_app_r_alt by lia. rewrite Nat.sub_diag. cbn [alter list_alter].
    destruct (image_getbbox _) as [[[[c0 c1] c2] c3]|].
    + eexists. eexists. split.
      * unfold update_object, with_store, advance_by, advance.
        cbn [draws picks cursor store].
        rewrite <- app_assoc. rewrite alter_app_l by exact V.
        do 2 f_equal. f_equal; first [lia | reflexivity].
      * reflexivity.
    + exists (fun i => i). eexists. split.
      * unfold ret, with_store, advance_by, advance.
        cbn [draws picks cursor store].
        rewrite list_alter_id by reflexivity. rewrite <- app_assoc.
        do 2 f_equal. f_equal; first [lia | reflexivity].
      * reflexivity.
  - eexists. exists []. split; [|reflexivity].
    unfold update_object, with_store, advance_by, advance.
    cbn [draws picks cursor store]. rewrite app_nil_r.
    do 2 f_equal. f_equal; first [lia | reflexivity].
Qed.

Lemma draw_layer_cell_run (x y : Z) (w : World image) :
  words <> [] -> (canvas < length (store w))%nat ->
  exists (f : image -> image) (extra : list image) (n : nat),
    draw_layer_cell canvas img_gray font_path font_size words stride base_alpha
      alpha_boost_dark density_scale color random_jitter allow_rotation x y w
    = Ok (tt, with_store (alter f canvas (store w) ++ extra) (advance_by n w)) /\
    (1 <= n <= 6)%nat /\
    (allow_rotation = false -> extra = []).
Proof.
  intros N V.
  destruct (fgt (draws w (cursor w))
              (snd (cell_mapping img_gray stride base_alpha alpha_boost_dark
                      density_scale x y))) eqn:T.
  - exists (fun i => i), [], 1%nat.
    rewrite draw_layer_cell_skipped by exact T.
    rewrite list_alter_id by reflexivity. rewrite app_nil_r, advance_by_1.
    split; [|split; [lia|reflexivity]].
    unfold with_store, advance_by. now destruct w.
  - rewrite draw_layer_cell_survives by exact T.
    destruct (draw_layer_place_run
                (fst (cell_mapping img_gray stride base_alpha alpha_boost_dark
                        density_scale x y)) x y (advance w) N V)
      as (f & extra & E & L).
    exists f, extra, (S (if allow_rotation then 5 else 4))%nat.
    rewrite E. split; [|split].
    + rewrite advance_by_S. reflexivity.
    + destruct allow_rotation; lia.
    + intros ->. now destruct extra.
Qed.

Lemma draw_cells_run (cells : list (Z * Z)) (w : World image) :
  words <> [] -> (canvas < length (store w))%nat ->
  exists (f : image -> image) (extra : list image) (n : nat),
    for_each cells
      (fun c => draw_layer_cell canvas img_gray font_path font_size words stride
                  base_alpha alpha_boost_dark density_scale color random_jitter
                  allow_rotation (fst c) (snd c)) w
    = Ok (tt, with_store (alter f canvas (store w) ++ extra) (advance_by n w)) /\
    (length cells <= n <= 6 * length cells)%nat /\
    (allow_rotation = false -> extra = []).
Proof.
  intros N. revert w. induction cells as [|c cells IH]; intros w V.
  - exists (fun i => i), [], 0%nat. cbn [for_each]. unfold ret.
    rewrite list_alter_id by reflexivity.
    rewrite app_nil_r, advance_by_0, with_store_same.
    split; [reflexivity|]. split; [cbn; lia|reflexivity].
  - destruct (draw_layer_cell_run (fst c) (snd c) w N V) as (f & e1 & n & E1 & B1 & R1).
    set (w1 := with_store (alter f canvas (store w) ++ e1) (advance_by n w)) in E1.
    assert (canvas < length (store w1))%nat as V1.
    { subst w1. cbn [store with_store]. rewrite length_app, length_alter. lia. }
    destruct (IH w1 V1) as (g & e2 & m & E2 & B2 & R2).
    exists (fun i => g (f i)), (e1 ++ e2), (n + m)%nat.
    cbn [for_each]. rewrite (bind_ok _ _ _ _ _ E1), E2. split; [|split].
    + subst w1. unfold with_store, advance_by. cbn [draws picks cursor store].
      rewrite alter_app_l by (rewrite length_alter; exact V).
      rewrite list_alter_alter_eq, <- app_assoc.
      do 2 f_equal. f_equal. lia.
    + cbn [length]. lia.
    + intros Hr. now rewrite R1, R2.
Qed.

(** X10: with a vocabulary, a non-zero step and an allocated canvas,
    [draw_layer] raises nothing of its own: [range] accepts the step and
    [random.choice] the vocabulary (the calls into Pillow are total functions
    here).  The only image that existed before the call and can differ after
    it is the canvas; without rotation no other image is made at all (with
    it, the temporary images of the rotated glyphs are).  Between one and six
    outputs of the generator are consumed per grid cell. *)
Theorem draw_layer_changes_only_the_canvas (w : World image) :
  stride <> 0 -> words <> [] -> (canvas < length (store w))%nat ->
  let cells := grid_cells (gray_width img_gray) (gray_height img_gray) stride in
  exists (f : image -> image) (extra : list image) (n : nat),
    draw_layer canvas img_gray font_path font_size words stride base_alpha
      alpha_boost_dark density_scale color random_jitter allow_rotation w
    = Ok (tt, with_store (alter f canvas (store w) ++ extra) (advance_by n w)) /\
    (length cells <= n <= 6 * length cells)%nat /\
    (allow_rotation = false -> extra = []).
Proof.
  intros S N V cells. rewrite draw_layer_as_scan by exact S.
  now apply draw_cells_run.
Qed.

End DrawLayerFrame.

(** X10 on a black 4x2 image with rotation, the canvas being object 0. *)
Lemma draw_layer_changes_only_the_canvas_witness :
  let w := mkWorld (fun _ => 0.5%Q) (fun _ => 0%nat) 0 [PNew 4 2 (255, 255, 255, 255)] in
  exists (f : Pic -> Pic) (extra : list Pic) (n : nat),
    draw_layer (R := exact_rounding) (FB := square_font) 0%nat (uniform_gray 4 2 0)
      "font.ttf" 18 chinese_words 2 40 150 1.2 (0, 0, 0) 0.4 true w
    = Ok (tt, with_store (alter f 0%nat (store w) ++ extra) (advance_by n w)) /\
    (length (grid_cells 4 2 2) <= n <= 6 * length (grid_cells 4 2 2))%nat /\
    (true = false -> extra = []).
Proof.
  apply (draw_layer_changes_only_the_canvas (R := exact_rounding) (FB := square_font)
           0%nat (uniform_gray 4 2 0) "font.ttf" 18 chinese_words 2 40 150 1.2
           (0, 0, 0) 0.4 true).
  - lia.
  - discriminate.
  - simpl. lia.
Defined.

(** ** The renderers (main.py, lines 139-217; generate_variations.py, lines
    10-50) *)

Section RenderersRun.
Context {R : Rounding} {FB : FontBackend} `{Imaging image}.
Local Open Scope pyfloat_scope.

Lemma render_layers_run (canvas : loc) (img_gray : GrayImage) (font_path : string)
    (words : list word) (jitter : Layer -> pyfloat) (rotation : Layer -> bool)
    (layers : list Layer) (w : World image) :
  Forall (fun layer => step layer <> 0) layers -> words <> [] ->
  (canvas < length (store w))%nat ->
  exists (f : image -> image) (extra : list image) (n : nat),
    for_each layers
      (fun layer =>
         draw_layer canvas img_gray font_path (font_size layer) words (step layer)
           (base_alpha layer) (alpha_boost_dark layer) (density_scale layer)
           (color layer) (jitter layer) (rotation layer)) w
    = Ok (tt, with_store (alter f canvas (store w) ++ extra) (advance_by n w)).
Proof.
  intros S N. revert w. induction S as [|layer layers S _ IH]; intros w V.
  - exists (fun i => i), [], 0%nat. cbn [for_each]. unfold ret.
    rewrite list_alter_id by reflexivity.
    now rewrite app_nil_r, advance_by_0, with_store_same.
  - destruct (draw_cells_run canvas img_gray font_path (font_size layer) words
                (step layer) (base_alpha layer) (alpha_boost_dark layer)
                (density_scale layer) (color layer) (jitter layer) (rotation layer)
                (grid_cells (gray_width img_gray) (gray_height img_gray) (step layer))
                w N V) as (f & e1 & n & E1 & _).
    rewrite <- draw_layer_as_scan in E1 by exact S.
    set (w1 := with_store (alter f canvas (store w) ++ e1) (advance_by n w)) in E1.
    assert (canvas < length (store w1))%nat as V1.
    { subst w1. cbn [store with_store]. rewrite length_app, length_alter. lia. }
    destruct (IH w1 V1) as (g & e2 & m & E2).
    exists (fun i => g (f i)), (e1 ++ e2), (n + m)%nat.
    cbn [for_each]. rewrite (bind_ok _ _ _ _ _ E1), E2.
    subst w1. unfold with_store, advance_by. cbn [draws picks cursor store].
    rewrite alter_app_l by (rewrite length_alter; exact V).
    rewrite list_alter_alter_eq, <- app_assoc.
    do 2 f_equal. f_equal. lia.
Qed.

Lemma canvas_is_saved (canvas_image : image) (f : image -> image)
    (extra : list image) (w w1 : World image) :
  let canvas := length (store w) in
  read_object canvas
    (with_store (alter f canvas (store w ++ [canvas_image]) ++ extra) w1)
  = Ok (f canvas_image,
        with_store (store w ++ [f canvas_image] ++ extra) w1).
Proof.
  intros canvas. unfold read_object. cbn [store with_store].
  rewrite alter_app_r_alt by (subst canvas; lia).
  subst canvas. rewrite Nat.sub_diag. cbn [alter list_alter].
  rewrite <- app_assoc. cbn [app].
  now rewrite (list_lookup_total_middle (store w) extra (f canvas_image)).
Qed.

(** X11: [build_word_image] raises nothing of its own, whatever the image,
    the font backend and the outputs of the generator: its four layers have
    non-zero steps and its vocabulary is not empty (the calls into Pillow are
    total functions here).  The canvas is the first object it allocates,
    blank in the background colour; the four passes of [draw_layer] run on
    it one after the other, from the coarsest layer to the finest, and the
    image saved is the content of the canvas after the last pass.  No object
    that existed before is changed. *)
Theorem build_word_image_never_fails (img_gray : GrayImage) (font_path : string)
    (background : rgb) (w : World image) :
  let blank :=
    image_new (gray_width img_gray) (gray_height img_gray) (background, 255) in
  let canvas := length (store w) in
  let pass fsize stride base boost scale rotation :=
    draw_layer canvas img_gray font_path fsize chinese_words stride base boost scale
      (0, 0, 0) (lit 0.4) rotation in
  exists (w1 w2 w3 w4 : World image) (extra : list image) (n : nat),
    pass 50 50 10 180 (lit 0.7) false (with_store (store w ++ [blank]) w)
    = Ok (tt, w1) /\
    pass 30 26 20 150 (lit 1.2) true w1 = Ok (tt, w2) /\
    pass 18 14 40 160 (lit 1.6) true w2 = Ok (tt, w3) /\
    pass 12 10 30 200 (lit 1.3) false w3 = Ok (tt, w4) /\
    build_word_image img_gray font_path background w = Ok (store w4 !!! canvas, w4) /\
    w4 = with_store (store w ++ [store w4 !!! canvas] ++ extra) (advance_by n w).
Proof.
  intros blank canvas pass.
  set (w0 := with_store (store w ++ [blank]) w).
  assert (canvas < length (store w0))%nat as V0
    by (subst w0 canvas; cbn [store with_store]; rewrite length_app; cbn [length]; lia).
  assert (forall fsize stride base boost scale rotation (f : image -> image)
                 (e : list image) (m : nat),
            stride <> 0 ->
            exists g e' m',
              pass fsize stride base boost scale rotation
                (with_store (alter f canvas (store w0) ++ e) (advance_by m w0))
              = Ok (tt, with_store (alter g canvas (store w0) ++ e')
                          (advance_by m' w0))) as Step.
  { intros fsize stride base boost scale rotation f e m S.
    set (wa := with_store (alter f canvas (store w0) ++ e) (advance_by m w0)).
    assert (canvas < length (store wa))%nat as Va
      by (subst wa; cbn [store with_store]; rewrite length_app, length_alter; lia).
    destruct (draw_cells_run canvas img_gray font_path fsize chinese_words stride base
                boost scale (0, 0, 0) (lit 0.4) rotation
                (grid_cells (gray_width img_gray) (gray_height img_gray) stride)
                wa ltac:(discriminate) Va) as (g & e' & k & E & _).
    rewrite <- draw_layer_as_scan in E by exact S.
    exists (fun i => g (f i)), (e ++ e'), (m + k)%nat.
    subst pass. cbv beta. rewrite E. subst wa.
    unfold with_store, advance_by. cbn [draws picks cursor store].
    rewrite alter_app_l by (rewrite length_alter; exact V0).
    rewrite list_alter_alter_eq, <- app_assoc.
    do 2 f_equal. f_equal. lia. }
  assert (w0 = with_store (alter (fun i => i) canvas (store w0) ++ []) (advance_by 0 w0))
    as E0.
  { rewrite list_alter_id by reflexivity. rewrite app_nil_r, advance_by_0.
    now rewrite with_store_same. }
  destruct (Step 50 50 10 180 (lit 0.7) false (fun i => i) [] 0%nat ltac:(discriminate))
    as (f1 & e1 & n1 & P1). rewrite <- E0 in P1.
  destruct (Step 30 26 20 150 (lit 1.2) true f1 e1 n1 ltac:(discriminate))
    as (f2 & e2 & n2 & P2).
  destruct (Step 18 14 40 160 (lit 1.6) true f2 e2 n2 ltac:(discriminate))
    as (f3 & e3 & n3 & P3).
  destruct (Step 12 10 30 200 (lit 1.3) false f3 e3 n3 ltac:(discriminate))
    as (f4 & e4 & n4 & P4).
  eexists. eexists. eexists. eexists. exists e4, n4.
  split; [exact P1|]. split; [exact P2|]. split; [exact P3|]. split; [exact P4|].
  assert (read_object canvas
            (with_store (alter f4 canvas (store w0) ++ e4) (advance_by n4 w0))
          = Ok (f4 blank,
                with_store (store w ++ [f4 blank] ++ e4) (advance_by n4 w0))) as Rd
    by (subst w0 canvas; cbn [store with_store]; apply canvas_is_saved).
  unfold read_object in Rd. injection Rd as Sv Ew.
  split.
  - unfold build_word_image. erewrite bind_ok by reflexivity.
    cbn [for_each font_size step base_alpha alpha_boost_dark density_scale color
         allow_rotation default from_option id].
    fold blank. fold canvas.
    change (mkWorld (draws w) (picks w) (cursor w) (store w ++ [blank])) with w0.
    unfold pass in P1, P2, P3, P4.
    unfold bind, ret. rewrite P1, P2, P3, P4. reflexivity.
  - subst w0. unfold with_store, advance_by. cbn [draws picks cursor store].
    unfold loc in *. rewrite Sv. now rewrite Ew.
Qed.

(** X12: [render_with_layers] raises nothing of its own when no layer has a
    zero step and the vocabulary is not empty (the calls into Pillow are total
    functions here).  It allocates a canvas, blank in the background colour,
    runs one pass of [draw_layer] per layer on it, in the order of the list,
    and saves the content of the canvas after the last pass.  No object that
    existed before is changed. *)
Theorem render_with_layers_never_fails (img_gray : GrayImage) (font_path : string)
    (layers : list Layer) (background : rgb) (words : list word) (w : World image) :
  Forall (fun layer => step layer <> 0) layers -> words <> [] ->
  let blank :=
    image_new (gray_width img_gray) (gray_height img_gray) (background, 255) in
  let canvas := length (store w) in
  exists (w1 : World image) (extra : list image) (n : nat),
    for_each layers
      (fun layer =>
         draw_layer canvas img_gray font_path (font_size layer) words (step layer)
           (base_alpha layer) (alpha_boost_dark layer) (density_scale layer)
           (color layer) (default (lit 0.4) (random_jitter layer))
           (default false (allow_rotation layer)))
      (with_store (store w ++ [blank]) w)
    = Ok (tt, w1) /\
    render_with_layers img_gray font_path layers background words w
    = Ok (store w1 !!! canvas, w1) /\
    w1 = with_store (store w ++ [store w1 !!! canvas] ++ extra) (advance_by n w).
Proof.
  intros S N blank canvas.
  set (w0 := with_store (store w ++ [blank]) w).
  destruct (render_layers_run canvas img_gray font_path words
              (fun layer => default (lit 0.4) (random_jitter layer))
              (fun layer => default false (allow_rotation layer))
              layers w0 S N
              ltac:(subst w0 canvas; cbn [store with_store]; rewrite length_app;
                    cbn [length]; lia))
    as (f & extra & n & E).
  assert (read_object canvas
            (with_store (alter f canvas (store w0) ++ extra) (advance_by n w0))
          = Ok (f blank,
                with_store (store w ++ [f blank] ++ extra) (advance_by n w0))) as Rd
    by (subst w0 canvas; cbn [store with_store]; apply canvas_is_saved).
  eexists. exists extra, n. split; [exact E|].
  unfold read_object in Rd. injection Rd as Sv Ew.
  split.
  - unfold render_with_layers. erewrite bind_ok by reflexivity.
    fold blank. fold canvas.
    change (mkWorld (draws w) (picks w) (cursor w) (store w ++ [blank])) with w0.
    rewrite (bind_ok _ _ _ _ _ E). reflexivity.
  - subst w0. unfold with_store, advance_by. cbn [draws picks cursor store].
    unfold loc in *. rewrite Sv. now rewrite Ew.
Qed.

End RenderersRun.

(** X11 on a black 4x2 image, every draw being 0.5: the image saved is the
    canvas after the fourth pass, and it holds glyphs. *)
Lemma build_word_image_never_fails_witness :
  let img := uniform_gray 4 2 0 in
  let w := constant_world (image := Pic) 0.5 in
  let pass fsize stride base boost scale rotation :=
    draw_layer (R := exact_rounding) (FB := square_font) 0%nat img "font.ttf" fsize
      chinese_words stride base boost scale (0, 0, 0) 0.4%Q rotation in
  exists (w1 w2 w3 w4 : World Pic) (extra : list Pic) (n : nat),
    pass 50 50 10 180 0.7%Q false
      (with_store (store w ++ [PNew 4 2 (255, 255, 255, 255)]) w) = Ok (tt, w1) /\
    pass 30 26 20 150 1.2%Q true w1 = Ok (tt, w2) /\
    pass 18 14 40 160 1.6%Q true w2 = Ok (tt, w3) /\
    pass 12 10 30 200 1.3%Q false w3 = Ok (tt, w4) /\
    build_word_image (R := exact_rounding) (FB := square_font) img "font.ttf"
      (255, 255, 255) w
    = Ok (store w4 !!! 0%nat, w4) /\
    pic_drawn (store w4 !!! 0%nat) = true /\
    w4 = with_store (store w ++ [store w4 !!! 0%nat] ++ extra) (advance_by n w).
Proof.
  intros img w pass.
  destruct (build_word_image_never_fails (R := exact_rounding) (FB := square_font)
              img "font.ttf" (255, 255, 255) w)
    as (w1 & w2 & w3 & w4 & extra & n & P1 & P2 & P3 & P4 & E & Fr).
  exists w1, w2, w3, w4, extra, n.
  split; [exact P1|]. split; [exact P2|]. split; [exact P3|]. split; [exact P4|].
  split; [exact E|]. split; [|exact Fr].
  vm_compute in E. injection E as _ <-. reflexivity.
Defined.

(** X12 on a black 4x2 image with the preset [deep_dense]: the canvas is
    object 0 and the image saved holds glyphs. *)
Lemma render_with_layers_never_fails_witness :
  let layers :=
    [ mkLayer 40 40 25 210 1.0 (0, 0, 0) None None;
      mkLayer 26 22 40 210 1.8 (0, 0, 0) None None;
      mkLayer 14 10 50 210 2.2 (0, 0, 0) None None ] in
  let w := constant_world (image := Pic) 0.5 in
  exists (w1 : World Pic) (extra : list Pic) (n : nat),
    for_each layers
      (fun layer =>
         draw_layer (R := exact_rounding) (FB := square_font) 0%nat (uniform_gray 4 2 0)
           "font.ttf" (font_size layer) chinese_words (step layer)
           (base_alpha layer) (alpha_boost_dark layer) (density_scale layer)
           (color layer) (default 0.4%Q (random_jitter layer))
           (default false (allow_rotation layer)))
      (with_store (store w ++ [PNew 4 2 (255, 255, 255, 255)]) w)
    = Ok (tt, w1) /\
    render_with_layers (R := exact_rounding) (FB := square_font) (uniform_gray 4 2 0)
      "font.ttf" layers (255, 255, 255) chinese_words w
    = Ok (store w1 !!! 0%nat, w1) /\
    pic_drawn (store w1 !!! 0%nat) = true /\
    w1 = with_store (store w ++ [store w1 !!! 0%nat] ++ extra) (advance_by n w).
Proof.
  intros layers w.
  destruct (render_with_layers_never_fails (R := exact_rounding) (FB := square_font)
              (uniform_gray 4 2 0) "font.ttf" layers (255, 255, 255) chinese_words w
              ltac:(repeat constructor; discriminate) ltac:(discriminate))
    as (w1 & extra & n & P & E & Fr).
  exists w1, extra, n. split; [exact P|]. split; [exact E|]. split; [|exact Fr].
  vm_compute in P. injection P as <-. reflexivity.
Defined.

(** ** Where the glyphs start (animate_depth_transition.py, lines 88-98) *)

Section OffscreenStart.
Context {R : Rounding} {image : Type}.
Local Open Scope pyfloat_scope.

Lemma rnd_below (x : Q) (z : Z) :
  Z.abs z <= 2 ^ 53 -> (x <= inject_Z z)%Q -> (rnd x <= inject_Z z)%Q.
Proof. intros B L. rewrite <- (rnd_int z B). now apply rnd_mono. Qed.

Lemma rnd_above (x : Q) (z : Z) :
  Z.abs z <= 2 ^ 53 -> (inject_Z z <= x)%Q -> (inject_Z z <= rnd x)%Q.
Proof. intros B L. rewrite <- (rnd_int z B). now apply rnd_mono. Qed.

(** [random.uniform(0.1, 0.5)] is never negative. *)
Lemma margin_nonneg (r : pyfloat) :
  (0 <= r)%Q -> (0 <= lit 0.1 +~ (lit 0.5 -~ lit 0.1) *~ r)%Q.
Proof.
  intros Hr. unfold fadd, fsub, fmul, lit.
  assert (0 <= rnd 0.1)%Q as A by (apply rnd_nonneg; discriminate).
  assert (rnd 0.1 <= rnd 0.5)%Q as B by (apply rnd_mono; discriminate).
  assert (0 <= rnd (rnd 0.5 - rnd 0.1))%Q as C by (apply rnd_nonneg; lra).
  assert (0 <= rnd (rnd (rnd 0.5 - rnd 0.1) * r))%Q as D
    by (apply rnd_nonneg; now apply Qmult_le_0_compat).
  apply rnd_nonneg. lra.
Qed.

(** [random.uniform(0, n)] lies in [0, n]. *)
Lemma along_the_side (n : Z) (r : pyfloat) :
  0 <= n <= 2 ^ 53 -> (0 <= r <= 1)%Q ->
  (0 <= of_int 0 +~ of_int (n - 0) *~ r <= inject_Z n)%Q.
Proof.
  intros Hn [R0 R1]. unfold fadd, fmul.
  pose proof (of_int_exact 0 ltac:(simpl; lia)) as E0.
  pose proof (of_int_exact (n - 0) ltac:(lia)) as En.
  rewrite Z.sub_0_r in En |- *.
  assert (0 <= inject_Z n)%Q as Pn
    by (change 0%Q with (inject_Z 0); rewrite <- Zle_Qle; lia).
  assert (0 <= of_int n * r <= inject_Z n)%Q as [P0 P1].
  { rewrite En. split; [now apply Qmult_le_0_compat|].
    apply Qle_trans with (inject_Z n * 1)%Q; [|rewrite Qmult_1_r; apply Qle_refl].
    rewrite !(Qmult_comm (inject_Z n)). now apply Qmult_le_compat_r. }
  assert (0 <= rnd (of_int n * r) <= inject_Z n)%Q as [Q0 Q1].
  { split; [now apply rnd_nonneg | apply rnd_below; [lia | exact P1]]. }
  change (inject_Z 0) with 0%Q in E0.
  split; [apply rnd_nonneg; lra | apply rnd_below; [lia | lra]].
Qed.

Lemma before_the_edge (n : Z) (u : pyfloat) :
  0 <= n <= 2 ^ 53 -> (0 <= u)%Q -> (of_int (- n) *~ u <= 0)%Q.
Proof.
  intros Hn Hu. unfold fmul.
  pose proof (of_int_exact (- n) ltac:(lia)) as En.
  apply (rnd_below _ 0); [simpl; lia|]. rewrite En, inject_Z_opp.
  assert (0 <= inject_Z n)%Q as Pn
    by (change 0%Q with (inject_Z 0); rewrite <- Zle_Qle; lia).
  assert (0 <= inject_Z n * u)%Q by now apply Qmult_le_0_compat.
  change (inject_Z 0) with 0%Q.
  assert (- inject_Z n * u == - (inject_Z n * u))%Q as E by ring.
  rewrite E. lra.
Qed.

Lemma beyond_the_edge (n : Z) (u : pyfloat) :
  0 <= n <= 2 ^ 53 -> (0 <= u)%Q -> (inject_Z n <= of_int n *~ (of_int 1 +~ u))%Q.
Proof.
  intros Hn Hu. unfold fmul, fadd.
  pose proof (of_int_exact n ltac:(lia)) as En.
  pose proof (of_int_exact 1 ltac:(simpl; lia)) as E1.
  assert (0 <= inject_Z n)%Q as Pn
    by (change 0%Q with (inject_Z 0); rewrite <- Zle_Qle; lia).
  assert (1 <= rnd (of_int 1 + u))%Q as A.
  { change 1%Q with (inject_Z 1). apply rnd_above; [simpl; lia|].
    change (inject_Z 1) with 1%Q in *. lra. }
  apply rnd_above; [lia|]. rewrite En.
  apply Qle_trans with (inject_Z n * 1)%Q; [rewrite Qmult_1_r; apply Qle_refl|].
  rewrite !(Qmult_comm (inject_Z n)). now apply Qmult_le_compat_r.
Qed.

(** X13: [random_offscreen_start] never fails and consumes three
    outputs of the generator (the side, then the two coordinates in the
    order they are returned).  For non-negative canvas sizes the point lies
    on or beyond one edge of the canvas, and along that edge within its
    extent: left of [x = 0] or right of [x = w] with [0 <= y <= h], or above
    [y = 0] or below [y = h] with [0 <= x <= w].  It is never strictly inside
    the canvas. *)
Theorem offscreen_start_is_on_or_beyond_an_edge (width height : Z) (w : World image) :
  0 <= width <= 2 ^ 53 -> 0 <= height <= 2 ^ 53 ->
  (forall k, 0 <= draws w k <= 1)%Q ->
  exists x y : pyfloat,
    random_offscreen_start width height w = Ok ((x, y), advance_by 3 w) /\
    ((x <= 0 /\ 0 <= y <= inject_Z height) \/
     (inject_Z width <= x /\ 0 <= y <= inject_Z height) \/
     (0 <= x <= inject_Z width /\ y <= 0) \/
     (0 <= x <= inject_Z width /\ inject_Z height <= y))%Q.
Proof.
  intros Hw Hh Hr. unfold random_offscreen_start.
  destruct (random_choice_nonempty [Left; Right; Top; Bottom] w ltac:(discriminate))
    as (side & Es & _).
  rewrite (bind_ok _ _ _ _ _ Es).
  assert (advance_by 3 w
          = mkWorld (draws w) (picks w) (S (S (S (cursor w)))) (store w)) as Ew
    by (unfold advance_by; f_equal; lia).
  rewrite Ew.
  pose proof (Hr (S (cursor w))) as [A0 A1].
  pose proof (Hr (S (S (cursor w)))) as [B0 B1].
  destruct side; eexists; eexists; (split; [reflexivity|]); cbn [draws cursor advance].
  - left. split; [apply before_the_edge; [lia | now apply margin_nonneg]|].
    now apply along_the_side.
  - right; left. split; [apply beyond_the_edge; [lia | now apply margin_nonneg]|].
    now apply along_the_side.
  - right; right; left. split; [now apply along_the_side|].
    apply before_the_edge; [lia | now apply margin_nonneg].
  - right; right; right. split; [now apply along_the_side|].
    apply beyond_the_edge; [lia | now apply margin_nonneg].
Qed.

End OffscreenStart.

(** X13 on an 800x600 canvas, every draw being 0.5. *)
Lemma offscreen_start_is_on_or_beyond_an_edge_witness :
  exists x y : pyfloat,
    random_offscreen_start (R := exact_rounding) (image := Pic) 800 600
      (constant_world 0.5)
    = Ok ((x, y), advance_by 3 (constant_world 0.5)) /\
    ((x <= 0 /\ 0 <= y <= inject_Z 600) \/
     (inject_Z 800 <= x /\ 0 <= y <= inject_Z 600) \/
     (0 <= x <= inject_Z 800 /\ y <= 0) \/
     (0 <= x <= inject_Z 800 /\ inject_Z 600 <= y))%Q.
Proof.
  apply (offscreen_start_is_on_or_beyond_an_edge (R := exact_rounding) 800 600
           (constant_world 0.5)).
  - lia.
  - lia.
  - intros k. split; apply Qle_bool_iff; reflexivity.
Defined.

(** ** The last frames (animate_depth_transition.py, lines 182-189 and
    210-217) *)

Section SharpFrames.
Context {R : Rounding} `{Imaging image}.
Local Open Scope pyfloat_scope.
#[local] Existing Instance rnd_Proper.


Lemma fade_blur_at_one (a : pyfloat) :
  (a == 1)%Q -> fgt (fmax (lit 0.0) (lit 1.5 -~ lit 1.5 *~ a)) (of_int 0) = false.
Proof.
  intros E. apply fgt_false.
  assert (rnd 0 == 0)%Q as E0 by (apply (rnd_int 0); simpl; lia).
  assert (lit 1.5 -~ lit 1.5 *~ a == 0)%Q as D.
  { unfold fsub, fmul, lit. rewrite E, Qmult_1_r, rnd_idem.
    assert (rnd 1.5 - rnd 1.5 == 0)%Q as Ez by ring.
    now rewrite Ez. }
  assert (lit 0.0 == 0)%Q as Z0.
  { unfold lit. assert (0.0 == 0)%Q as Ez by reflexivity. now rewrite Ez. }
  assert (of_int 0 == 0)%Q as Z1 by exact E0.
  unfold fmax. destruct (fgt _ _); lra.
Qed.


End SharpFrames.


(** ** The settled canvas through the layers (animate_depth_transition.py,
    lines 101-236) *)

Section AccumulationFacts.
Context {R : Rounding} {FB : FontBackend} `{Imaging image}.
Local Open Scope pyfloat_scope.

Lemma layers_chain_spec (img_gray : GrayImage) (font_path : string)
    (frames_per_layer : Z) (settled : loc) (layers : list Layer) :
  Forall (fun layer => step layer <> 0) layers ->
  forall (frames : list loc) (w : World image),
    (settled < length (store w))%nat ->
    exists (plans : list (list Flying)) (news : list (list loc)) (w' : World image),
      for_fold layers frames (animate_layer img_gray font_path frames_per_layer settled) w
      = Ok (frames ++ concat news, w') /\
      (length (store w) <= length (store w'))%nat /\
      (forall l, l <> settled -> (l < length (store w))%nat ->
                 store w' !! l = store w !! l) /\
      store w' !! settled
      = Some (fold_left committed_image plans (store w !!! settled)) /\
      Forall2 (fun new run =>
                 Forall2 (fun l f =>
                            l <> settled /\
                            store w' !! l
                            = Some (flight_frame_image frames_per_layer (fst run)
                                      (snd run) f))
                         new (py_range1 frames_per_layer))
              news (layer_runs (store w !!! settled) plans) /\
      length plans = length layers.
Proof.
  induction 1 as [|layer layers S _ IH]; intros frames w V.
  - exists [], [], w. cbn [for_fold concat fold_left layer_runs]. unfold ret.
    rewrite app_nil_r. split; [reflexivity|]. split; [lia|]. split; [auto|].
    split; [now apply list_lookup_lookup_total_lt|]. split; [constructor|reflexivity].
  - destruct (animate_layer_run img_gray font_path frames_per_layer settled frames
                layer w V S) as (targets & extra & new & n & E1 & F1).
    set (w1 := with_store _ (advance_by n w)) in E1.
    assert (store w1
            = alter (fun i => committed_image i targets) settled (store w ++ extra)) as St
      by reflexivity.
    assert (length (store w1) = (length (store w) + length extra)%nat) as L1
      by (rewrite St, length_alter; apply length_app).
    assert (store w1 !!! settled = committed_image (store w !!! settled) targets) as Se.
    { apply list_lookup_total_correct. rewrite St, list_lookup_alter_eq.
      rewrite lookup_app_l by exact V.
      now rewrite (list_lookup_lookup_total_lt (store w) settled V). }
    destruct (IH (frames ++ new) w1 ltac:(lia))
      as (plans & news & w' & E2 & L2 & Keep2 & Se2 & F2 & Len).
    exists (targets :: plans), (new :: news), w'.
    split; [|split; [|split; [|split; [|split]]]].
    + cbn [for_fold concat]. rewrite (bind_ok _ _ _ _ _ E1), E2.
      now rewrite <- app_assoc.
    + lia.
    + intros l Nl Ll. rewrite Keep2 by (auto; lia).
      rewrite St, list_lookup_alter_ne by congruence. now rewrite lookup_app_l.
    + cbn [fold_left]. now rewrite <- Se.
    + cbn [layer_runs]. constructor; [|now rewrite <- Se].
      eapply Forall2_impl; [exact F1|]. cbn [fst snd]. intros l f [Ll Vl].
      assert (l <> settled) as Nl by lia. split; [exact Nl|].
      assert (store w1 !! l
              = Some (flight_frame_image frames_per_layer (store w !!! settled)
                        targets f)) as V1
        by (rewrite St, list_lookup_alter_ne by congruence; exact Vl).
      rewrite Keep2; [exact V1 | exact Nl |].
      eapply lookup_lt_Some. exact V1.
    + cbn [length]. now rewrite Len.
Qed.

(** The whole run, with the settled canvas made explicit. *)
Lemma accumulate_layers_animation_run
    (img_gray : GrayImage) (original : image) (font_path : string) (background : rgb)
    (frames_per_layer final_original_frames : Z) (w : World image) :
  let blank :=
    image_new (gray_width img_gray) (gray_height img_gray) (background, 255) in
  exists (plans : list (list Flying)) (frames : list loc) (out : option (list image))
         (w' : World image),
    accumulate_layers_animation img_gray original font_path background
      frames_per_layer final_original_frames w = Ok ((frames, out), w') /\
    length plans = 6%nat /\
    map (fun l => store w' !!! l) frames
    = flat_map (fun run =>
                  map (flight_frame_image frames_per_layer (fst run) (snd run))
                      (py_range1 frames_per_layer)) (layer_runs blank plans)
      ++ map (fade_frame_image final_original_frames
                (fold_left committed_image plans blank) original)
             (py_range1 final_original_frames) /\
    store w' !! length (store w) = Some (fold_left committed_image plans blank) /\
    (forall l, (l < length (store w))%nat -> store w' !! l = store w !! l) /\
    out = match frames with
          | [] => None
          | _ => Some (map (fun l => store w' !!! l) frames)
          end.
Proof.
  intros blank. unfold accumulate_layers_animation.
  erewrite bind_ok by reflexivity.
  erewrite bind_ok by reflexivity.
  erewrite bind_ok by reflexivity.
  fold blank.
  set (settled := length (store w)).
  set (w0 := mkWorld _ _ _ _).
  match goal with
  | |- context [for_fold ?ls [] (animate_layer _ _ _ _)] => set (layers := ls)
  end.
  assert (Forall (fun layer => step layer <> 0) layers) as S
    by (subst layers; cbn [app]; repeat constructor; discriminate).
  assert (store w0 = store w ++ [blank]) as St0 by reflexivity.
  assert (settled < length (store w0))%nat as V
    by (rewrite St0, length_app; cbn [length]; subst settled; lia).
  assert (store w0 !!! settled = blank) as Eb
    by (rewrite St0; now apply list_lookup_total_middle).
  destruct (layers_chain_spec img_gray font_path frames_per_layer settled layers S [] w0 V)
    as (plans & news & w1 & E1 & L1 & Keep1 & Se1 & F1 & Len).
  unfold loc in Se1, F1. rewrite Eb in Se1, F1.
  rewrite (bind_ok _ _ _ _ _ E1). cbn [app].
  erewrite bind_ok by reflexivity.
  set (orig := length (store w1)).
  set (w2 := mkWorld _ _ _ _).
  assert (store w2 = store w1 ++ [original]) as St2 by reflexivity.
  assert (settled < length (store w2))%nat as Vs
    by (rewrite St2, length_app; lia).
  assert (orig < length (store w2))%nat as Vo
    by (rewrite St2, length_app; cbn [length]; subst orig; lia).
  destruct (fade_loop_spec final_original_frames settled orig
              (py_range1 final_original_frames) (concat news) w2 Vs Vo)
    as (extra & new & E2 & F2).
  rewrite (bind_ok _ _ _ _ _ E2). rewrite save_frames.
  set (w3 := with_store (store w2 ++ extra) w2).
  assert (store w3 = (store w1 ++ [original]) ++ extra) as St3 by reflexivity.
  assert (store w2 !!! orig = original) as Eo
    by (rewrite St2; now apply list_lookup_total_middle).
  assert (store w2 !!! settled = fold_left committed_image plans blank) as Es.
  { apply list_lookup_total_correct. rewrite St2. now apply lookup_app_l_Some. }
  unfold loc in F2. rewrite Eo, Es in F2.
  exists plans, (concat news ++ new). eexists. exists w3.
  split; [reflexivity|]. split; [rewrite Len; reflexivity|].
  split; [|split; [|split; [|reflexivity]]].
  - rewrite map_app. f_equal.
    + apply (contents_of_layers (store w3)
               (fun run => flight_frame_image frames_per_layer (fst run) (snd run))
               (fun l => l <> settled)).
      eapply Forall2_impl; [exact F1|]. intros fr run Ffr.
      eapply Forall2_impl; [exact Ffr|]. intros l f [Nl Vl]. split; [exact Nl|].
      rewrite St3. now apply lookup_app_l_Some, lookup_app_l_Some.
    + apply (contents_of_frames (store w3) _ (fun l => (length (store w2) <= l)%nat)).
      exact F2.
  - rewrite St3. now apply lookup_app_l_Some, lookup_app_l_Some.
  - intros l Ll. rewrite St3.
    assert (l < length (store w0))%nat as Ll0 by (rewrite St0, length_app; lia).
    rewrite <- app_assoc, lookup_app_l by lia.
    rewrite Keep1 by (subst settled; lia || exact Ll0).
    rewrite St0. now apply lookup_app_l.
Qed.


(** X15: the animation accumulates its layers.  The settled canvas starts
    as the blank canvas in the background colour; each of the six layers
    flies over the canvas that holds the committed glyphs of all the layers
    before it and of none after it, and the fade blends the canvas with all
    six layers committed into the original.  The settled canvas is the first
    object the run allocates, and no object that existed before the run is
    changed. *)
Theorem animation_accumulates_layers
    (img_gray : GrayImage) (original : image) (font_path : string) (background : rgb)
    (frames_per_layer final_original_frames : Z) (w : World image) :
  let blank :=
    image_new (gray_width img_gray) (gray_height img_gray) (background, 255) in
  exists (plans : list (list Flying)) (frames : list loc) (out : option (list image))
         (w' : World image),
    accumulate_layers_animation img_gray original font_path background
      frames_per_layer final_original_frames w = Ok ((frames, out), w') /\
    length plans = 6%nat /\
    map (fun l => store w' !!! l) frames
    = flat_map (fun run =>
                  map (flight_frame_image frames_per_layer (fst run) (snd run))
                      (py_range1 frames_per_layer)) (layer_runs blank plans)
      ++ map (fade_frame_image final_original_frames
                (fold_left committed_image plans blank) original)
             (py_range1 final_original_frames) /\
    store w' !! length (store w) = Some (fold_left committed_image plans blank) /\
    (forall l, (l < length (store w))%nat -> store w' !! l = store w !! l).
Proof.
  intros blank.
  destruct (accumulate_layers_animation_run img_gray original font_path background
              frames_per_layer final_original_frames w)
    as (plans & frames & out & w' & E & Len & C & Se & Keep & _).
  exists plans, frames, out, w'. repeat split; assumption.
Qed.

Lemma length_layer_runs (settled : image) (plans : list (list Flying)) :
  length (layer_runs settled plans) = length plans.
Proof.
  revert settled. induction plans as [|targets plans IH]; intros settled; [reflexivity|].
  cbn [layer_runs length]. now rewrite IH.
Qed.

(** X16: non-positive frame counts are no errors.  [range] of such a count
    is empty, so neither [frames_per_layer] nor [final_original_frames] is
    ever divided by when it is zero or negative; the run always ends
    normally, with [max(frames_per_layer, 0) * 6 + max(final_original_frames,
    0)] frames.  Nothing is saved exactly when both counts are zero or
    negative; the six layers are planned and committed all the same. *)
Theorem animation_without_frames_saves_nothing
    (img_gray : GrayImage) (original : image) (font_path : string) (background : rgb)
    (frames_per_layer final_original_frames : Z) (w : World image) :
  exists (frames : list loc) (out : option (list image)) (w' : World image),
    accumulate_layers_animation img_gray original font_path background
      frames_per_layer final_original_frames w = Ok ((frames, out), w') /\
    Z.of_nat (length frames)
    = Z.max frames_per_layer 0 * 6 + Z.max final_original_frames 0 /\
    (out = None <-> frames_per_layer <= 0 /\ final_original_frames <= 0) /\
    (forall images, out = Some images -> length images = length frames).
Proof.
  destruct (accumulate_layers_animation_run img_gray original font_path background
              frames_per_layer final_original_frames w)
    as (plans & frames & out & w' & E & Len & C & _ & _ & Eo).
  exists frames, out, w'. split; [exact E|].
  assert (length frames
          = (Z.to_nat frames_per_layer * 6 + Z.to_nat final_original_frames)%nat) as Count.
  { rewrite <- (length_map (fun l => store w' !!! l)), C.
    rewrite length_app, length_map, length_py_range1.
    rewrite (length_flat_map_constant _ (Z.to_nat frames_per_layer))
      by (intros run; now rewrite length_map, length_py_range1).
    rewrite length_layer_runs, Len. lia. }
  split; [lia|]. split.
  - rewrite Eo. destruct frames as [|l frames].
    + cbn [length] in Count. split; [lia | reflexivity].
    + cbn [length] in Count. split; [discriminate | lia].
  - intros images. rewrite Eo. destruct frames; [discriminate|].
    intros [= <-]. cbn [length]. now rewrite length_map.
Qed.

Lemma py_range1_last (n : Z) : 1 <= n -> py_range1 n = py_range1 (n - 1) ++ [n - 1].
Proof.
  intros Hn. unfold py_range1.
  replace n with ((n - 1) + 1) at 1 by lia.
  rewrite seqZ_app by lia. reflexivity.
Qed.

(** X17: with at least one fade frame, the animation is saved and its last
    frame is the unblurred blend, with weight exactly 1, of the settled
    canvas into the original image.  The settled canvas is the first object
    of the run; it holds, in the end, the blank canvas with the glyphs of
    the six layers committed in turn, the very glyphs that fly in on the
    frames before the fade. *)
Theorem animation_ends_on_the_original
    (img_gray : GrayImage) (original : image) (font_path : string) (background : rgb)
    (frames_per_layer final_original_frames : Z) (w : World image) :
  1 <= final_original_frames <= 2 ^ 53 ->
  let blank :=
    image_new (gray_width img_gray) (gray_height img_gray) (background, 255) in
  let a := (of_int (final_original_frames - 1 + 1) /~ of_int final_original_frames)%F in
  exists (plans : list (list Flying)) (frames : list loc) (images : list image)
         (w' : World image),
    accumulate_layers_animation img_gray original font_path background
      frames_per_layer final_original_frames w = Ok ((frames, Some images), w') /\
    length plans = 6%nat /\
    store w' !! length (store w) = Some (fold_left committed_image plans blank) /\
    images
    = flat_map (fun run =>
                  map (flight_frame_image frames_per_layer (fst run) (snd run))
                      (py_range1 frames_per_layer)) (layer_runs blank plans)
      ++ map (fade_frame_image final_original_frames
                (fold_left committed_image plans blank) original)
             (py_range1 final_original_frames) /\
    (a == 1)%Q /\
    last images = Some (convert_P (image_blend (store w' !!! length (store w)) original a)).
Proof.
  intros Hn blank a.
  destruct (accumulate_layers_animation_run img_gray original font_path background
              frames_per_layer final_original_frames w)
    as (plans & frames & out & w' & E & Len & C & Se & _ & Eo).
  fold blank in C, Se.
  pose proof (last_t_norm_is_one final_original_frames Hn) as Ea.
  unfold flight_t_norm in Ea. fold a in Ea.
  assert (fade_frame_image final_original_frames (fold_left committed_image plans blank)
            original (final_original_frames - 1)
          = convert_P (image_blend (fold_left committed_image plans blank) original a))
    as Sharp.
  { unfold fade_frame_image. fold a. now rewrite (fade_blur_at_one a Ea). }
  pose proof C as C0.
  rewrite (py_range1_last final_original_frames) in C by lia.
  rewrite map_app, app_assoc in C. cbn [map] in C. rewrite Sharp in C.
  exists plans, frames, (map (fun l => store w' !!! l) frames), w'.
  split; [|split; [exact Len|split; [exact Se|split; [exact C0|split; [exact Ea|]]]]].
  - rewrite E, Eo. destruct frames; [|reflexivity].
    cbn [map] in C. now apply app_cons_not_nil in C.
  - rewrite (list_lookup_total_correct _ _ _ Se), C. apply last_snoc.
Qed.

End AccumulationFacts.

(** X17 on a black 2x2 image with 2 frames per layer and 3 fade frames. *)
Lemma animation_ends_on_the_original_witness :
  let original := PNew 2 2 (0, 0, 0, 255) in
  let blank := PNew 2 2 (255, 255, 255, 255) in
  let w := constant_world (image := Pic) 0.75 in
  let a := fdiv (R := exact_rounding) (of_int (R := exact_rounding) (3 - 1 + 1))
             (of_int (R := exact_rounding) 3) in
  exists (plans : list (list Flying)) (frames : list loc) (images : list Pic)
         (w' : World Pic),
    accumulate_layers_animation (R := exact_rounding) (FB := square_font)
      (uniform_gray 2 2 0) original "font.ttf" (255, 255, 255) 2 3 w
    = Ok ((frames, Some images), w') /\
    length plans = 6%nat /\
    store w' !! length (store w)
    = Some (fold_left (committed_image (R := exact_rounding)) plans blank) /\
    images
    = flat_map (fun run =>
                  map (flight_frame_image (R := exact_rounding) 2 (fst run) (snd run))
                      (py_range1 2))
               (layer_runs (R := exact_rounding) blank plans)
      ++ map (fade_frame_image (R := exact_rounding) 3
                (fold_left (committed_image (R := exact_rounding)) plans blank) original)
             (py_range1 3) /\
    (a == 1)%Q /\
    last images = Some (PPalette (PBlend (store w' !!! length (store w)) original a)).
Proof.
  intros original blank w a.
  exact (animation_ends_on_the_original (R := exact_rounding) (FB := square_font)
           (uniform_gray 2 2 0) original "font.ttf" (255, 255, 255) 2 3
           w ltac:(lia)).
Defined.

(** ** Scaling to [max_width] (main.py, lines 151-152; generate_variations.py,
    lines 24-25; animate_depth_transition.py, lines 15-16) *)


Lemma Qfloor_quotient (a b : Z) : 0 < b -> Qfloor (inject_Z a / inject_Z b) = a / b.
Proof.
  intros Hb. destruct b as [|b|b]; try lia.
  rewrite <- (Qfloor_comp (a # b)) by apply Qmake_Qdiv. reflexivity.
Qed.

Section ScalingFacts.
Context {R : Rounding}.
Local Open Scope pyfloat_scope.
#[local] Existing Instance rnd_Proper.

Lemma inject_Z_nonneg (z : Z) : 0 <= z -> (0 <= inject_Z z)%Q.
Proof. intros L. change 0%Q with (inject_Z 0). now rewrite <- Zle_Qle. Qed.

Lemma inject_Z_pos (z : Z) : 0 < z -> (0 < inject_Z z)%Q.
Proof. intros L. change 0%Q with (inject_Z 0). now rewrite <- Zlt_Qlt. Qed.

(** X18: the size asked of [resize] for an image of width [w >= 1] and
    height [h >= 0] is [(max_width, h')] with [h' >= 0]; scaling down
    ([max_width <= w]) never makes the image taller and scaling up
    ([w <= max_width]) never shorter, so an image that already has the width
    [max_width] keeps its height.  This holds for every monotone rounding of
    the two float operations. *)
Theorem scaling_keeps_the_direction (w h max_width : Z) :
  1 <= w <= 2 ^ 53 -> 0 <= h <= 2 ^ 53 -> 0 <= max_width <= 2 ^ 53 ->
  exists h',
    scaled_size w h max_width = Some (max_width, h') /\
    0 <= h' /\
    (max_width <= w -> h' <= h) /\
    (w <= max_width -> h <= h').
Proof.
  intros Hw Hh Hm. unfold scaled_size.
  replace (w =? 0) with false by (symmetry; apply Z.eqb_neq; lia).
  eexists. split; [reflexivity|].
  pose proof (of_int_exact w ltac:(lia)) as Ew.
  pose proof (of_int_exact h ltac:(lia)) as Eh.
  pose proof (of_int_exact max_width ltac:(lia)) as Em.
  pose proof (inject_Z_pos w ltac:(lia)) as Pw.
  pose proof (inject_Z_nonneg h ltac:(lia)) as Ph.
  pose proof (inject_Z_nonneg max_width ltac:(lia)) as Pm.
  set (scale := of_int max_width /~ of_int w).
  assert (0 <= scale)%Q as S0.
  { subst scale. unfold fdiv. apply rnd_nonneg. rewrite Em, Ew.
    apply Qle_shift_div_l; [exact Pw|]. now rewrite Qmult_0_l. }
  split; [|split].
  - change 0 with (int_of 0%Q). apply int_of_mono. unfold fmul. apply rnd_nonneg.
    rewrite Eh. now apply Qmult_le_0_compat.
  - intros L. rewrite <- (int_of_inject h) at 2. apply int_of_mono.
    assert (scale <= 1)%Q as S1.
    { subst scale. unfold fdiv. apply (rnd_below _ 1); [simpl; lia|]. rewrite Em, Ew.
      apply Qle_shift_div_r; [exact Pw|]. rewrite Qmult_1_l. now rewrite <- Zle_Qle. }
    unfold fmul. apply rnd_below; [lia|]. rewrite Eh.
    apply Qle_trans with (inject_Z h * 1)%Q; [|rewrite Qmult_1_r; apply Qle_refl].
    rewrite !(Qmult_comm (inject_Z h)). now apply Qmult_le_compat_r.
  - intros L. rewrite <- (int_of_inject h) at 1. apply int_of_mono.
    assert (1 <= scale)%Q as S1.
    { subst scale. unfold fdiv. apply (rnd_above _ 1); [simpl; lia|]. rewrite Em, Ew.
      apply Qle_shift_div_l; [exact Pw|]. rewrite Qmult_1_l. now rewrite <- Zle_Qle. }
    unfold fmul. apply rnd_above; [lia|]. rewrite Eh.
    apply Qle_trans with (inject_Z h * 1)%Q; [rewrite Qmult_1_r; apply Qle_refl|].
    rewrite !(Qmult_comm (inject_Z h)). now apply Qmult_le_compat_r.
Qed.

End ScalingFacts.

(** X18 on a 1600x1200 image scaled to the default width 800. *)
Lemma scaling_keeps_the_direction_witness :
  exists h',
    scaled_size (R := exact_rounding) 1600 1200 800 = Some (800, h') /\
    0 <= h' /\
    (800 <= 1600 -> h' <= 1200) /\
    (1600 <= 800 -> 1200 <= h').
Proof.
  apply (scaling_keeps_the_direction (R := exact_rounding) 1600 1200 800); lia.
Defined.

(** X19: in exact arithmetic the scaled height is the truncated quotient
    [h * max_width // w].  The floats of the program can fall short of it:
    the quotient [max_width / w] is rounded before it is multiplied by [h],
    and [int] truncates, so a square image of 97x97 pixels scaled to the
    default width 800 becomes 800x799 on binary64, not 800x800. *)
Theorem scaled_height_is_a_truncated_quotient :
  (forall w h max_width,
     0 < w -> 0 <= h -> 0 <= max_width ->
     scaled_size (R := exact_rounding) w h max_width
     = Some (max_width, h * max_width / w)) /\
  scaled_size (R := exact_rounding) 97 97 800 = Some (800, 800) /\
  scaled_size_binary64 97 97 800 = Some (800, 799).
Proof.
  split; [|split; reflexivity].
  intros w h mw Hw Hh Hm. unfold scaled_size.
  replace (w =? 0) with false by (symmetry; apply Z.eqb_neq; lia).
  cbv zeta. do 2 f_equal. unfold fmul, fdiv, of_int. cbn [rnd exact_rounding].
  assert (inject_Z h * (inject_Z mw / inject_Z w) == inject_Z (h * mw) / inject_Z w)%Q as E.
  { rewrite inject_Z_mult. field.
    change 0%Q with (inject_Z 0). rewrite inject_Z_injective. lia. }
  rewrite (int_of_comp _ _ E).
  rewrite int_of_nonneg.
  - now apply Qfloor_quotient.
  - apply Qle_shift_div_l; [apply inject_Z_pos; lia|]. rewrite Qmult_0_l.
    apply inject_Z_nonneg. nia.
Qed.

(** ** The styles of generate_variations.py (lines 177-249) *)


Section VariationsFacts.
Context {R : Rounding}.
Variable path_join : string -> string -> string.

Lemma is_preset_spec (s : string) :
  is_preset s = true <-> In s (map fst get_style_presets).
Proof.
  unfold is_preset. rewrite existsb_exists. split.
  - intros (x & Hx & E). apply String.eqb_eq in E. now subst.
  - intros Hin. exists s. split; [exact Hin | apply String.eqb_refl].
Qed.

Lemma rendered_styles_app (a b : list MainCall) :
  rendered_styles (a ++ b) = rendered_styles a ++ rendered_styles b.
Proof. unfold rendered_styles. apply flat_map_app. Qed.

Lemma rendered_styles_renders (f : string -> list Layer) (g : string -> string)
    (l : list string) :
  rendered_styles (map (fun s => Render s (f s) (g s)) l) = l.
Proof. induction l as [|s l IH]; [reflexivity|]. cbn. now f_equal. Qed.

Lemma preset_layers_spec (s : string) :
  In s (map fst get_style_presets) -> In (s, preset_layers s) get_style_presets.
Proof.
  cbn. intros [<- | [<- | [<- | [<- | []]]]]; cbn; auto.
Qed.

(** The calls of a run: the renders of the selected styles, then calls that
    render nothing. *)
Lemma variations_main_calls (styles : list string) (out_dir comparison_output : string)
    (calls : list MainCall) :
  variations_main path_join styles out_dir comparison_output = Some calls ->
  exists rest,
    calls = map (fun s => Render s (preset_layers s) (variant_path path_join out_dir s))
                (List.filter is_preset styles) ++ rest /\
    rendered_styles rest = [] /\
    List.filter is_preset styles <> [].
Proof.
  unfold variations_main. destruct (List.filter is_preset styles) as [|s0 sel] eqn:Es;
    [discriminate|].
  clear Es.
  destruct (List.filter _ _) as [|k ks]; intros [= E]; subst calls; eexists; split;
    try reflexivity; split; try reflexivity; discriminate.
Qed.

(** X20: [main] of generate_variations.py validates no style name.  The
    requested names that are no preset are dropped silently; the run stops
    with [SystemExit] only when none of the requested names is a preset.
    Otherwise the styles rendered are the requested preset names in the
    order given, a name as often as it was given, each with the layers of
    its preset. *)
Theorem unknown_styles_are_dropped (styles : list string)
    (out_dir comparison_output : string) :
  (variations_main path_join styles out_dir comparison_output = None
   <-> Forall (fun s => ~ In s (map fst get_style_presets)) styles) /\
  (forall calls,
     variations_main path_join styles out_dir comparison_output = Some calls ->
     rendered_styles calls = List.filter is_preset styles /\
     (forall s, In s (rendered_styles calls)
                <-> In s styles /\ In s (map fst get_style_presets)) /\
     Forall (fun c => match c with
                      | Render s layers _ => In (s, layers) get_style_presets
                      | _ => True
                      end) calls).
Proof.
  split.
  - split.
    + intros E. apply Forall_forall. intros s Hs Hp. apply list_elem_of_In in Hs.
      assert (In s (List.filter is_preset styles)) as Hin
        by (apply filter_In; split; [exact Hs | now apply is_preset_spec]).
      unfold variations_main in E.
      destruct (List.filter is_preset styles) as [|s0 sel]; [contradiction|].
      destruct (List.filter _ _); discriminate.
    + intros F. unfold variations_main.
      destruct (List.filter is_preset styles) as [|s0 sel] eqn:Es; [reflexivity|].
      exfalso. assert (In s0 (List.filter is_preset styles)) as Hin
        by (rewrite Es; now left).
      apply filter_In in Hin as [Hs Hp]. rewrite Forall_forall in F.
      apply (F s0); [now apply list_elem_of_In | now apply is_preset_spec].
  - intros calls E.
    destruct (variations_main_calls styles out_dir comparison_output calls E)
      as (rest & -> & Er & _).
    assert (rendered_styles
              (map (fun s => Render s (preset_layers s) (variant_path path_join out_dir s))
                   (List.filter is_preset styles) ++ rest)
            = List.filter is_preset styles) as Rs.
    { rewrite rendered_styles_app, Er, app_nil_r.
      apply (rendered_styles_renders preset_layers (variant_path path_join out_dir)). }
    split; [exact Rs|]. split.
    + intros s. rewrite Rs, filter_In, is_preset_spec. reflexivity.
    + apply Forall_app. split.
      * apply Forall_forall. intros c Hc. apply list_elem_of_In, in_map_iff in Hc.
        destruct Hc as (s & <- & Hs). apply filter_In in Hs as [_ Hp].
        now apply preset_layers_spec, is_preset_spec.
      * clear Rs. unfold variations_main in E.
        destruct (List.filter is_preset styles) as [|s0 sel]; [discriminate|].
        destruct (List.filter _ _); injection E as E; apply app_inv_head in E;
          subst rest; repeat constructor.
Qed.

Lemma key_styles_are_few (selected : list string) :
  (length (List.filter (fun s => existsb (String.eqb s) selected)
             ["subtle_soft"; "graphic_bold"; "deep_dense"]%string) <= 3)%nat.
Proof.
  cbn [List.filter]. repeat destruct (existsb _ _); cbn [length]; lia.
Qed.

Lemma NoDup_key_styles (selected : list string) :
  NoDup (List.filter (fun s => existsb (String.eqb s) selected)
           ["subtle_soft"; "graphic_bold"; "deep_dense"]%string).
Proof.
  apply NoDup_ListNoDup, List.NoDup_filter, NoDup_ListNoDup.
  repeat constructor; rewrite ?list_elem_of_In; cbn; intuition discriminate.
Qed.

(** The calls after the renders. *)
Lemma variations_main_stitches (styles : list string)
    (out_dir comparison_output : string) (calls : list MainCall) :
  variations_main path_join styles out_dir comparison_output = Some calls ->
  let selected := List.filter is_preset styles in
  let key_styles :=
    List.filter (fun s => existsb (String.eqb s) selected)
      ["subtle_soft"; "graphic_bold"; "deep_dense"]%string in
  stitched_labels calls
  = match key_styles with
    | [] => [selected]
    | _ => [ "original"%string :: key_styles; take 3 selected ++ ["evaluation"%string] ]
    end /\
  Forall (fun c => match c with
                   | Stitch image_paths _ labels => length image_paths = length labels
                   | _ => True
                   end) calls.
Proof.
  intros E selected key_styles. unfold variations_main in E.
  fold selected in E. fold key_styles in E.
  assert (forall l : list string,
            stitched_labels
              (map (fun s => Render s (preset_layers s) (variant_path path_join out_dir s)) l)
            = []) as Nr.
  { intros l. induction l as [|s l IH]; [reflexivity | exact IH]. }
  assert (forall l : list string,
            Forall (fun c => match c with
                             | Stitch image_paths _ labels =>
                                 length image_paths = length labels
                             | _ => True
                             end)
              (map (fun s => Render s (preset_layers s) (variant_path path_join out_dir s)) l))
    as Fr.
  { intros l. apply Forall_forall. intros c Hc. apply list_elem_of_In, in_map_iff in Hc.
    now destruct Hc as (s & <- & _). }
  destruct selected as [|s0 sel]; [discriminate|].
  pose proof (Nr (s0 :: sel)) as N0. pose proof (Fr (s0 :: sel)) as F0.
  cbn [map] in N0, F0.
  destruct key_styles as [|k0 ks]; injection E as E; subst calls;
    rewrite app_comm_cons; (split; [|apply Forall_app; split; [exact F0|]]).
  - unfold stitched_labels in *. now rewrite flat_map_app, N0.
  - repeat constructor. cbn [length]. now rewrite length_map.
  - unfold stitched_labels in *. now rewrite flat_map_app, N0.
  - repeat constructor.
    + cbn [length]. now rewrite length_map.
    + cbn [length]. rewrite !length_app. cbn [length]. now rewrite length_map.
Qed.

Lemma selected_are_presets (styles : list string) (s : string) :
  In s (List.filter is_preset styles) -> In s (map fst get_style_presets).
Proof. intros Hin. apply filter_In in Hin as [_ Hp]. now apply is_preset_spec. Qed.

(** X21: what [main] does after the renders.  The key styles are those of
    [subtle_soft], [graphic_bold], [deep_dense] that were selected, in this
    fixed order, each once.  Every panel of a stitched image is the file
    named after its label in the output directory.  When no key style was
    selected, one comparison of all the rendered variants is made.
    Otherwise the original is saved and two images are made: first the
    evaluation sheet, with the original and the key styles (at most four
    panels), then the comparison, with the first three selected styles and
    the evaluation sheet.  A selected style that is no key style and not
    among the first three is rendered but shown in neither. *)
Theorem stitched_panels (styles : list string) (out_dir comparison_output : string)
    (calls : list MainCall) :
  variations_main path_join styles out_dir comparison_output = Some calls ->
  let selected := List.filter is_preset styles in
  let key_order := ["subtle_soft"; "graphic_bold"; "deep_dense"]%string in
  let key_styles := List.filter (fun s => existsb (String.eqb s) selected) key_order in
  let panel := fun label => path_join out_dir (label ++ ".png")%string in
  let comparison := path_join out_dir comparison_output in
  (sublist key_styles key_order /\
   (forall s, In s key_styles <-> In s key_order /\ In s selected) /\
   NoDup key_styles /\
   (length key_styles <= 3)%nat) /\
  calls
  = map (fun s => Render s (preset_layers s) (panel s)) selected
    ++ match key_styles with
       | [] => [Stitch (map panel selected) comparison selected]
       | _ =>
           [ SaveOriginal (panel "original"%string);
             Stitch (map panel ("original"%string :: key_styles))
                    (panel "evaluation"%string) ("original"%string :: key_styles);
             Stitch (map panel (take 3 selected ++ ["evaluation"%string]))
                    comparison (take 3 selected ++ ["evaluation"%string]) ]
       end /\
  Forall (fun c => match c with
                   | Stitch image_paths _ labels => image_paths = map panel labels
                   | _ => True
                   end) calls /\
  ((forall s, In s key_order -> ~ In s selected) ->
   stitched_labels calls = [selected]) /\
  (forall k, In k key_order -> In k selected ->
     stitched_labels calls
     = [ "original"%string :: key_styles; take 3 selected ++ ["evaluation"%string] ] /\
     (forall s, In s selected -> ~ In s key_order -> ~ In s (take 3 selected) ->
        In s (rendered_styles calls) /\
        Forall (fun labels => ~ In s labels) (stitched_labels calls))).
Proof.
  intros E selected key_order key_styles panel comparison.
  pose proof (variations_main_calls styles out_dir comparison_output calls E)
    as (rest & Ec & Er & _).
  assert (rendered_styles calls = selected) as Rs.
  { rewrite Ec, rendered_styles_app, Er, app_nil_r.
    apply (rendered_styles_renders preset_layers (variant_path path_join out_dir)). }
  clear rest Ec Er.
  pose proof (variations_main_stitches styles out_dir comparison_output calls E)
    as [Sl _].
  cbv zeta in Sl. fold selected in Sl. fold key_order in Sl. fold key_styles in Sl.
  assert (forall s, In s key_styles <-> In s key_order /\ In s selected) as Hk.
  { intros s. subst key_styles. rewrite filter_In, existsb_exists. split.
    - intros [Ho (x & Hx & Ex)]. apply String.eqb_eq in Ex. now subst.
    - intros [Ho Hs]. split; [exact Ho|]. exists s. split; [exact Hs|].
      apply String.eqb_refl. }
  assert (calls
          = map (fun s => Render s (preset_layers s) (panel s)) selected
            ++ match key_styles with
               | [] => [Stitch (map panel selected) comparison selected]
               | _ =>
                   [ SaveOriginal (panel "original"%string);
                     Stitch (map panel ("original"%string :: key_styles))
                            (panel "evaluation"%string)
                            ("original"%string :: key_styles);
                     Stitch (map panel (take 3 selected ++ ["evaluation"%string]))
                            comparison (take 3 selected ++ ["evaluation"%string]) ]
               end) as Ec.
  { unfold variations_main in E. fold selected in E. fold key_order in E.
    fold key_styles in E.
    destruct selected as [|s0 sel] eqn:Es; [discriminate|]. rewrite <- Es in *.
    destruct key_styles as [|k0 ks]; injection E as <-; [reflexivity|].
    rewrite map_app. reflexivity. }
  split; [|split; [exact Ec|split; [|split]]].
  - split; [|split; [exact Hk|split; [apply NoDup_key_styles|apply key_styles_are_few]]].
    subst key_styles key_order. cbn [List.filter].
    repeat destruct (existsb _ _);
      repeat first [apply sublist_skip | apply sublist_cons | apply sublist_nil].
  - rewrite Ec. apply Forall_app. split.
    + apply Forall_forall. intros c Hc. apply list_elem_of_In, in_map_iff in Hc.
      now destruct Hc as (s & <- & _).
    + destruct key_styles; repeat constructor.
  - intros No. destruct key_styles as [|k0 ks]; [exact Sl|].
    exfalso. destruct (proj1 (Hk k0) ltac:(now left)) as [Ho Hs]. now apply (No k0).
  - intros k Ho Hs.
    assert (key_styles <> []) as Ne.
    { intros En. pose proof (proj2 (Hk k) (conj Ho Hs)) as Hin. rewrite En in Hin.
      contradiction. }
    assert (stitched_labels calls
            = [ "original"%string :: key_styles;
                take 3 selected ++ ["evaluation"%string] ]) as Sl'
      by (destruct key_styles; [congruence | exact Sl]).
    split; [exact Sl'|].
    intros s Hsel Nk Nt. split; [now rewrite Rs|].
    pose proof (selected_are_presets styles s Hsel) as Hp.
    rewrite Sl'. repeat constructor.
    + intros [<- | Hin]; [|apply Hk in Hin; tauto].
      cbn in Hp. intuition discriminate.
    + rewrite in_app_iff. intros [Hin | [<- | []]]; [tauto|].
      cbn in Hp. intuition discriminate.
Qed.

End VariationsFacts.

(** X21 with the default styles: the three key styles are selected; the
    evaluation sheet shows the original and the three of them, the
    comparison the first three styles and the evaluation sheet;
    [minimal_airy] is rendered, but neither stitched image shows it. *)
Lemma stitched_panels_witness :
  let styles := ["subtle_soft"; "graphic_bold"; "deep_dense"; "minimal_airy"]%string in
  exists renders,
    variations_main (R := exact_rounding) String.append styles "variations/"
      "comparison.png"
    = Some (renders ++
            [ SaveOriginal "variations/original.png";
              Stitch [ "variations/original.png"; "variations/subtle_soft.png";
                       "variations/graphic_bold.png"; "variations/deep_dense.png" ]
                     "variations/evaluation.png"
                     [ "original"; "subtle_soft"; "graphic_bold"; "deep_dense" ];
              Stitch [ "variations/subtle_soft.png"; "variations/graphic_bold.png";
                       "variations/deep_dense.png"; "variations/evaluation.png" ]
                     "variations/comparison.png"
                     [ "subtle_soft"; "graphic_bold"; "deep_dense"; "evaluation" ] ]%string) /\
    rendered_styles renders = styles /\
    Forall (fun labels => ~ In "minimal_airy"%string labels)
           (stitched_labels
              (renders ++
               [ SaveOriginal "variations/original.png";
                 Stitch [ "variations/original.png"; "variations/subtle_soft.png";
                          "variations/graphic_bold.png"; "variations/deep_dense.png" ]
                        "variations/evaluation.png"
                        [ "original"; "subtle_soft"; "graphic_bold"; "deep_dense" ];
                 Stitch [ "variations/subtle_soft.png"; "variations/graphic_bold.png";
                          "variations/deep_dense.png"; "variations/evaluation.png" ]
                        "variations/comparison.png"
                        [ "subtle_soft"; "graphic_bold"; "deep_dense"; "evaluation" ] ]%string)).
Proof.
  intros styles.
  pose proof (stitched_panels (R := exact_rounding) String.append styles
                "variations/" "comparison.png" _ eq_refl)
    as (_ & Ec & _ & _ & Key).
  eexists. split; [reflexivity|]. split; [reflexivity|].
  destruct (Key "subtle_soft"%string ltac:(cbn; tauto) ltac:(cbn; tauto))
    as (_ & Hidden).
  apply (Hidden "minimal_airy"%string).
  - cbn. tauto.
  - cbn. intuition discriminate.
  - cbn. intuition discriminate.
Defined.

(** ** The comparison strip (generate_variations.py, lines 83-132) *)


Lemma zsum_app (a b : list Z) : zsum (a ++ b) = zsum a + zsum b.
Proof.
  unfold zsum. induction a as [|x a IH]; [reflexivity|].
  cbn [app fold_right]. lia.
Qed.

Lemma zsum_nonneg (l : list Z) : Forall (fun z => 0 <= z) l -> 0 <= zsum l.
Proof.
  unfold zsum. induction 1 as [|z l Hz _ IH]; cbn [fold_right]; lia.
Qed.

Lemma fold_left_max_bounds (l : list Z) (a : Z) :
  a <= fold_left Z.max l a /\ Forall (fun z => z <= fold_left Z.max l a) l.
Proof.
  revert a. induction l as [|z l IH]; intros a; [split; [cbn; lia | constructor]|].
  cbn [fold_left]. destruct (IH (Z.max a z)) as [B F]. split; [lia|].
  constructor; [lia | exact F].
Qed.

Section StitchFacts.
Context `{Imaging image} {L : Labelling image}.

Lemma widths_nonneg (l : list image) :
  Forall (fun im => 0 <= fst (image_size im)) l ->
  0 <= zsum (map (fun im => fst (image_size im)) l).
Proof.
  unfold zsum. induction 1 as [|im l Hi _ IH]; cbn [map fold_right]; lia.
Qed.

Lemma tallest_bounds (images : list image) (k : nat) (im : image) :
  images !! k = Some im -> snd (image_size im) <= tallest images.
Proof.
  intros Hk. unfold tallest.
  assert (In (snd (image_size im)) (map (fun im => snd (image_size im)) images)) as Hin.
  { apply in_map_iff. exists im. split; [reflexivity|].
    apply list_elem_of_In. eapply list_elem_of_lookup_2. exact Hk. }
  destruct (map _ images) as [|a l]; [contradiction|].
  destruct (fold_left_max_bounds l a) as [B F].
  destruct Hin as [<- | Hin]; [exact B|].
  rewrite Forall_forall in F. apply F. now apply list_elem_of_In.
Qed.

Lemma panel_x_next (images : list image) (k : nat) (im : image) :
  images !! k = Some im ->
  panel_x images (S k) = panel_x images k + fst (image_size im).
Proof.
  intros Hk. unfold panel_x. rewrite (take_S_r _ _ _ Hk).
  rewrite map_app, zsum_app. cbn. lia.
Qed.

Lemma stitch_panel_spec (canvas : loc) (images : list image)
    (labels : option (list string)) (k : nat) (im : image) (w : World image) :
  stitch_panel canvas labels (tallest images) (if truthy labels then 40 else 0)
    (panel_x images k) (k, im) w
  = Ok (panel_x images k + fst (image_size im),
        with_store (alter (fun c => paste_panel images labels c (k, im)) canvas (store w))
                   w).
Proof.
  unfold stitch_panel, paste_panel, panel_y.
  destruct (image_size im) as [im_width im_height] eqn:Es. cbn [fst snd].
  erewrite bind_ok by reflexivity.
  destruct (truthy labels) eqn:T; cbn [andb].
  - destruct (k <? length (default [] labels))%nat eqn:B.
    + apply Nat.ltb_lt in B. destruct (lookup_lt_is_Some_2 _ _ B) as [label El].
      rewrite El. destruct (textbbox label) as [[[b0 b1] b2] b3].
      erewrite bind_ok by reflexivity. unfold ret, with_store. cbn [draws picks cursor store].
      now rewrite list_alter_alter_eq.
    + apply Nat.ltb_ge in B. rewrite (lookup_ge_None_2 _ _ B).
      erewrite bind_ok by reflexivity. reflexivity.
  - erewrite bind_ok by reflexivity. reflexivity.
Qed.

Lemma stitch_loop_spec (canvas : loc) (images : list image)
    (labels : option (list string)) (pre suf : list image) (w : World image) :
  images = pre ++ suf ->
  for_fold (combine (seq (length pre) (length suf)) suf) (panel_x images (length pre))
    (stitch_panel canvas labels (tallest images) (if truthy labels then 40 else 0)) w
  = Ok (panel_x images (length images),
        with_store
          (alter (fun c => fold_left (paste_panel images labels)
                             (combine (seq (length pre) (length suf)) suf) c)
                 canvas (store w)) w).
Proof.
  revert pre w. induction suf as [|im suf IH]; intros pre w E.
  - cbn. unfold ret. rewrite list_alter_id by reflexivity.
    rewrite with_store_same. subst images. now rewrite app_nil_r.
  - cbn [length seq combine for_fold fold_left].
    rewrite (bind_ok _ _ _ _ _ (stitch_panel_spec canvas images labels (length pre) im w)).
    assert (images !! length pre = Some im) as Hk
      by (subst images; now apply list_lookup_middle).
    rewrite <- (panel_x_next images (length pre) im Hk).
    specialize (IH (pre ++ [im]) (with_store
                     (alter (fun c => paste_panel images labels c (length pre, im))
                            canvas (store w)) w)).
    rewrite length_app in IH. cbn [length] in IH.
    replace (length pre + 1)%nat with (S (length pre)) in IH by lia.
    rewrite IH by (subst images; now rewrite <- app_assoc).
    cbn [store with_store]. rewrite list_alter_alter_eq. reflexivity.
Qed.

(** X22: [stitch_side_by_side] on a non-empty list of images saves one new
    image and changes no other: the white canvas, as wide as all the panels
    together and as high as the tallest (plus 40 pixels when there are
    labels), with the panels pasted from left to right.  Panel [k] starts at
    the sum of the widths of the panels before it, so the panels neither
    overlap nor leave a gap, and is centred vertically within the height of
    the tallest panel: it never sticks out above or below.  A panel is
    labelled when the list of labels reaches it; labels beyond the last
    panel are ignored. *)
Theorem stitch_side_by_side_layout (images : list image)
    (labels : option (list string)) (w : World image) :
  images <> [] ->
  let total_width := zsum (map (fun im => fst (image_size im)) images) in
  let label_height := if truthy labels then 40 else 0 in
  let blank :=
    image_new total_width (tallest images + label_height) (255, 255, 255, 255) in
  let saved := fold_left (paste_panel images labels) (enumerate images) blank in
  stitch_side_by_side images labels w
  = Ok (Some saved, with_store (store w ++ [saved]) w) /\
  (forall k im, images !! k = Some im ->
     0 <= panel_y images im /\
     panel_y images im + snd (image_size im) <= tallest images /\
     panel_x images (S k) = panel_x images k + fst (image_size im)) /\
  (Forall (fun im => 0 <= fst (image_size im)) images ->
   forall k im, images !! k = Some im ->
     0 <= panel_x images k /\ panel_x images k + fst (image_size im) <= total_width).
Proof.
  intros N total_width label_height blank saved. split; [|split].
  - unfold stitch_side_by_side. destruct images as [|im0 ims]; [congruence|].
    set (images := im0 :: ims) in *.
    assert (py_max (map (fun im => snd (image_size im)) images) w
            = Ok (tallest images, w)) as Em by reflexivity.
    rewrite (bind_ok _ _ _ _ _ Em). fold total_width. fold label_height. fold blank.
    erewrite bind_ok by reflexivity.
    set (w0 := mkWorld _ _ _ _).
    pose proof (stitch_loop_spec (length (store w)) images labels [] images w0 eq_refl)
      as El.
    cbn [length] in El. change (panel_x images 0) with 0 in El.
    fold (enumerate images) in El. fold label_height in El.
    rewrite (bind_ok _ _ _ _ _ El).
    unfold read_object, bind, ret. cbn [store with_store]. subst w0. cbn [store].
    rewrite alter_app_r_alt by lia. rewrite Nat.sub_diag. cbn [alter list_alter].
    unfold saved, blank, total_width.
    rewrite list_lookup_total_middle by reflexivity. reflexivity.
  - intros k im Hk. pose proof (tallest_bounds images k im Hk) as B.
    unfold panel_y. split; [apply Z.div_pos; lia|]. split.
    + assert ((tallest images - snd (image_size im)) / 2
              <= tallest images - snd (image_size im)); [|lia].
      apply Z.div_le_upper_bound; lia.
    + now apply panel_x_next.
  - intros F k im Hk. unfold panel_x, total_width.
    rewrite <- (take_drop k images) at 3. rewrite map_app, zsum_app.
    rewrite (drop_S _ _ _ Hk). cbn [map zsum fold_right].
    pose proof (widths_nonneg (take k images) (Forall_take _ k _ F)) as P1.
    pose proof (widths_nonneg (drop (S k) images) (Forall_drop _ (S k) _ F)) as P2.
    unfold zsum in *. lia.
Qed.

End StitchFacts.

(** X22 on two panels of 800x600 and 800x400 with their labels. *)
Lemma stitch_side_by_side_layout_witness :
  let images := [SPanel 800 600; SPanel 800 400] in
  let labels := Some ["subtle_soft"; "graphic_bold"]%string in
  let saved :=
    fold_left (paste_panel (H := sheet_imaging) (L := sheet_labelling) images labels)
      (enumerate images) (SBlank 1600 640 (255, 255, 255, 255)) in
  stitch_side_by_side (H := sheet_imaging) (L := sheet_labelling) images labels
    (constant_world 0)
  = Ok (Some saved, with_store ([] ++ [saved]) (constant_world 0)).
Proof.
  intros images labels saved.
  exact (proj1 (stitch_side_by_side_layout (H := sheet_imaging) (L := sheet_labelling)
                  images labels (constant_world 0) ltac:(discriminate))).
Defined.

(** ** Black cells (main.py, lines 34-52; animate_depth_transition.py, lines
    43-83) *)

Section BlackCells.
Context {R : Rounding} {FB : FontBackend} {image : Type}.
Local Open Scope pyfloat_scope.
#[local] Existing Instance rnd_Proper.

Lemma darkness_of_black (lum : Q) : (lum == 0)%Q -> (lit 1 -~ lum /~ lit 255 == 1)%Q.
Proof.
  intros E. pose proof darkness_at_black as B. unfold fsub, fdiv in *.
  now rewrite E.
Qed.

(** A black cell gets the full density scale and the full alpha boost. *)
Lemma black_cell_mapping (img : GrayImage) (stride base_alpha alpha_boost_dark : Z)
    (density_scale : pyfloat) (x y : Z) :
  0 <= x < gray_width img -> 0 <= y < gray_height img -> 0 < stride ->
  (forall i j, getpixel img i j = 0) ->
  Z.abs base_alpha <= 2 ^ 52 -> Z.abs alpha_boost_dark <= 2 ^ 52 ->
  fst (cell_mapping img stride base_alpha alpha_boost_dark density_scale x y)
  = Z.max 0 (Z.min 255 (base_alpha + alpha_boost_dark)) /\
  (snd (cell_mapping img stride base_alpha alpha_boost_dark density_scale x y)
   == rnd density_scale)%Q.
Proof.
  intros Hx Hy Hs U Ba Bb. unfold cell_mapping, luminance_to_alpha_and_density.
  cbn [fst snd].
  pose proof (sample_flat_cell img x y stride 0 Hx Hy Hs ltac:(lia) U) as E.
  pose proof (darkness_of_black _ E) as D. split.
  - rewrite <- (int_of_inject (base_alpha + alpha_boost_dark)). do 2 f_equal.
    apply int_of_comp. unfold fadd, fmul. rewrite D, Qmult_1_l.
    unfold of_int. rewrite rnd_idem, (rnd_int base_alpha), (rnd_int alpha_boost_dark) by lia.
    rewrite <- inject_Z_plus. apply rnd_int. lia.
  - unfold fmul. now rewrite D, Qmult_1_l.
Qed.

Variables (img_gray : GrayImage) (font_path : string) (layer : Layer)
  (words : list word) (dm : pyfloat).

Lemma saturated_cells (cells : list (Z * Z)) (alpha : Z) (targets : list Glyph)
    (w : World image) :
  words <> [] ->
  (forall k, (draws w k < 1)%Q) ->
  (forall c, In c cells ->
     fst (cell_mapping img_gray (step layer) (base_alpha layer) (alpha_boost_dark layer)
            (density_scale layer *~ dm) (fst c) (snd c)) = alpha /\
     (1 <= snd (cell_mapping img_gray (step layer) (base_alpha layer)
                  (alpha_boost_dark layer) (density_scale layer *~ dm) (fst c) (snd c)))%Q) ->
  exists new,
    for_fold cells targets
      (fun targets c =>
         generate_layer_targets_cell img_gray font_path layer words dm targets
           (fst c) (snd c)) w
    = Ok (targets ++ new, advance_by (5 * length cells) w) /\
    length new = length cells /\
    Forall (fun g => glyph_alpha g = alpha) new.
Proof.
  intros N Hr. revert targets w Hr. induction cells as [|c cells IH]; intros targets w Hr Hc.
  - exists []. cbn. unfold ret. rewrite app_nil_r, advance_by_0. now repeat split.
  - destruct (Hc c ltac:(now left)) as [Ea Ed].
    destruct (generate_layer_targets_cell_placed img_gray font_path layer words dm
                targets (fst c) (snd c) w N) as (g & E & _ & _ & _ & Eg & _).
    { apply unit_draw_never_exceeds; [apply Hr | exact Ed]. }
    destruct (IH (targets ++ [g]) (advance_by 5 w) Hr) as (new & E2 & L & F).
    { intros c' Hc'. apply Hc. now right. }
    exists (g :: new). cbn [for_fold length]. rewrite (bind_ok _ _ _ _ _ E), E2.
    rewrite advance_by_add, <- app_assoc. split; [|split].
    + cbn [app]. do 3 f_equal. lia.
    + cbn [length]. now rewrite L.
    + constructor; [now rewrite Eg | exact F].
Qed.

(** X23: a black image saturates a layer whose density scale (times the
    multiplier) is 1 or more.  Every grid cell has luminance 0, so its
    density is the density scale and its alpha the clamped
    [base_alpha + alpha_boost_dark]; no draw of [0, 1) thins a cell out, and
    the planner returns exactly one glyph per grid cell, each with that
    alpha, having consumed five outputs of the generator per cell. *)
Theorem black_image_is_saturated (w : World image) :
  0 < step layer ->
  (forall i j, getpixel img_gray i j = 0) ->
  (forall k, (draws w k < 1)%Q) ->
  words <> [] ->
  (1 <= density_scale layer *~ dm)%Q ->
  Z.abs (base_alpha layer) <= 2 ^ 52 -> Z.abs (alpha_boost_dark layer) <= 2 ^ 52 ->
  let n := length (grid_cells (gray_width img_gray) (gray_height img_gray) (step layer)) in
  exists targets,
    generate_layer_targets img_gray font_path layer words dm w
    = Ok (targets, advance_by (5 * n) w) /\
    length targets = n /\
    Forall (fun g => glyph_alpha g
                     = Z.max 0 (Z.min 255 (base_alpha layer + alpha_boost_dark layer)))
           targets.
Proof.
  intros S U Hr N Hd Ba Bb n.
  rewrite generate_layer_targets_as_scan by lia.
  destruct (saturated_cells
              (grid_cells (gray_width img_gray) (gray_height img_gray) (step layer))
              (Z.max 0 (Z.min 255 (base_alpha layer + alpha_boost_dark layer))) [] w N Hr)
    as (new & E & L & F).
  - intros [x y] Hin. apply In_grid_cells in Hin as [Hx Hy].
    apply In_range_list in Hx, Hy; try exact S. cbn [fst snd].
    destruct (black_cell_mapping img_gray (step layer) (base_alpha layer)
                (alpha_boost_dark layer) (density_scale layer *~ dm) x y
                ltac:(lia) ltac:(lia) S U Ba Bb) as [Ea Ed].
    split; [exact Ea|]. rewrite Ed. unfold fmul. now rewrite rnd_idem.
  - exists new. now repeat split.
Qed.

End BlackCells.

(** X23 on a black 4x2 image with the third layer of [subtle_soft] at step
    2: two cells, two glyphs of alpha 190. *)
Lemma black_image_is_saturated_witness :
  let layer := mkLayer 18 2 40 150 1.2 (0, 0, 0) None None in
  exists targets,
    generate_layer_targets (R := exact_rounding) (FB := square_font) (image := Pic)
      (uniform_gray 4 2 0) "font.ttf" layer chinese_words 1 (constant_world 0.5)
    = Ok (targets, advance_by (5 * length (grid_cells 4 2 2)) (constant_world 0.5)) /\
    length targets = length (grid_cells 4 2 2) /\
    Forall (fun g => glyph_alpha g = Z.max 0 (Z.min 255 (40 + 150))) targets.
Proof.
  intros layer.
  apply (black_image_is_saturated (R := exact_rounding) (FB := square_font)
           (uniform_gray 4 2 0) "font.ttf" layer chinese_words 1 (constant_world 0.5)).
  - simpl. lia.
  - reflexivity.
  - reflexivity.
  - discriminate.
  - apply Qle_bool_iff. reflexivity.
  - simpl. lia.
  - simpl. lia.
Defined.

(** ** The range of a placement (main.py, lines 95-101; the same at lines
    58-64 of animate_depth_transition.py) *)


Section Monotone.
Context {R : Rounding}.
Local Open Scope pyfloat_scope.
#[local] Existing Instance rnd_Proper.

Lemma fmul_mono_r (a b c : Q) : (0 <= c)%Q -> (a <= b)%Q -> (c *~ a <= c *~ b)%Q.
Proof.
  intros Hc L. unfold fmul. apply rnd_mono. rewrite !(Qmult_comm c).
  now apply Qmult_le_compat_r.
Qed.

Lemma fmul_nonneg (a b : Q) : (0 <= a)%Q -> (0 <= b)%Q -> (0 <= a *~ b)%Q.
Proof. intros. apply rnd_nonneg. now apply Qmult_le_0_compat. Qed.




End Monotone.

Section PlacementRange.
Context {R : Rounding} {FB : FontBackend} {image : Type}.
Local Open Scope pyfloat_scope.


End PlacementRange.


(** ** The progress of the flight and of the fade (animate_depth_transition.py,
    lines 155-189 and 210-217) *)


Section Progress.
Context {R : Rounding}.
Local Open Scope pyfloat_scope.
#[local] Existing Instance rnd_Proper.

Lemma fmul_anti_r (a b c : Q) : (c <= 0)%Q -> (a <= b)%Q -> (c *~ b <= c *~ a)%Q.
Proof.
  intros Hc L. unfold fmul. apply rnd_mono.
  assert (0 <= (- c) * (b - a))%Q by (apply Qmult_le_0_compat; lra).
  assert (c * a - c * b == (- c) * (b - a))%Q as E by ring. lra.
Qed.

Lemma of_int_mono (a b : Z) : a <= b -> (of_int a <= of_int b)%Q.
Proof. intros L. apply rnd_mono. now rewrite <- Zle_Qle. Qed.

(** The progress of a flight, and the weight of a fade, grow with the frame
    and stay in [0, 1]. *)
Lemma flight_t_norm_mono (n f1 f2 : Z) :
  1 <= n -> f1 <= f2 -> (flight_t_norm n f1 <= flight_t_norm n f2)%Q.
Proof.
  intros Hn L. unfold flight_t_norm. apply fdiv_mono_l; [|apply of_int_mono; lia].
  apply Qlt_le_trans with 1%Q; [reflexivity|].
  change 1%Q with (inject_Z 1). apply rnd_above; [simpl; lia|].
  rewrite <- Zle_Qle. lia.
Qed.

Lemma flight_t_norm_range (n f : Z) :
  1 <= n <= 2 ^ 53 -> 0 <= f < n -> (0 <= flight_t_norm n f <= 1)%Q.
Proof.
  intros Hn Hf. split.
  - unfold flight_t_norm, fdiv. apply rnd_nonneg.
    apply Qle_shift_div_l.
    + apply Qlt_le_trans with 1%Q; [reflexivity|].
      change 1%Q with (inject_Z 1). apply rnd_above; [simpl; lia|].
      rewrite <- Zle_Qle. lia.
    + rewrite Qmult_0_l. apply of_int_nonneg. lia.
  - rewrite <- (last_t_norm_is_one n Hn). apply flight_t_norm_mono; lia.
Qed.

Lemma lerp_mono (s t p1 p2 : Q) :
  (s <= t)%Q -> (p1 <= p2)%Q -> (s +~ (t -~ s) *~ p1 <= s +~ (t -~ s) *~ p2)%Q.
Proof.
  intros L P. apply fadd_mono; [apply Qle_refl|]. apply fmul_mono_r; [|exact P].
  unfold fsub. apply rnd_nonneg. lra.
Qed.

Lemma lerp_anti (s t p1 p2 : Q) :
  (t <= s)%Q -> (p1 <= p2)%Q -> (s +~ (t -~ s) *~ p2 <= s +~ (t -~ s) *~ p1)%Q.
Proof.
  intros L P. apply fadd_mono; [apply Qle_refl|]. apply fmul_anti_r; [|exact P].
  unfold fsub. apply (rnd_below _ 0); [simpl; lia|]. change (inject_Z 0) with 0%Q. lra.
Qed.

Lemma lerp_from_start (s t p : Q) :
  (0 <= p)%Q ->
  ((s <= t)%Q -> (rnd s <= s +~ (t -~ s) *~ p)%Q) /\
  ((t <= s)%Q -> (s +~ (t -~ s) *~ p <= rnd s)%Q).
Proof.
  intros P. split; intros L; unfold fadd; apply rnd_mono.
  - assert (0 <= (t -~ s) *~ p)%Q; [|lra].
    apply rnd_nonneg, Qmult_le_0_compat; [|exact P]. unfold fsub. apply rnd_nonneg. lra.
  - assert ((t -~ s) *~ p <= 0)%Q; [|lra].
    apply (rnd_below _ 0); [simpl; lia|]. change (inject_Z 0) with 0%Q.
    assert (t -~ s <= 0)%Q as D.
    { unfold fsub. apply (rnd_below _ 0); [simpl; lia|]. change (inject_Z 0) with 0%Q. lra. }
    assert (0 <= (- (t -~ s)) * p)%Q by (apply Qmult_le_0_compat; lra).
    assert ((t -~ s) * p == - ((- (t -~ s)) * p))%Q as E by ring. lra.
Qed.

(** X26: a glyph in flight never turns back and never leaves the side of
    its start.  For frames [f1 <= f2] of a layer, on each axis the centre on
    frame [f2] is at least as far from the start, towards the target, as the
    centre on frame [f1], and both lie on the target's side of the (rounded)
    start coordinate. *)
Theorem glyphs_approach_without_turning_back
    (frames_per_layer f1 f2 : Z) (sx sy tx ty : pyfloat) :
  1 <= frames_per_layer <= 2 ^ 53 -> 0 <= f1 -> f1 <= f2 -> f2 < frames_per_layer ->
  let c1 := flight_center (flight_t_norm frames_per_layer f1) (sx, sy) (tx, ty) in
  let c2 := flight_center (flight_t_norm frames_per_layer f2) (sx, sy) (tx, ty) in
  ((sx <= tx)%Q -> (rnd sx <= fst c1 <= fst c2)%Q) /\
  ((tx <= sx)%Q -> (fst c2 <= fst c1 <= rnd sx)%Q) /\
  ((sy <= ty)%Q -> (rnd sy <= snd c1 <= snd c2)%Q) /\
  ((ty <= sy)%Q -> (snd c2 <= snd c1 <= rnd sy)%Q).
Proof.
  intros Hn H0 H12 H2 c1 c2. subst c1 c2. cbn [flight_center fst snd].
  pose proof (flight_t_norm_mono frames_per_layer f1 f2 ltac:(lia) H12) as M.
  pose proof (flight_t_norm_range frames_per_layer f1 Hn ltac:(lia)) as [P _].
  split; [|split; [|split]]; intros L; split.
  - now apply lerp_from_start.
  - now apply lerp_mono.
  - now apply lerp_anti.
  - now apply lerp_from_start.
  - now apply lerp_from_start.
  - now apply lerp_mono.
  - now apply lerp_anti.
  - now apply lerp_from_start.
Qed.

Lemma flight_blur_anti (t1 t2 : Q) :
  (t1 <= t2)%Q -> (flight_blur_radius t2 <= flight_blur_radius t1)%Q.
Proof.
  intros L. unfold flight_blur_radius. apply fmul_mono_r.
  - apply rnd_nonneg. discriminate.
  - apply fsub_mono; [apply Qle_refl | exact L].
Qed.

Lemma fmax_mono (a b c : Q) : (b <= c)%Q -> (fmax a b <= fmax a c)%Q.
Proof.
  intros L. unfold fmax.
  destruct (fgt b a) eqn:E1; destruct (fgt c a) eqn:E2;
    rewrite ?fgt_true, ?fgt_false in *; lra.
Qed.

Lemma fade_blur_anti (a1 a2 : Q) :
  (a1 <= a2)%Q -> (fade_blur_radius a2 <= fade_blur_radius a1)%Q.
Proof.
  intros L. unfold fade_blur_radius. apply fmax_mono.
  apply fsub_mono; [apply Qle_refl|]. apply fmul_mono_r; [|exact L].
  apply rnd_nonneg. discriminate.
Qed.

Lemma flight_blur_nonneg (t : Q) : (t <= 1)%Q -> (0 <= flight_blur_radius t)%Q.
Proof.
  intros L. unfold flight_blur_radius. apply fmul_nonneg; [apply rnd_nonneg; discriminate|].
  unfold fsub, lit. apply rnd_nonneg.
  assert (rnd 1 == 1)%Q as E1 by (apply (rnd_int 1); simpl; lia). lra.
Qed.

Lemma fade_blur_nonneg (a : Q) : (0 <= fade_blur_radius a)%Q.
Proof.
  unfold fade_blur_radius, fmax.
  assert (0 <= lit 0.0)%Q as Z0 by (apply rnd_nonneg; discriminate).
  destruct (fgt _ _) eqn:E; [apply fgt_true in E; lra | exact Z0].
Qed.

(** X27: along the frames of a flight, and along the frames of the fade,
    the progress [(i + 1) / n] grows within [0, 1] and the blur radius
    falls and stays non-negative.  The blurred frames are therefore a
    prefix: once a frame is left unblurred, so is every later one. *)
Theorem blur_fades_out (n i1 i2 : Z) :
  1 <= n <= 2 ^ 53 -> 0 <= i1 -> i1 <= i2 -> i2 < n ->
  let p1 := flight_t_norm n i1 in
  let p2 := flight_t_norm n i2 in
  (0 <= p1 <= p2)%Q /\ (p2 <= 1)%Q /\
  (0 <= flight_blur_radius p2 <= flight_blur_radius p1)%Q /\
  (0 <= fade_blur_radius p2 <= fade_blur_radius p1)%Q /\
  (fgt (flight_blur_radius p1) (lit 0.1) = false ->
   fgt (flight_blur_radius p2) (lit 0.1) = false) /\
  (fgt (fade_blur_radius p1) (of_int 0) = false ->
   fgt (fade_blur_radius p2) (of_int 0) = false).
Proof.
  intros Hn H0 H12 H2 p1 p2.
  pose proof (flight_t_norm_mono n i1 i2 ltac:(lia) H12) as M. fold p1 p2 in M.
  pose proof (flight_t_norm_range n i1 Hn ltac:(lia)) as [A0 A1]. fold p1 in A0, A1.
  pose proof (flight_t_norm_range n i2 Hn ltac:(lia)) as [B0 B1]. fold p2 in B0, B1.
  pose proof (flight_blur_anti p1 p2 M) as F.
  pose proof (fade_blur_anti p1 p2 M) as G.
  split; [now split|]. split; [exact B1|].
  split; [split; [now apply flight_blur_nonneg | exact F]|].
  split; [split; [apply fade_blur_nonneg | exact G]|].
  split; intros E; apply fgt_false in E; apply fgt_false; lra.
Qed.

End Progress.

(** X26 for a glyph flying from (-240, 300) to (16.8, 28), on frames 1 and 2
    of 4. *)
Lemma glyphs_approach_without_turning_back_witness :
  let c1 := flight_center (R := exact_rounding) (flight_t_norm (R := exact_rounding) 4 1)
              (-240, 300)%Q (16.8, 28)%Q in
  let c2 := flight_center (R := exact_rounding) (flight_t_norm (R := exact_rounding) 4 2)
              (-240, 300)%Q (16.8, 28)%Q in
  (-240 <= fst c1 <= fst c2)%Q /\ (snd c2 <= snd c1 <= 300)%Q.
Proof.
  intros c1 c2.
  pose proof (glyphs_approach_without_turning_back (R := exact_rounding) 4 1 2
                (-240)%Q 300%Q 16.8%Q 28%Q ltac:(lia) ltac:(lia) ltac:(lia) ltac:(lia))
    as (X & _ & _ & Y).
  split; [apply X | apply Y]; apply Qle_bool_iff; reflexivity.
Defined.

(** X27 on frames 0 and 3 of 4. *)
Lemma blur_fades_out_witness :
  (fade_blur_radius (R := exact_rounding) (flight_t_norm (R := exact_rounding) 4 3)
   <= fade_blur_radius (R := exact_rounding) (flight_t_norm (R := exact_rounding) 4 0))%Q.
Proof.
  apply (blur_fades_out (R := exact_rounding) 4 0 3 ltac:(lia) ltac:(lia) ltac:(lia)
           ltac:(lia)).
Defined.

(** ** A non-positive [max_width] *)

Section ScalingDown.
Context {R : Rounding}.
Local Open Scope pyfloat_scope.
#[local] Existing Instance rnd_Proper.

(** X28: [max_width] is not validated either.  For a zero or negative
    [max_width] nothing is raised by the scaling itself: the size asked of
    [resize] is [(max_width, h')] with [h' <= 0]. *)
Theorem non_positive_max_width_is_not_rejected (w h max_width : Z) :
  1 <= w <= 2 ^ 53 -> 0 <= h <= 2 ^ 53 -> - 2 ^ 53 <= max_width <= 0 ->
  exists h', scaled_size w h max_width = Some (max_width, h') /\ h' <= 0.
Proof.
  intros Hw Hh Hm. unfold scaled_size.
  replace (w =? 0) with false by (symmetry; apply Z.eqb_neq; lia).
  eexists. split; [reflexivity|].
  pose proof (of_int_exact w ltac:(lia)) as Ew.
  pose proof (of_int_exact h ltac:(lia)) as Eh.
  pose proof (of_int_exact max_width ltac:(lia)) as Em.
  pose proof (inject_Z_pos w ltac:(lia)) as Pw.
  pose proof (inject_Z_nonneg h ltac:(lia)) as Ph.
  assert (inject_Z max_width <= 0)%Q as Pm
    by (change 0%Q with (inject_Z 0); rewrite <- Zle_Qle; lia).
  set (scale := of_int max_width /~ of_int w).
  assert (scale <= 0)%Q as S0.
  { subst scale. unfold fdiv. apply (rnd_below _ 0); [simpl; lia|]. rewrite Em, Ew.
    apply Qle_shift_div_r; [exact Pw|]. now rewrite Qmult_0_l. }
  change 0 with (int_of 0%Q). apply int_of_mono. unfold fmul.
  apply (rnd_below _ 0); [simpl; lia|]. rewrite Eh. change (inject_Z 0) with 0%Q.
  assert (0 <= inject_Z h * (- scale))%Q by (apply Qmult_le_0_compat; lra).
  assert (inject_Z h * scale == - (inject_Z h * (- scale)))%Q as E by ring. lra.
Qed.

End ScalingDown.

(** X28 for a 1600x1200 image and [max_width = -800]. *)
Lemma non_positive_max_width_is_not_rejected_witness :
  exists h', scaled_size (R := exact_rounding) 1600 1200 (-800) = Some (-800, h') /\ h' <= 0.
Proof.
  apply (non_positive_max_width_is_not_rejected (R := exact_rounding) 1600 1200 (-800));
    lia.
Defined.
